(** * The note vault store (noting/js/core/store.js) and its database layer

    A shallow embedding of the [Store] class of the DnD Notes Vault, of the
    IndexedDB wrapper [Database] it persists through, and of the tree
    component's [handleDrop], followed by the properties of the tree
    operations, of the search index and of export/import.

    Conventions of the embedding:
    - the in-memory [Map] of nodes keeps insertion order, so it is an
      association list; [Map_set] overwrites in place or appends;
    - the two IndexedDB object stores are finite maps keyed by their key path
      ([id] for nodes, [nodeId] for content);
    - [Date.now()] and [generateId()] are inputs of the operation that calls
      them ([now], [newId]);
    - loops and recursions that follow [parentId] links or descend into
      children take a [fuel]; [None] means the budget ran out, which is how a
      walk that never ends shows up;
    - strings are the UTF-8 bytes of the JavaScript strings; [trim] strips
      the white space of ECMAScript; [toLowerCase] lowers the letters A to Z
      and leaves every other byte, which is what [String.prototype.toLowerCase]
      does on a string of ASCII characters only: the statements that depend
      on how a name is lowered are about nodes with ASCII names;
    - the tables [getDefaultIcon] and [getTemplateFields] are looked up by
      their own keys; a template name that [Object.prototype] answers to
      ([constructor], [toString], ...) is outside the embedding. *)

From stdpp Require Import gmap strings list fin_maps relations sorting.
From Stdlib Require Import Ascii.

Open Scope string_scope.
Open Scope list_scope.

(** ** Strings *)

Definition is_upper (c : ascii) : bool :=
  let n := nat_of_ascii c in (65 <=? n)%nat && (n <=? 90)%nat.

Definition lower_ascii (c : ascii) : ascii :=
  if is_upper c then ascii_of_nat (nat_of_ascii c + 32) else c.

(** [s.toLowerCase()] for a string of ASCII characters. *)
Fixpoint toLowerCase (s : string) : string :=
  match s with
  | EmptyString => EmptyString
  | String c r => String (lower_ascii c) (toLowerCase r)
  end.

(** A string of ASCII characters only. *)
Fixpoint is_ascii (s : string) : bool :=
  match s with
  | EmptyString => true
  | String c r => (nat_of_ascii c <? 128)%nat && is_ascii r
  end.

(** The string of the given bytes. *)
Definition bytes (l : list nat) : string :=
  String.string_of_list_ascii (ascii_of_nat <$> l).

(** The characters [trim] strips, in UTF-8: the WhiteSpace and LineTerminator
    code points of ECMAScript, U+0009 to U+000D, U+0020, U+00A0, U+1680,
    U+2000 to U+200A, U+2028, U+2029, U+202F, U+205F, U+3000 and U+FEFF. *)
Definition whiteSpace : list string :=
  (bytes <$> [[9]; [10]; [11]; [12]; [13]; [32]; [194; 160]; [225; 154; 128]])
  ++ ((fun n => bytes [226; 128; n]) <$> seq 128 11)
  ++ (bytes <$> [[226; 128; 168]; [226; 128; 169]; [226; 128; 175];
                 [226; 129; 159]; [227; 128; 128]; [239; 187; 191]]).

(** The length of the first string of [table] that [s] starts with; 0 when
    it starts with none. *)
Definition startLength (table : list string) (s : string) : nat :=
  default 0 (String.length <$> head (filter (fun w => String.prefix w s = true) table)).

(** [s] without the strings of [table] it starts with; [skip] bytes of one
    are still to be dropped. *)
Fixpoint strip (table : list string) (skip : nat) (s : string) : string :=
  match s with
  | EmptyString => EmptyString
  | String _ r =>
      match skip with
      | S k => strip table k r
      | O =>
          match startLength table s with
          | O => s
          | S k => strip table k r
          end
      end
  end.

Definition trimStart (s : string) : string := strip whiteSpace 0 s.

Definition trimEnd (s : string) : string :=
  String.rev (strip (String.rev <$> whiteSpace) 0 (String.rev s)).

Definition trim (s : string) : string := trimEnd (trimStart s).

(** [s.startsWith(q)] *)
Definition startsWith (s q : string) : bool := String.prefix q s.

(** [s.includes(q)] *)
Fixpoint includes (s q : string) : bool :=
  String.prefix q s ||
  match s with
  | EmptyString => false
  | String _ r => includes r q
  end.

(** [l.join(sep)] *)
Definition join (sep : string) (l : list string) : string := String.concat sep l.

(** JavaScript truthiness of a string and of a nullable string. *)
Definition truthy_string (s : string) : bool := negb (String.eqb s "").

Definition truthy (p : option string) : bool :=
  match p with
  | None => false
  | Some s => truthy_string s
  end.

(** ** Records *)

Inductive NodeType := folder | leaf.

Global Instance NodeType_eq_dec : EqDecision NodeType.
Proof. solve_decision. Defined.

Record Node := mkNode {
  id : string;
  parentId : option string;
  type : NodeType;
  name : string;
  orderIndex : Z;
  active : bool;
  createdAt : Z;
  updatedAt : Z
}.

Global Instance Node_eq_dec : EqDecision Node.
Proof. solve_decision. Defined.

Record Content := mkContent {
  nodeId : string;
  icon : string;
  markdown : string;
  fields : list (string * string);
  tags : list string;
  links : list string;
  contentUpdatedAt : Z
}.

Global Instance Content_eq_dec : EqDecision Content.
Proof. solve_decision. Defined.

(** An entry of the search index: [{id, name, type, path}]. *)
Record Indexed := mkIndexed {
  idx_id : string;
  idx_name : string;
  idx_type : NodeType;
  idx_path : string
}.

(** ** The JavaScript [Map], in insertion order *)

Section JsMap.
Context {V : Type}.

Fixpoint Map_get (k : string) (m : list (string * V)) : option V :=
  match m with
  | [] => None
  | (k', v) :: r => if decide (k = k') then Some v else Map_get k r
  end.

Fixpoint Map_set (k : string) (v : V) (m : list (string * V)) : list (string * V) :=
  match m with
  | [] => [(k, v)]
  | (k', v') :: r =>
      if decide (k = k') then (k, v) :: r else (k', v') :: Map_set k v r
  end.

Definition Map_delete (k : string) (m : list (string * V)) : list (string * V) :=
  filter (fun kv => fst kv <> k) m.

Definition Map_values (m : list (string * V)) : list V := snd <$> m.

Definition Map_keys (m : list (string * V)) : list string := fst <$> m.
End JsMap.

(** ** [Array.prototype.sort], which is stable

    [le a b] says that the comparator puts [a] no later than [b]
    ([cmp(a, b) <= 0]). *)

Section Sort.
Context {A : Type} (le : A -> A -> bool).

Fixpoint sort_insert (x : A) (l : list A) : list A :=
  match l with
  | [] => [x]
  | y :: r => if le x y then x :: y :: r else y :: sort_insert x r
  end.

Fixpoint sortBy (l : list A) : list A :=
  match l with
  | [] => []
  | x :: r => sort_insert x (sortBy r)
  end.
End Sort.

(** The comparator [(a, b) => a.orderIndex - b.orderIndex]. *)
Definition byOrderIndex (a b : Node) : bool := (orderIndex a <=? orderIndex b)%Z.

(** ** The database (db.js) *)

Record Database := mkDatabase {
  nodeStore : gmap string Node;
  contentStore : gmap string Content
}.

Definition DB_VERSION : Z := 2.

Record Snapshot := mkSnapshot {
  version : Z;
  exportDate : string;
  snap_nodes : list Node;
  snap_contents : list Content
}.

(** IndexedDB orders string keys by UTF-16 code unit.  On UTF-8 bytes that
    is the order of the bytes, except that a character from U+E000 to U+FFFF
    (lead byte 238 or 239) comes after the characters beyond U+FFFF (lead
    bytes 240 to 244), whose code units are surrogates. *)
Definition unit_rank (c : ascii) : nat :=
  let n := nat_of_ascii c in
  if (n =? 238)%nat || (n =? 239)%nat then n + 18 else n.

Fixpoint key_leb (a b : string) : bool :=
  match a, b with
  | EmptyString, _ => true
  | String _ _, EmptyString => false
  | String x a', String y b' =>
      if (unit_rank x <? unit_rank y)%nat then true
      else if (unit_rank x =? unit_rank y)%nat then key_leb a' b'
      else false
  end.

(** [getAll()] of an object store returns the records in key order. *)
Definition store_getAll {V : Type} (s : gmap string V) : list V :=
  snd <$> sortBy (fun a b => key_leb (fst a) (fst b)) (map_to_list s).

Definition db_getAllNodes (d : Database) : list Node := store_getAll (nodeStore d).

Definition db_saveNode (n : Node) (d : Database) : Database :=
  mkDatabase (<[id n := n]> (nodeStore d)) (contentStore d).

Definition db_deleteNode (i : string) (d : Database) : Database :=
  mkDatabase (delete i (nodeStore d)) (delete i (contentStore d)).

(** The literal [icon] of [getDefaultContent] as db.js has it. *)
Definition default_icon : string := "ðŸ“„".

Definition getDefaultContent (i : string) (now : Z) : Content :=
  mkContent i default_icon "" [] [] [] now.

Definition db_getContent (i : string) (now : Z) (d : Database) : Content :=
  match contentStore d !! i with
  | Some c => c
  | None => getDefaultContent i now
  end.

Definition db_saveContent (c : Content) (d : Database) : Database :=
  mkDatabase (nodeStore d) (<[nodeId c := c]> (contentStore d)).

Definition db_exportAll (date : string) (d : Database) : Snapshot :=
  mkSnapshot DB_VERSION date (db_getAllNodes d) (store_getAll (contentStore d)).

Definition db_importAll (data : Snapshot) (d : Database) : Database :=
  mkDatabase
    (foldl (fun s n => <[id n := n]> s) ∅ (snap_nodes data))
    (foldl (fun s c => <[nodeId c := c]> s) ∅ (snap_contents data)).

(** ** The store (store.js) *)

Inductive Event :=
  | ev_initialized
  | ev_nodesChanged
  | ev_nodeCreated (n : Node)
  | ev_nodeUpdated (n : Node)
  | ev_nodeDeleted (i : string)
  | ev_nodeMoved (n : Node)
  | ev_selectionChanged (i : option string).

Record Store := mkStore {
  nodes : list (string * Node);
  rootNodes : list string;
  expandedNodes : gset string;
  selectedNodeId : option string;
  currentContent : option Content;
  searchIndex : list (string * Indexed);
  initialized : bool;
  db : Database;
  emitted : list Event
}.

Definition emptyStore : Store :=
  mkStore [] [] ∅ None None [] false (mkDatabase ∅ ∅) [].

Definition set_nodes (v : list (string * Node)) (st : Store) : Store :=
  mkStore v (rootNodes st) (expandedNodes st) (selectedNodeId st)
    (currentContent st) (searchIndex st) (initialized st) (db st) (emitted st).

Definition set_rootNodes (v : list string) (st : Store) : Store :=
  mkStore (nodes st) v (expandedNodes st) (selectedNodeId st)
    (currentContent st) (searchIndex st) (initialized st) (db st) (emitted st).

Definition set_expandedNodes (v : gset string) (st : Store) : Store :=
  mkStore (nodes st) (rootNodes st) v (selectedNodeId st)
    (currentContent st) (searchIndex st) (initialized st) (db st) (emitted st).

Definition set_selection (i : option string) (c : option Content) (st : Store) : Store :=
  mkStore (nodes st) (rootNodes st) (expandedNodes st) i c
    (searchIndex st) (initialized st) (db st) (emitted st).

Definition set_searchIndex (v : list (string * Indexed)) (st : Store) : Store :=
  mkStore (nodes st) (rootNodes st) (expandedNodes st) (selectedNodeId st)
    (currentContent st) v (initialized st) (db st) (emitted st).

Definition set_db (v : Database) (st : Store) : Store :=
  mkStore (nodes st) (rootNodes st) (expandedNodes st) (selectedNodeId st)
    (currentContent st) (searchIndex st) (initialized st) v (emitted st).

(** [this.emit(event, data)]: the listeners are outside the store, the call
    is recorded in the order it is made. *)
Definition emit (e : Event) (st : Store) : Store :=
  mkStore (nodes st) (rootNodes st) (expandedNodes st) (selectedNodeId st)
    (currentContent st) (searchIndex st) (initialized st) (db st)
    (emitted st ++ [e]).

(** How a call that may throw ends. *)
Inductive Completion (A : Type) :=
  | Returned (v : A) (st : Store)
  | Thrown (msg : string) (st : Store).
Arguments Returned {A} v st.
Arguments Thrown {A} msg st.

Definition final {A : Type} (c : Completion A) : Store :=
  match c with
  | Returned _ st => st
  | Thrown _ st => st
  end.

Definition CycleError : string := "Cannot move a node into its own descendant".
Definition TypeError : string := "TypeError".

(** [getNode(id)] *)
Definition getNode (st : Store) (i : string) : option Node := Map_get i (nodes st).

(** [getChildren(parentId)]: the nodes whose [parentId] is strictly equal to
    the argument, sorted by [orderIndex]. *)
Definition getChildren (m : list (string * Node)) (p : option string) : list Node :=
  sortBy byOrderIndex (filter (fun n => parentId n = p) (Map_values m)).

(** The assignment [current = current.parentId ? this.nodes.get(current.parentId) : null]. *)
Definition parentNode (m : list (string * Node)) (n : Node) : option Node :=
  match parentId n with
  | Some p => if truthy_string p then Map_get p m else None
  | None => None
  end.

(** The [while (current)] loop of [getNodePath]; one unit of fuel per turn. *)
Fixpoint getNodePath_loop (fuel : nat) (m : list (string * Node))
    (current : option Node) (path : list Node) : option (list Node) :=
  match current with
  | None => Some path
  | Some cur =>
      match fuel with
      | O => None
      | S f => getNodePath_loop f m (parentNode m cur) (cur :: path)
      end
  end.

Definition getNodePath (fuel : nat) (m : list (string * Node)) (i : string)
    : option (list Node) :=
  getNodePath_loop fuel m (Map_get i m) [].

(** [isDescendant(potentialDescendant, ancestorId)]; one unit of fuel per
    recursive call. *)
Fixpoint isDescendant (fuel : nat) (m : list (string * Node))
    (potentialDescendant : option string) (ancestorId : string) : option bool :=
  match potentialDescendant with
  | None => Some false
  | Some p =>
      if decide (p = ancestorId) then Some true
      else if truthy_string p then
        match Map_get p m with
        | None => Some false
        | Some node =>
            match fuel with
            | O => None
            | S f => isDescendant f m (parentId node) ancestorId
            end
        end
      else Some false
  end.

(** [buildSearchIndex()] *)
Definition indexEntry (n : Node) (path : list Node) : Indexed :=
  mkIndexed (id n) (toLowerCase (name n)) (type n)
    (toLowerCase (join " > " (name <$> path))).

Definition buildSearchIndex (fuel : nat) (m : list (string * Node))
    : option (list (string * Indexed)) :=
  foldl
    (fun acc n =>
       match acc with
       | None => None
       | Some idx =>
           match getNodePath fuel m (id n) with
           | None => None
           | Some path => Some (Map_set (id n) (indexEntry n path) idx)
           end
       end)
    (Some []) (Map_values m).

Definition rebuildIndex (fuel : nat) (st : Store) : option Store :=
  match buildSearchIndex fuel (nodes st) with
  | None => None
  | Some idx => Some (set_searchIndex idx st)
  end.

(** [calculateSearchScore(query, indexed)] *)
Definition calculateSearchScore (query : string) (indexed : Indexed) : Z :=
  let score :=
    if decide (idx_name indexed = query) then 100%Z
    else if startsWith (idx_name indexed) query then 50%Z
    else if includes (idx_name indexed) query then 20%Z
    else 0%Z in
  if includes (idx_path indexed) query then (score + 10)%Z else score.

Record SearchResult := mkSearchResult {
  sr_node : option Node;
  sr_score : Z;
  sr_path : list Node
}.

(** The comparator [(a, b) => b.score - a.score]. *)
Definition byScoreDesc (a b : SearchResult) : bool := (sr_score b <=? sr_score a)%Z.

(** [search(query, limit = 20)] *)
Definition search (fuel : nat) (st : Store) (query : string) (limit : nat)
    : option (list SearchResult) :=
  if truthy_string (trim query) then
    let lowerQuery := toLowerCase query in
    match
      foldl
        (fun acc e =>
           match acc with
           | None => None
           | Some results =>
               let score := calculateSearchScore lowerQuery (snd e) in
               if (0 <? score)%Z then
                 match getNodePath fuel (nodes st) (fst e) with
                 | None => None
                 | Some path =>
                     Some (results ++ [mkSearchResult (Map_get (fst e) (nodes st)) score path])
                 end
               else Some results
           end)
        (Some []) (searchIndex st)
    with
    | None => None
    | Some results => Some (take limit (sortBy byScoreDesc results))
    end
  else Some [].

(** The in-place sort of [rootNodes] by the [orderIndex] of the node each id
    names.  The comparator reads [nodeA.orderIndex] of [this.nodes.get(a)]; it
    is called as soon as there are two elements, and an id without a node
    makes it throw: [None]. *)
Definition sortRootNodes (m : list (string * Node)) (l : list string)
    : option (list string) :=
  if (length l <? 2)%nat then Some l
  else
    match mapM (fun a => Map_get a m) l with
    | None => None
    | Some ns =>
        Some (fst <$> sortBy (fun x y => byOrderIndex (snd x) (snd y)) (zip l ns))
    end.

(** [loadNodes()] *)
Definition loadNodes (fuel : nat) (st : Store) : option (Completion unit) :=
  let loaded :=
    foldl
      (fun acc n =>
         (Map_set (id n) n (fst acc),
          if truthy (parentId n) then snd acc else snd acc ++ [id n]))
      ([], []) (db_getAllNodes (db st)) in
  let st1 := set_rootNodes (snd loaded) (set_nodes (fst loaded) st) in
  match sortRootNodes (nodes st1) (rootNodes st1) with
  | None => Some (Thrown TypeError st1)
  | Some sorted =>
      match rebuildIndex fuel (set_rootNodes sorted st1) with
      | None => None
      | Some st2 => Some (Returned tt (emit ev_nodesChanged st2))
      end
  end.

(** Helper tables: [icons[template] || icons.default] and
    [templates[template] || {}], for a [template] that is an own key of the
    table or no property of the table at all. *)
Definition getDefaultIcon (template : option string) : string :=
  match template with
  | Some "npc" => "👤"
  | Some "location" => "🏰"
  | Some "item" => "🗡️"
  | Some "quest" => "📜"
  | Some "monster" => "🐉"
  | Some "faction" => "⚔️"
  | _ => "📄"
  end.

Definition getTemplateFields (template : string) : list (string * string) :=
  match template with
  | "npc" =>
      [("Role", ""); ("Species", ""); ("Alignment", ""); ("Age", "");
       ("Personality", ""); ("Appearance", ""); ("Motivations", ""); ("Secrets", "")]
  | "location" =>
      [("Type", ""); ("Region", ""); ("Climate", ""); ("Population", "");
       ("Ruler", ""); ("Notable Features", "")]
  | "item" =>
      [("Type", ""); ("Rarity", ""); ("Attunement", ""); ("Value", "");
       ("Weight", ""); ("Properties", "")]
  | "quest" =>
      [("Status", "Active"); ("Level", ""); ("Giver", ""); ("Reward", "");
       ("Location", ""); ("Objective", "")]
  | "monster" =>
      [("CR", ""); ("AC", ""); ("HP", ""); ("Speed", ""); ("Abilities", "");
       ("Weaknesses", ""); ("Resistances", "")]
  | "faction" =>
      [("Type", ""); ("Alignment", ""); ("Leader", ""); ("Headquarters", "");
       ("Goals", ""); ("Notable Members", "")]
  | _ => []
  end.

(** The argument object of [createNode], with its defaults filled in. *)
Record CreateArgs := mkCreateArgs {
  a_name : string;
  a_type : NodeType;
  a_parentId : option string;
  a_template : option string;
  a_icon : option string;
  a_active : bool
}.

(** [createNode({ name, type, parentId, template, icon, active })] *)
Definition createNode (fuel : nat) (st : Store) (args : CreateArgs)
    (newId : string) (now : Z) : option (Node * Store) :=
  let siblings := getChildren (nodes st) (a_parentId args) in
  let node :=
    mkNode newId (a_parentId args) (a_type args) (a_name args)
      (Z.of_nat (length siblings)) (a_active args) now now in
  let st1 := set_db (db_saveNode node (db st)) st in
  let st2 := set_nodes (Map_set (id node) node (nodes st1)) st1 in
  let st3 :=
    if truthy (a_parentId args) then st2
    else set_rootNodes (rootNodes st2 ++ [id node]) st2 in
  let st4 :=
    match a_type args with
    | leaf =>
        let content := getDefaultContent (id node) now in
        let icon' :=
          if truthy (a_icon args) then default "" (a_icon args)
          else getDefaultIcon (a_template args) in
        let fields' :=
          if truthy (a_template args)
          then getTemplateFields (default "" (a_template args))
          else fields content in
        set_db
          (db_saveContent
             (mkContent (nodeId content) icon' (markdown content) fields'
                (tags content) (links content) (contentUpdatedAt content))
             (db st3))
          st3
    | folder => st3
    end in
  match rebuildIndex fuel st4 with
  | None => None
  | Some st5 => Some (node, emit ev_nodesChanged (emit (ev_nodeCreated node) st5))
  end.

(** The [updates] object of [updateNode]: the fields it carries. *)
Record NodeUpdates := mkNodeUpdates {
  u_id : option string;
  u_parentId : option (option string);
  u_type : option NodeType;
  u_name : option string;
  u_orderIndex : option Z;
  u_active : option bool;
  u_createdAt : option Z
}.

(** [{ ...node, ...updates, updatedAt: Date.now() }] *)
Definition mergeUpdates (n : Node) (u : NodeUpdates) (now : Z) : Node :=
  mkNode (default (id n) (u_id u)) (default (parentId n) (u_parentId u))
    (default (type n) (u_type u)) (default (name n) (u_name u))
    (default (orderIndex n) (u_orderIndex u)) (default (active n) (u_active u))
    (default (createdAt n) (u_createdAt u)) now.

(** [updateNode(id, updates)]; [null] is [None]. *)
Definition updateNode (fuel : nat) (st : Store) (i : string)
    (updates : NodeUpdates) (now : Z) : option (option Node * Store) :=
  match Map_get i (nodes st) with
  | None => Some (None, st)
  | Some node =>
      let updated := mergeUpdates node updates now in
      let st1 := set_db (db_saveNode updated (db st)) st in
      let st2 := set_nodes (Map_set i updated (nodes st1)) st1 in
      let rebuilt :=
        match u_name updates with
        | Some _ => rebuildIndex fuel st2
        | None => Some st2
        end in
      match rebuilt with
      | None => None
      | Some st3 => Some (Some updated, emit (ev_nodeUpdated updated) st3)
      end
  end.

(** [deleteNode(id)]; one unit of fuel per level of recursion. *)
Fixpoint deleteNode (fuel : nat) (st : Store) (i : string) : option Store :=
  match Map_get i (nodes st) with
  | None => Some st
  | Some node =>
      match fuel with
      | O => None
      | S f =>
          let children := getChildren (nodes st) (Some i) in
          match
            foldl
              (fun acc child =>
                 match acc with
                 | None => None
                 | Some s => deleteNode f s (id child)
                 end)
              (Some st) children
          with
          | None => None
          | Some st1 =>
              let st2 := set_db (db_deleteNode i (db st1)) st1 in
              let st3 := set_nodes (Map_delete i (nodes st2)) st2 in
              let st4 :=
                if truthy (parentId node) then st3
                else set_rootNodes (filter (fun r => r <> i) (rootNodes st3)) st3 in
              let st5 :=
                if decide (selectedNodeId st4 = Some i)
                then emit (ev_selectionChanged None) (set_selection None None st4)
                else st4 in
              match rebuildIndex fuel st5 with
              | None => None
              | Some st6 => Some (emit ev_nodesChanged (emit (ev_nodeDeleted i) st6))
              end
          end
      end
  end.

(** [moveNode(nodeId, newParentId)].  When the sort of the root list throws,
    the node has been saved and stored already; the root list is handed on
    as it was before the sort. *)
Definition moveNode (fuel : nat) (st : Store) (i : string)
    (newParentId : option string) (now : Z) : option (Completion unit) :=
  match Map_get i (nodes st) with
  | None => Some (Returned tt st)
  | Some node =>
      match isDescendant fuel (nodes st) newParentId i with
      | None => None
      | Some true => Some (Thrown CycleError st)
      | Some false =>
          let siblings := getChildren (nodes st) newParentId in
          let updated :=
            mkNode (id node) newParentId (type node) (name node)
              (Z.of_nat (length siblings)) (active node) (createdAt node) now in
          let st1 := set_db (db_saveNode updated (db st)) st in
          let st2 := set_nodes (Map_set i updated (nodes st1)) st1 in
          let st3 :=
            if truthy (parentId node) then st2
            else set_rootNodes (filter (fun r => r <> i) (rootNodes st2)) st2 in
          let finish st4 :=
            match rebuildIndex fuel st4 with
            | None => None
            | Some st5 =>
                Some (Returned tt (emit ev_nodesChanged (emit (ev_nodeMoved updated) st5)))
            end in
          if truthy newParentId then finish st3
          else
            let pushed := rootNodes st3 ++ [i] in
            match sortRootNodes (nodes st3) pushed with
            | None => Some (Thrown TypeError (set_rootNodes pushed st3))
            | Some sorted => finish (set_rootNodes sorted st3)
            end
      end
  end.

(** [siblings.findIndex(n => n.id === nodeId)]; [-1] is [None]. *)
Fixpoint findIndex (i : string) (l : list Node) : option nat :=
  match l with
  | [] => None
  | n :: r => if decide (id n = i) then Some O else S <$> findIndex i r
  end.

(** [l.splice(i, 1)] for an index in range. *)
Definition splice_remove {A : Type} (i : nat) (l : list A) : list A :=
  take i l ++ drop (S i) l.

(** [l.splice(start, 0, x)]: a negative [start] counts from the end, and the
    position is clamped to the array. *)
Definition splice_insert {A : Type} (start : Z) (x : A) (l : list A) : list A :=
  let len := Z.of_nat (length l) in
  let pos :=
    if (start <? 0)%Z then Z.max (len + start) 0 else Z.min start len in
  take (Z.to_nat pos) l ++ x :: drop (Z.to_nat pos) l.

(** The renumbering loop of [reorderNode], from index [i] on. *)
Fixpoint renumber (now : Z) (i : nat) (l : list Node) (st : Store) : Store :=
  match l with
  | [] => st
  | sibling :: r =>
      let st' :=
        if decide (orderIndex sibling = Z.of_nat i) then st
        else
          let sibling' :=
            mkNode (id sibling) (parentId sibling) (type sibling) (name sibling)
              (Z.of_nat i) (active sibling) (createdAt sibling) now in
          let st1 := set_db (db_saveNode sibling' (db st)) st in
          set_nodes (Map_set (id sibling') sibling' (nodes st1)) st1 in
      renumber now (S i) r st'
  end.

(** [reorderNode(nodeId, newIndex)].  The loop assigns to the sibling objects
    the map holds; with every node stored under its own id that is the
    [Map_set] of [renumber]. *)
Definition reorderNode (st : Store) (i : string) (newIndex : Z) (now : Z) : Store :=
  match Map_get i (nodes st) with
  | None => st
  | Some node =>
      let siblings := getChildren (nodes st) (parentId node) in
      match findIndex i siblings with
      | None => st
      | Some oldIndex =>
          if decide (Z.of_nat oldIndex = newIndex) then st
          else
            let siblings' :=
              splice_insert newIndex node (splice_remove oldIndex siblings) in
            emit ev_nodesChanged (renumber now O siblings' st)
      end
  end.

(** [selectNode(nodeId)] *)
Definition selectNode (st : Store) (i : option string) (now : Z) : Store :=
  let st1 :=
    match i with
    | Some s =>
        if truthy_string s
        then set_selection i (Some (db_getContent s now (db st))) st
        else set_selection i None st
    | None => set_selection None None st
    end in
  emit (ev_selectionChanged i) st1.

(** [exportVault()] and [importVault(data)] *)
Definition exportVault (date : string) (st : Store) : Snapshot :=
  db_exportAll date (db st).

Definition importVault (fuel : nat) (st : Store) (data : Snapshot)
    : option (Completion unit) :=
  let st1 := set_db (db_importAll data (db st)) st in
  match loadNodes fuel st1 with
  | None => None
  | Some (Thrown msg st2) => Some (Thrown msg st2)
  | Some (Returned _ st2) =>
      Some (Returned tt
              (emit (ev_selectionChanged None)
                 (set_expandedNodes ∅ (set_selection None None st2))))
  end.

(** ** The tree component's drop handler (tree.js)

    [handleDrop(targetNodeId)] with [this.draggedNodeId] as an argument. *)
Definition handleDrop (fuel : nat) (st : Store) (draggedNodeId : option string)
    (targetNodeId : string) (now : Z) : option (Completion unit) :=
  match draggedNodeId with
  | None => Some (Returned tt st)
  | Some dragged =>
      if negb (truthy_string dragged) || bool_decide (dragged = targetNodeId)
      then Some (Returned tt st)
      else
        match getNode st dragged, getNode st targetNodeId with
        | Some draggedNode, Some targetNode =>
            match type targetNode with
            | folder =>
                match moveNode fuel st dragged (Some targetNodeId) now with
                | Some (Returned _ st1) =>
                    Some (Returned tt
                            (set_expandedNodes ({[targetNodeId]} ∪ expandedNodes st1) st1))
                | other => other
                end
            | leaf => moveNode fuel st dragged (parentId targetNode) now
            end
        | _, _ => Some (Returned tt st)
        end
  end.

(** ** Shape of a store

    [parent_step m k p]: the node stored under [k] names [p] as its parent
    and [p] is not the empty string, so a walk goes on from [k] to [p]. *)
Definition parent_step (m : list (string * Node)) (k p : string) : Prop :=
  exists n, Map_get k m = Some n /\ parentId n = Some p /\ p <> "".

(** No node is reachable from itself by following [parentId]. *)
Definition acyclic (m : list (string * Node)) : Prop :=
  forall k, ~ tc (parent_step m) k k.

(** Every node is stored once, under its own id, and no id is empty. *)
Definition wf (m : list (string * Node)) : Prop :=
  NoDup (Map_keys m) /\ Forall (fun kv => id (snd kv) = fst kv /\ fst kv <> "") m.

Global Instance wf_dec m : Decision (wf m).
Proof. unfold wf. apply _. Defined.

(** A bounded check of [acyclic]: every walk ends within [length m] turns. *)
Definition acyclicb (m : list (string * Node)) : bool :=
  forallb (fun kv => bool_decide (is_Some (getNodePath (length m) m (fst kv)))) m.

(** ** Derived notions used in the statements *)

(** What [moveNode] writes for the moved node. *)
Definition movedNode (node : Node) (m : list (string * Node))
    (newParentId : option string) (now : Z) : Node :=
  mkNode (id node) newParentId (type node) (name node)
    (Z.of_nat (length (getChildren m newParentId))) (active node) (createdAt node) now.

(** A run of [moveNode] calls; a call that throws leaves its state to the
    next one. *)
Fixpoint moveAll (fuel : nat) (st : Store) (calls : list (string * option string * Z))
    : option Store :=
  match calls with
  | [] => Some st
  | (i, p, now) :: r =>
      match moveNode fuel st i p now with
      | None => None
      | Some c => moveAll fuel (final c) r
      end
  end.

(** ** Example stores, built with the operations themselves *)

Definition created (st : Store) (args : CreateArgs) (newId : string) (now : Z) : Store :=
  match createNode 16 st args newId now with
  | Some (_, st') => st'
  | None => st
  end.

Definition newFolder (nm : string) (p : option string) : CreateArgs :=
  mkCreateArgs nm folder p None None false.

Definition newLeaf (nm : string) (p : option string) : CreateArgs :=
  mkCreateArgs nm leaf p None None false.

(** Folder [p] with the children [p1], [p2], [x], and folder [q] with the
    children [q1], [q2]. *)
Definition twoFolders : Store :=
  let s1 := created emptyStore (newFolder "P" None) "p" 1 in
  let s2 := created s1 (newFolder "Q" None) "q" 2 in
  let s3 := created s2 (newLeaf "P1" (Some "p")) "p1" 3 in
  let s4 := created s3 (newLeaf "P2" (Some "p")) "p2" 4 in
  let s5 := created s4 (newFolder "X" (Some "p")) "x" 5 in
  let s6 := created s5 (newLeaf "Q1" (Some "q")) "q1" 6 in
  created s6 (newLeaf "Q2" (Some "q")) "q2" 7.

(** Two nodes that name each other as parent, as an import can produce. *)
Definition loopStore : Store :=
  set_nodes
    [("a", mkNode "a" (Some "b") folder "A" 0 false 0 0);
     ("b", mkNode "b" (Some "a") folder "B" 0 false 0 0)]
    emptyStore.

(** [twoFolders] after [moveNode("x", "q")]. *)
Definition movedX : Store :=
  match moveNode 16 twoFolders "x" (Some "q") 50 with
  | Some c => final c
  | None => twoFolders
  end.

(** [twoFolders] without [q1], the first child of [q]. *)
Definition twoFoldersWithoutQ1 : Store := default twoFolders (deleteNode 16 twoFolders "q1").

(** [twoFoldersWithoutQ1] after [moveNode("x", "q")]. *)
Definition movedXAfterDelete : Store :=
  match moveNode 16 twoFoldersWithoutQ1 "x" (Some "q") 50 with
  | Some c => final c
  | None => twoFoldersWithoutQ1
  end.

(** ** The search of the specification, in its words

    The score: 100 if the name equals the query, else 50 if it starts with
    it, else 20 if it contains it; plus 10 if the path contains it. *)
Definition score_spec (q : string) (e : Indexed) : Z :=
  ((if decide (idx_name e = q) then 100
    else if startsWith (idx_name e) q then 50
    else if includes (idx_name e) q then 20
    else 0)
   + (if includes (idx_path e) q then 10 else 0))%Z.

(** The comparator on (node, score) pairs: higher score first. *)
Definition hitDesc (a b : option Node * Z) : bool := (snd b <=? snd a)%Z.

(** The entries of the index scored against [q], those scoring 0 left out,
    sorted by descending score and cut to [limit]. *)
Definition ranked (st : Store) (q : string) (limit : nat) : list (option Node * Z) :=
  take limit
    (sortBy hitDesc
       (filter (fun h => (0 < snd h)%Z)
          ((fun e => (Map_get (fst e) (nodes st), score_spec q (snd e)))
             <$> searchIndex st))).

(** [search] as the specification words it: the query is trimmed and
    lowercased, and an empty one gives no result. *)
Definition search_as_specified (st : Store) (query : string) (limit : nat)
    : list (option Node * Z) :=
  let q := toLowerCase (trim query) in
  if decide (q = "") then [] else ranked st q limit.

Definition hit (r : SearchResult) : option Node * Z := (sr_node r, sr_score r).

(** The vault of the scoring example, with a folder [Temple] whose leaf
    [Ruins] has the query [em] in its path only. *)
Definition vault : Store :=
  let s1 := created emptyStore (newFolder "NPCs" None) "n1" 1 in
  let s2 := created s1 (newFolder "Trolls" (Some "n1")) "n2" 2 in
  let s3 := created s2 (newLeaf "Grahda" (Some "n2")) "n3" 3 in
  let s4 := created s3 (newFolder "Locations" None) "n4" 4 in
  let s5 := created s4 (newFolder "Swamps" (Some "n4")) "n5" 5 in
  let s6 := created s5 (newLeaf "Emerald Mire" (Some "n5")) "n6" 6 in
  let s7 := created s6 (newFolder "Temple" None) "n7" 7 in
  created s7 (newLeaf "Ruins" (Some "n7")) "n8" 8.
(** The loop of [search] over the index. *)
Definition search_step (fuel : nat) (st : Store) (q : string)
    (acc : option (list SearchResult)) (e : string * Indexed)
    : option (list SearchResult) :=
  match acc with
  | None => None
  | Some results =>
      let score := calculateSearchScore q (snd e) in
      if (0 <? score)%Z then
        match getNodePath fuel (nodes st) (fst e) with
        | None => None
        | Some path =>
            Some (results ++ [mkSearchResult (Map_get (fst e) (nodes st)) score path])
        end
      else Some results
  end.

(** The body of the [for (const child of children)] loop of [deleteNode]. *)
Definition deleteStep (f : nat) (acc : option Store) (child : Node) : option Store :=
  match acc with
  | None => None
  | Some s => deleteNode f s (id child)
  end.

(** What [deleteNode] does after the loop over the children. *)
Definition deleteSelf (st1 : Store) (i : string) (node : Node) : Store :=
  let st2 := set_db (db_deleteNode i (db st1)) st1 in
  let st3 := set_nodes (Map_delete i (nodes st2)) st2 in
  let st4 :=
    if truthy (parentId node) then st3
    else set_rootNodes (filter (fun r => r <> i) (rootNodes st3)) st3 in
  if decide (selectedNodeId st4 = Some i)
  then emit (ev_selectionChanged None) (set_selection None None st4)
  else st4.

(** [k] was in the map [m] and is not in [m']. *)
Definition removed (m m' : list (string * Node)) (k : string) : Prop :=
  Map_get k m <> None /\ Map_get k m' = None.

(** A step from [(m, d)] to [(m', d')] that deletes the keys in [D], from the
    map and from both object stores, and nothing else. *)
Definition deletes (m : list (string * Node)) (d : Database)
    (m' : list (string * Node)) (d' : Database) (D : string -> Prop) : Prop :=
  (forall k n, Map_get k m' = Some n -> Map_get k m = Some n) /\
  (forall k, D k -> Map_get k m' = None) /\
  (forall k, removed m m' k -> D k) /\
  (forall k, removed m m' k ->
     nodeStore d' !! k = None /\ contentStore d' !! k = None) /\
  (forall k, ~ removed m m' k ->
     nodeStore d' !! k = nodeStore d !! k /\ contentStore d' !! k = contentStore d !! k).

(** [k] is [i] or has [i] among its ancestors, [i] being a node of [m]. *)
Definition under (m : list (string * Node)) (i k : string) : Prop :=
  Map_get i m <> None /\ rtc (parent_step m) k i.

Definition underAny (m : list (string * Node)) (l : list string) (k : string) : Prop :=
  exists c, c ∈ l /\ under m c k.

(** The example vault after [deleteNode("n1")], the folder NPCs. *)
Definition vaultWithoutNPCs : Store := default vault (deleteNode 16 vault "n1").


(** The node [createNode] builds. *)
Definition createdNode (st : Store) (args : CreateArgs) (newId : string) (now : Z) : Node :=
  mkNode newId (a_parentId args) (a_type args) (a_name args)
    (Z.of_nat (length (getChildren (nodes st) (a_parentId args)))) (a_active args) now now.





(** Every record of the two object stores sits under its key path. *)
Definition db_wf (d : Database) : Prop :=
  map_Forall (fun k n => id n = k) (nodeStore d) /\
  map_Forall (fun k c => nodeId c = k) (contentStore d).

(** The node map holds what the node object store holds. *)
Definition mirrors (st : Store) : Prop :=
  forall k, Map_get k (nodes st) = nodeStore (db st) !! k.

(** The body of the loop of [loadNodes]. *)
Definition loadStep (acc : list (string * Node) * list string) (n : Node)
    : list (string * Node) * list string :=
  (Map_set (id n) n (fst acc),
   if truthy (parentId n) then snd acc else snd acc ++ [id n]).

(** What [loadNodes] reads into the map. *)
Definition loadedNodes (d : Database) : list (string * Node) :=
  fst (foldl loadStep ([], []) (db_getAllNodes d)).



(** The calls that build and rearrange the tree. *)
Inductive Op :=
  | op_create (args : CreateArgs) (newId : string) (now : Z)
  | op_move (i : string) (newParentId : option string) (now : Z)
  | op_drop (draggedNodeId : option string) (targetNodeId : string) (now : Z).

(** One call; a call that throws leaves its state to the next one. *)
Definition exec (fuel : nat) (st : Store) (op : Op) : option Store :=
  match op with
  | op_create args newId now => snd <$> createNode fuel st args newId now
  | op_move i p now => final <$> moveNode fuel st i p now
  | op_drop d t now => final <$> handleDrop fuel st d t now
  end.

Fixpoint run (fuel : nat) (st : Store) (ops : list Op) : option Store :=
  match ops with
  | [] => Some st
  | op :: r =>
      match exec fuel st op with
      | None => None
      | Some st' => run fuel st' r
      end
  end.




(** ** The rest of the store's interface

    The events [activeChanged], [contentChanged] and [expansionChanged] are
    handed back by the function that emits them, beside the store, which
    logs the events of the calls it makes on the way. *)
Inductive Notice :=
  | activeChanged (i : string)
  | contentChanged (c : Content)
  | expansionChanged (i : string).

Definition set_initialized (b : bool) (st : Store) : Store :=
  mkStore (nodes st) (rootNodes st) (expandedNodes st) (selectedNodeId st)
    (currentContent st) (searchIndex st) b (db st) (emitted st).

(** [init()]; [db.init()] opens the database and leaves its records alone. *)
Definition init (fuel : nat) (st : Store) : option (Completion unit) :=
  match loadNodes fuel st with
  | None => None
  | Some (Thrown msg st1) => Some (Thrown msg st1)
  | Some (Returned _ st1) =>
      Some (Returned tt (emit ev_initialized (set_initialized true st1)))
  end.

(** The object [{ active: v }]. *)
Definition activeUpdate (v : bool) : NodeUpdates :=
  mkNodeUpdates None None None None None (Some v) None.

(** [toggleActive(nodeId)] *)
Definition toggleActive (fuel : nat) (st : Store) (i : string) (now : Z)
    : option (option Node * Store * list Notice) :=
  match Map_get i (nodes st) with
  | None => Some (None, st, [])
  | Some node =>
      match type node with
      | folder => Some (None, st, [])
      | leaf =>
          match updateNode fuel st i (activeUpdate (negb (active node))) now with
          | None => None
          | Some (updated, st1) => Some (updated, st1, [activeChanged i])
          end
      end
  end.

(** The comparator [(a, b) => b.updatedAt - a.updatedAt]. *)
Definition byUpdatedDesc (a b : Node) : bool := (updatedAt b <=? updatedAt a)%Z.

(** [getActiveNotes()] *)
Definition getActiveNotes (st : Store) : list Node :=
  sortBy byUpdatedDesc
    (filter (fun n => type n = leaf /\ active n = true) (Map_values (nodes st))).

(** The [updates] object of [updateContent]: the fields it carries. *)
Record ContentUpdates := mkContentUpdates {
  c_nodeId : option string;
  c_icon : option string;
  c_markdown : option string;
  c_fields : option (list (string * string));
  c_tags : option (list string);
  c_links : option (list string)
}.

(** [{ ...this.currentContent, ...updates, updatedAt: Date.now() }] *)
Definition mergeContent (c : Content) (u : ContentUpdates) (now : Z) : Content :=
  mkContent (default (nodeId c) (c_nodeId u)) (default (icon c) (c_icon u))
    (default (markdown c) (c_markdown u)) (default (fields c) (c_fields u))
    (default (tags c) (c_tags u)) (default (links c) (c_links u)) now.

(** [updateContent(updates)] *)
Definition updateContent (fuel : nat) (st : Store) (updates : ContentUpdates)
    (now : Z) : option (Store * list Notice) :=
  match currentContent st with
  | Some content =>
      if truthy (selectedNodeId st) then
        let updated := mergeContent content updates now in
        let st1 := set_db (db_saveContent updated (db st)) st in
        let st2 := set_selection (selectedNodeId st1) (Some updated) st1 in
        match c_tags updates with
        | Some _ =>
            match rebuildIndex fuel st2 with
            | None => None
            | Some st3 => Some (st3, [contentChanged updated])
            end
        | None => Some (st2, [contentChanged updated])
        end
      else Some (st, [])
  | None => Some (st, [])
  end.

(** [toggleExpanded(nodeId)] and [isExpanded(nodeId)] *)
Definition toggleExpanded (st : Store) (i : string) : Store * list Notice :=
  (set_expandedNodes
     (if decide (i ∈ expandedNodes st) then expandedNodes st ∖ {[i]}
      else {[i]} ∪ expandedNodes st)
     st,
   [expansionChanged i]).

Definition isExpanded (st : Store) (i : string) : bool :=
  bool_decide (i ∈ expandedNodes st).

(** What [toggleActive] writes for a leaf. *)
Definition toggled (node : Node) (now : Z) : Node :=
  mkNode (id node) (parentId node) (type node) (name node) (orderIndex node)
    (negb (active node)) (createdAt node) now.


(** [{ ...content, nodeId: newId }], saved; [content] is what the database
    returns for [from]. *)
Definition copyContent (st : Store) (from newId : string) (now : Z) : Store :=
  let content := db_getContent from now (db st) in
  set_db
    (db_saveContent
       (mkContent newId (icon content) (markdown content) (fields content)
          (tags content) (links content) (contentUpdatedAt content))
       (db st))
    st.

(** The object [{ name, type, parentId }] handed to [createNode]. *)
Definition copyArgs (nm : string) (t : NodeType) (p : option string) : CreateArgs :=
  mkCreateArgs nm t p None None false.

(** [duplicateNodeRecursive(nodeId, newParentId)].  Each [createNode] takes
    the next pair of [supply] for its [generateId()] and [Date.now()]; the
    pairs left over are returned.  [None] when the fuel or the supply runs
    out; one unit of fuel per level of recursion. *)
Fixpoint duplicateNodeRecursive (fuel : nat) (st : Store) (i newParentId : string)
    (supply : list (string * Z)) : option (Completion (list (string * Z))) :=
  match Map_get i (nodes st) with
  | None => Some (Thrown TypeError st)
  | Some node =>
      match fuel with
      | O => None
      | S f =>
          match supply with
          | [] => None
          | (newId, now) :: rest =>
              match
                createNode fuel st
                  (copyArgs (name node) (type node) (Some newParentId)) newId now
              with
              | None => None
              | Some (newNode, st1) =>
                  let st2 :=
                    match type node with
                    | leaf => copyContent st1 i (id newNode) now
                    | folder => st1
                    end in
                  foldl
                    (fun acc child =>
                       match acc with
                       | Some (Returned sup s) =>
                           duplicateNodeRecursive f s (id child) (id newNode) sup
                       | other => other
                       end)
                    (Some (Returned rest st2))
                    (getChildren (nodes st2) (Some i))
              end
          end
      end
  end.

(** The body of the [for (const child of children)] loops of the two
    duplicating functions. *)
Definition duplicateStep (f : nat) (newParentId : string)
    (acc : option (Completion (list (string * Z)))) (child : Node)
    : option (Completion (list (string * Z))) :=
  match acc with
  | Some (Returned sup s) => duplicateNodeRecursive f s (id child) newParentId sup
  | other => other
  end.

(** [duplicateNode(nodeId)]; [undefined] is [None]. *)
Definition duplicateNode (fuel : nat) (st : Store) (i : string)
    (supply : list (string * Z)) : option (Completion (option Node)) :=
  match Map_get i (nodes st) with
  | None => Some (Returned None st)
  | Some node =>
      match supply with
      | [] => None
      | (newId, now) :: rest =>
          match
            createNode fuel st
              (copyArgs (String.append (name node) " (Copy)") (type node) (parentId node))
              newId now
          with
          | None => None
          | Some (newNode, st1) =>
              let st2 :=
                match type node with
                | leaf => copyContent st1 i (id newNode) now
                | folder => st1
                end in
              match
                foldl (duplicateStep fuel (id newNode)) (Some (Returned rest st2))
                  (getChildren (nodes st2) (Some i))
              with
              | None => None
              | Some (Thrown msg s) => Some (Thrown msg s)
              | Some (Returned _ s) => Some (Returned (Some newNode) s)
              end
          end
      end
  end.

(** ** The calls of the store's interface *)
Inductive Call :=
  | call_createNode (args : CreateArgs) (newId : string) (now : Z)
  | call_updateNode (i : string) (updates : NodeUpdates) (now : Z)
  | call_deleteNode (i : string)
  | call_moveNode (i : string) (newParentId : option string) (now : Z)
  | call_reorderNode (i : string) (newIndex : Z) (now : Z)
  | call_toggleActive (i : string) (now : Z)
  | call_duplicateNode (i : string) (supply : list (string * Z))
  | call_selectNode (i : option string) (now : Z)
  | call_updateContent (updates : ContentUpdates) (now : Z)
  | call_toggleExpanded (i : string).

(** The store a call leaves, also when it throws. *)
Definition call (fuel : nat) (st : Store) (c : Call) : option Store :=
  match c with
  | call_createNode args newId now => snd <$> createNode fuel st args newId now
  | call_updateNode i updates now => snd <$> updateNode fuel st i updates now
  | call_deleteNode i => deleteNode fuel st i
  | call_moveNode i p now => final <$> moveNode fuel st i p now
  | call_reorderNode i newIndex now => Some (reorderNode st i newIndex now)
  | call_toggleActive i now => (fun r => snd (fst r)) <$> toggleActive fuel st i now
  | call_duplicateNode i supply => final <$> duplicateNode fuel st i supply
  | call_selectNode i now => Some (selectNode st i now)
  | call_updateContent updates now => fst <$> updateContent fuel st updates now
  | call_toggleExpanded i => Some (fst (toggleExpanded st i))
  end.

(** Ids that [generateId()] may hand out: distinct, not empty, not in use. *)
Definition fresh (m : list (string * Node)) (supply : list (string * Z)) : Prop :=
  NoDup supply.*1 /\
  Forall (fun x => Map_get (fst x) m = None /\ fst x <> "") supply.

(** What keeps the map well-formed: [generateId()] hands out ids that are
    not in use and not empty, and [updateNode] is not given an [id]. *)
Definition ids_ok (st : Store) (c : Call) : Prop :=
  match c with
  | call_createNode _ newId _ => Map_get newId (nodes st) = None /\ newId <> ""
  | call_updateNode _ updates _ => u_id updates = None
  | call_duplicateNode _ supply => fresh (nodes st) supply
  | _ => True
  end.

(** Besides, [updateNode] is not given a [parentId]. *)
Definition parent_kept (st : Store) (c : Call) : Prop :=
  ids_ok st c /\
  match c with
  | call_updateNode _ updates _ => u_parentId updates = None
  | _ => True
  end.

(** Besides, [selectNode] names no node or a node of the map, and
    [updateContent] carries no [nodeId]. *)
Definition selection_kept (st : Store) (c : Call) : Prop :=
  ids_ok st c /\
  match c with
  | call_selectNode (Some s) _ => Map_get s (nodes st) <> None
  | call_updateContent updates _ => c_nodeId updates = None
  | _ => True
  end.

(** The root list holds the ids of the nodes without a parent, once each. *)
Definition roots_ok (st : Store) : Prop :=
  NoDup (rootNodes st) /\
  forall k, k ∈ rootNodes st <->
            exists n, Map_get k (nodes st) = Some n /\ truthy (parentId n) = false.

(** The selection names a node of the map, the current content is the
    selected node's, and every content record sits under its [nodeId], which
    is the id of a node of the map. *)
Definition attached (st : Store) : Prop :=
  (forall s, selectedNodeId st = Some s -> Map_get s (nodes st) <> None) /\
  (forall c, currentContent st = Some c -> selectedNodeId st = Some (nodeId c)) /\
  (forall k c, contentStore (db st) !! k = Some c ->
     nodeId c = k /\ Map_get k (nodes st) <> None).

(** The root list [moveNode] starts from, the moved id taken out. *)
Definition rootsWithout (st : Store) (i : string) (node : Node) : list string :=
  if truthy (parentId node) then rootNodes st
  else filter (fun r => r <> i) (rootNodes st).

(** The content record [createNode] saves for a leaf. *)
Definition createdContent (args : CreateArgs) (newId : string) (now : Z) : Content :=
  mkContent newId
    (if truthy (a_icon args) then default "" (a_icon args)
     else getDefaultIcon (a_template args))
    ""
    (if truthy (a_template args) then getTemplateFields (default "" (a_template args))
     else [])
    [] [] now.

(** The store after the content of [i] has been copied, if [node] is a leaf. *)
Definition copied (st : Store) (node : Node) (i newId : string) (now : Z) : Store :=
  match type node with
  | leaf => copyContent st i newId now
  | folder => st
  end.

(** The supply a completion hands on. *)
Definition leftover (c : Completion (list (string * Z))) : list (string * Z) :=
  match c with
  | Returned rest _ => rest
  | Thrown _ _ => []
  end.

(** [ancestry m cur l]: [l] lists [cur] and the nodes above it, the topmost
    first and [cur] last; nothing when there is no [cur]. *)
Inductive ancestry (m : list (string * Node)) : option Node -> list Node -> Prop :=
  | ancestry_none : ancestry m None []
  | ancestry_step c l : ancestry m (parentNode m c) l -> ancestry m (Some c) (l ++ [c]).

(** Every node of the map has a name of ASCII characters only. *)
Definition ascii_names (m : list (string * Node)) : Prop :=
  Forall (fun kv => is_ascii (name (snd kv)) = true) m.

(** The step of the loop of [buildSearchIndex]. *)
Definition indexStep (fuel : nat) (m : list (string * Node))
    (acc : option (list (string * Indexed))) (n : Node)
    : option (list (string * Indexed)) :=
  match acc with
  | None => None
  | Some idx =>
      match getNodePath fuel m (id n) with
      | None => None
      | Some path => Some (Map_set (id n) (indexEntry n path) idx)
      end
  end.

(** What the renumbering loop of [reorderNode] leaves of the sibling at
    index [j]. *)
Definition renumbered (now : Z) (j : nat) (s : Node) : Node :=
  if decide (orderIndex s = Z.of_nat j) then s
  else mkNode (id s) (parentId s) (type s) (name s) (Z.of_nat j) (active s)
         (createdAt s) now.

Fixpoint renumberedFrom (now : Z) (j : nat) (l : list Node) : list Node :=
  match l with
  | [] => []
  | s :: r => renumbered now j s :: renumberedFrom now (S j) r
  end.

(** The index at which [splice(start, 0, x)] puts [x] in an array of [len]
    elements. *)
Definition splicePos (start : Z) (len : nat) : nat :=
  Z.to_nat
    (if (start <? 0)%Z then Z.max (Z.of_nat len + start) 0
     else Z.min start (Z.of_nat len)).

(** The root list is in the order of the [orderIndex] of the nodes it
    names. *)
Definition roots_sorted (st : Store) : Prop :=
  StronglySorted
    (fun a b => forall na nb, getNode st a = Some na -> getNode st b = Some nb ->
                              (orderIndex na <= orderIndex nb)%Z)
    (rootNodes st).

(** A store that has not been initialised, on the database of [vault]. *)
Definition coldStore : Store := set_db (db vault) emptyStore.

(** [grown st st' K]: [st'] is [st] with nodes appended under the keys [K];
    outside [K] the two object stores are as they were, and so are the
    selection and the current content. *)
Definition grown (st st' : Store) (K : list string) : Prop :=
  (exists added, nodes st' = nodes st ++ added /\ Map_keys added = K) /\
  (forall k, k ∉ K ->
     nodeStore (db st') !! k = nodeStore (db st) !! k /\
     contentStore (db st') !! k = contentStore (db st) !! k) /\
  selectedNodeId st' = selectedNodeId st /\ currentContent st' = currentContent st.

(** No node of [m] names an id of [supply] as its parent. *)
Definition unreferenced (m : list (string * Node)) (supply : list (string * Z)) : Prop :=
  forall k n x, Map_get k m = Some n -> x ∈ supply -> parentId n <> Some (fst x).

(** How a run of copies ends: it returns, having taken [used] from
    [supply]; the store has grown by nodes under the ids of [used], each of
    which has [root] above it; the root list is as it was. *)
Definition duplicated (st : Store) (root : string) (supply used : list (string * Z))
    (c : Completion (list (string * Z))) : Prop :=
  supply = used ++ leftover c /\
  c = Returned (leftover c) (final c) /\
  wf (nodes (final c)) /\
  fresh (nodes (final c)) (leftover c) /\
  grown st (final c) used.*1 /\
  rootNodes (final c) = rootNodes st /\
  (forall k, k ∈ used.*1 -> rtc (parent_step (nodes (final c))) k root) /\
  (forall k n, k ∈ used.*1 -> Map_get k (nodes (final c)) = Some n ->
     exists p, parentId n = Some p /\ (p = root \/ p ∈ used.*1)) /\
  (acyclic (nodes st) -> unreferenced (nodes st) supply ->
   acyclic (nodes (final c)) /\ unreferenced (nodes (final c)) (leftover c)).

(** What [duplicateNode] writes for the copy of [node], and the content it
    saves for the copy of a leaf. *)
Definition copyOf (st : Store) (node : Node) (newId : string) (now : Z) : Node :=
  mkNode newId (parentId node) (type node) (String.append (name node) " (Copy)")
    (Z.of_nat (length (getChildren (nodes st) (parentId node)))) false now now.

Definition copiedContent (c : Content) (newId : string) : Content :=
  mkContent newId (icon c) (markdown c) (fields c) (tags c) (links c)
    (contentUpdatedAt c).

(** Ids for the copies made in the examples, and [twoFolders] after
    [duplicateNode("p")]. *)
Definition copyIds : list (string * Z) :=
  [("c1", 100%Z); ("c2", 101%Z); ("c3", 102%Z); ("c4", 103%Z); ("c5", 104%Z)].

Definition duplicatedP : Completion (option Node) :=
  default (Returned None twoFolders) (duplicateNode 16 twoFolders "p" copyIds).

(** What [deleteNode] may do to the root list and to the selection: ids
    that are no longer in the map are taken out of the root list, and the
    selection is cleared only if the selected id is no longer in the map. *)
Definition removals (a b : Store) : Prop :=
  (forall k n, Map_get k (nodes b) = Some n -> Map_get k (nodes a) = Some n) /\
  (exists gone : list string,
     rootNodes b = filter (fun r => r ∉ gone) (rootNodes a) /\
     forall g, g ∈ gone -> Map_get g (nodes b) = None) /\
  ((selectedNodeId b = selectedNodeId a /\ currentContent b = currentContent a) \/
   exists s, selectedNodeId a = Some s /\ Map_get s (nodes b) = None).

(** The copy of [p] in [duplicatedP], and the store after the copy has been
    deleted again. *)
Definition copyOfP : Node := mkNode "c1" None folder "P (Copy)" 2 false 100 100.

Definition duplicatedThenDeleted : Store :=
  default twoFolders (deleteNode 16 (final duplicatedP) (id copyOfP)).

(** [extends m0 T st]: the map of [st] is [m0] with nodes appended, none of
    which has [T] or a node below [T] in [m0] as parent. *)
Definition extends (m0 : list (string * Node)) (T : string) (st : Store) : Prop :=
  exists added,
    nodes st = m0 ++ added /\
    forall n x, n ∈ Map_values added -> parentId n = Some x ->
                ~ rtc (parent_step m0) x T.

(** [run] returns on every store that extends [m0], given [D] levels of
    fuel above a bound [B] on the size the map may reach and [U] ids, of
    which it uses no more. *)
Definition returns_within (m0 : list (string * Node)) (T : string)
    (run : nat -> Store -> string -> list (string * Z) ->
           option (Completion (list (string * Z))))
    (D U : nat) : Prop :=
  forall st np supply fuel B,
    wf (nodes st) -> acyclic (nodes st) ->
    fresh (nodes st) supply -> unreferenced (nodes st) supply ->
    extends m0 T st ->
    Map_get np (nodes st) <> None -> Map_get np m0 = None ->
    D + B <= fuel -> U <= length supply -> length (nodes st) + U <= B ->
    exists c, run fuel st np supply = Some c /\
              length supply <= length (leftover c) + U.

(** ** The event emitter (store.js)

    [listeners] maps an event name to the array of its callbacks.
    Callbacks are compared by identity; [emit] yields the calls it makes, in
    order.  Event names are own properties of the object. *)
Module EventEmitter.
Section Emitter.
Context {C D : Type} `{EqDecision C}.



Definition emit (event : string) (data : D) (listeners : gmap string (list C))
    : list (C * D) :=
  match listeners !! event with
  | Some l => (fun callback => (callback, data)) <$> l
  | None => []
  end.
End Emitter.
End EventEmitter.

(** ** The editor's [detectTemplate] and the page's [handleSelect] *)

(** The table [templates] of [detectTemplate]. *)
Definition templateMarkers : list (string * list string) :=
  [("npc", ["Role"; "Species"; "Alignment"]);
   ("location", ["Type"; "Region"; "Climate"]);
   ("item", ["Type"; "Rarity"; "Attunement"]);
   ("quest", ["Status"; "Level"; "Giver"]);
   ("monster", ["CR"; "AC"; "HP"]);
   ("faction", ["Type"; "Alignment"; "Leader"])].

(** The loop over [Object.entries(templates)]. *)
Fixpoint firstMatch (fieldKeys : list string) (templates : list (string * list string))
    : string :=
  match templates with
  | [] => ""
  | (template, templateFields) :: r =>
      if (2 <=? length (filter (fun f => f ∈ fieldKeys) templateFields))%nat
      then template
      else firstMatch fieldKeys r
  end.

(** [detectTemplate(fields)]; [None] is a missing [fields]. *)
Definition detectTemplate (fields : option (list (string * string))) : string :=
  match fields with
  | None => ""
  | Some fs =>
      if (length fs.*1 =? 0)%nat then ""
      else firstMatch fs.*1 templateMarkers
  end.

(** The templates the dialogue offers: none, the empty string, or one of the
    six of the tables. *)
Definition offered_template (template : option string) : Prop :=
  truthy template = false \/ default "" template ∈ templateMarkers.*1.

(** The argument object [handleSelect] hands to [createNode]. *)
Definition newNoteArgs (parentId template : option string) : CreateArgs :=
  mkCreateArgs "New Note" leaf parentId template None false.

(** [handleSelect(template)] of [showTemplateModal(parentId)], as far as the
    store is concerned. *)
Definition handleSelect (fuel : nat) (st : Store) (parentId : option string)
    (template : option string) (newId : string) (now : Z) : option Store :=
  match
    createNode fuel st
      (newNoteArgs parentId (if truthy template then template else None)) newId now
  with
  | None => None
  | Some (node, st1) =>
      let st2 :=
        match parentId with
        | Some p =>
            if truthy_string p
            then set_expandedNodes ({[p]} ∪ expandedNodes st1) st1
            else st1
        | None => st1
        end in
      Some (selectNode st2 (Some (id node)) now)
  end.

(** A note made from the template dialogue under [p] of [twoFolders]. *)
Definition openedNote : Store :=
  default twoFolders (handleSelect 16 twoFolders (Some "p") (Some "npc") "n1" 50).

(** ** Exporting a subtree (tree.js)

    The object [{ node, content, children }] that [collectSubtree] builds. *)
#[local] Unset Elimination Schemes.
Inductive Subtree :=
  mkSubtree (node : Node) (content : option Content) (children : list Subtree).
#[local] Set Elimination Schemes.

Definition s_node (t : Subtree) : Node :=
  match t with mkSubtree n _ _ => n end.
Definition s_content (t : Subtree) : option Content :=
  match t with mkSubtree _ c _ => c end.
Definition s_children (t : Subtree) : list Subtree :=
  match t with mkSubtree _ _ ts => ts end.

(** The body of [for (const child of children)] in [collectSubtree]; [inl] is
    a thrown error. *)
Definition collectStep (collect : string -> option (string + Subtree))
    (acc : option (string + list Subtree)) (child : Node)
    : option (string + list Subtree) :=
  match acc with
  | Some (inr ts) =>
      match collect (id child) with
      | Some (inr t) => Some (inr (ts ++ [t]))
      | Some (inl e) => Some (inl e)
      | None => None
      end
  | other => other
  end.

(** [collectSubtree(id)] of [exportSubtree]; one unit of fuel per level of
    recursion, [None] when it runs out. *)
Fixpoint collectSubtree (fuel : nat) (st : Store) (i : string) (now : Z)
    : option (string + Subtree) :=
  match getNode st i with
  | None => Some (inl TypeError)
  | Some node =>
      match fuel with
      | O => None
      | S f =>
          let content :=
            match type node with
            | leaf => Some (db_getContent i now (db st))
            | folder => None
            end in
          let children := getChildren (nodes st) (Some i) in
          match
            foldl (collectStep (fun c => collectSubtree f st c now)) (Some (inr []))
              children
          with
          | Some (inr ts) => Some (inr (mkSubtree node content ts))
          | Some (inl e) => Some (inl e)
          | None => None
          end
      end
  end.

(** The objects of a subtree, the root first. *)
Fixpoint subtrees (t : Subtree) : list Subtree :=
  match t with
  | mkSubtree _ _ ts => t :: flat_map subtrees ts
  end.

(** What an object of the export of [st] holds. *)
Definition exported (st : Store) (now : Z) (t : Subtree) : Prop :=
  Map_get (id (s_node t)) (nodes st) = Some (s_node t) /\
  s_content t
  = match type (s_node t) with
    | leaf => Some (db_getContent (id (s_node t)) now (db st))
    | folder => None
    end /\
  s_node <$> s_children t = getChildren (nodes st) (Some (id (s_node t))).

(** The export of the folder [p] of [twoFolders]. *)
Definition exportedP : Subtree :=
  match collectSubtree 16 twoFolders "p" 40 with
  | Some (inr t) => t
  | _ => mkSubtree (mkNode "" None folder "" 0 false 0 0) None []
  end.

Definition twoFoldersWithoutP : Store := default twoFolders (deleteNode 16 twoFolders "p").

(** ** Saving from the editor, and the recent notes of the palette *)

(** The objects [{ name: title }] and [{ icon, markdown, fields }]. *)
Definition renameUpdate (title : string) : NodeUpdates :=
  mkNodeUpdates None None None (Some title) None None None.

Definition editedContent (icon markdown : string) (fields : list (string * string))
    : ContentUpdates :=
  mkContentUpdates None (Some icon) (Some markdown) (Some fields) None None.

(** [const title = ....value.trim() || node.name] *)
Definition titleOr (titleInput : string) (node : Node) : string :=
  if truthy_string (trim titleInput) then trim titleInput else name node.

(** [save()] of the editor; [thisNodeId] is the node the editor shows, the
    other arguments are what the form holds.  The two times are those of
    [updateNode] and [updateContent]. *)
Definition save (fuel : nat) (st : Store) (thisNodeId : option string)
    (titleInput icon markdown : string) (fields : list (string * string))
    (now1 now2 : Z) : option (Store * list Notice) :=
  if truthy thisNodeId then
    match getNode st (default "" thisNodeId) with
    | None => Some (st, [])
    | Some node =>
        let title := titleOr titleInput node in
        let renamed :=
          if decide (title <> name node)
          then snd <$> updateNode fuel st (default "" thisNodeId) (renameUpdate title) now1
          else Some st in
        match renamed with
        | None => None
        | Some st1 => updateContent fuel st1 (editedContent icon markdown fields) now2
        end
    end
  else Some (st, []).

(** The list [recentNodes] of [showRecentNodes]. *)
Definition recentNodes (st : Store) : list Node :=
  take 10 (sortBy byUpdatedDesc (filter (fun n => type n = leaf) (Map_values (nodes st)))).

(** [showRecentNodes()]: the results it adds, each a node with its path; the
    empty list stands for the message shown when there is no leaf. *)
Definition showRecentNodes (fuel : nat) (st : Store) : option (list (Node * list Node)) :=
  mapM (fun node => (fun path => (node, path)) <$> getNodePath fuel (nodes st) (id node))
    (recentNodes st).

(** The note P1 of [twoFolders] selected, then renamed and edited. *)
Definition selectedP1 : Store := selectNode twoFolders (Some "p1") 30.

Definition savedP1 : Store * list Notice :=
  default (selectedP1, [])
    (save 16 selectedP1 (Some "p1") "  Renamed " "i" "text" [("k", "v")] 31 32).

(** ** Moving a node to the root from the context menu (tree.js) *)

(** The case ['move-to-root'] of [handleContextAction(action, nodeId)]. *)
Definition moveToRoot (fuel : nat) (st : Store) (nodeId : string) (now : Z)
    : option (Completion unit) :=
  match getNode st nodeId with
  | None => Some (Returned tt st)
  | Some node =>
      if truthy (parentId node) then moveNode fuel st nodeId None now
      else Some (Returned tt st)
  end.

(** No root has an [orderIndex] above the number of children of [null]. *)
Definition roots_within (st : Store) : Prop :=
  forall r n, r ∈ rootNodes st -> Map_get r (nodes st) = Some n ->
    (orderIndex n <= Z.of_nat (length (getChildren (nodes st) None)))%Z.

(** The note P1 of [twoFolders] moved to the root. *)
Definition movedToRoot : Store :=
  match moveToRoot 16 twoFolders "p1" 60 with
  | Some c => final c
  | None => twoFolders
  end.




(** * Properties *)

(** ** The map operations *)

Section JsMapFacts.
Context {V : Type}.
Implicit Types (m : list (string * V)) (k : string) (v : V).

Lemma Map_get_set k k' v m :
  Map_get k (Map_set k' v m) = if decide (k = k') then Some v else Map_get k m.
Proof.
  induction m as [|[k0 v0] r IH]; simpl.
  - repeat case_decide; congruence.
  - destruct (decide (k' = k0)); simpl; rewrite ?IH;
      repeat case_decide; congruence.
Qed.

Lemma Map_get_set_eq k v m : Map_get k (Map_set k v m) = Some v.
Proof. rewrite Map_get_set. case_decide; congruence. Qed.

Lemma Map_get_set_ne k k' v m : k <> k' -> Map_get k (Map_set k' v m) = Map_get k m.
Proof. intros H. rewrite Map_get_set. case_decide; congruence. Qed.

Lemma Map_get_delete k k' m :
  Map_get k (Map_delete k' m) = if decide (k = k') then None else Map_get k m.
Proof.
  unfold Map_delete. induction m as [|[k0 v0] r IH]; simpl.
  - case_decide; reflexivity.
  - rewrite filter_cons. simpl. destruct (decide (k0 = k')) as [->|Hne].
    + rewrite decide_False by (intros H; apply H; reflexivity).
      rewrite IH. repeat case_decide; congruence.
    + rewrite decide_True by assumption. simpl.
      rewrite IH. repeat case_decide; congruence.
Qed.

Lemma Map_get_Some_elem k v m : Map_get k m = Some v -> (k, v) ∈ m.
Proof.
  induction m as [|[k0 v0] r IH]; simpl; [discriminate|].
  case_decide.
  - intros [= ->]. subst. left.
  - intros H'. right. auto.
Qed.

Lemma Map_get_Some_key k v m : Map_get k m = Some v -> k ∈ Map_keys m.
Proof.
  intros H. apply Map_get_Some_elem in H. unfold Map_keys.
  apply list_elem_of_fmap. exists (k, v). auto.
Qed.

Lemma Map_get_None_key k m : Map_get k m = None <-> k ∉ Map_keys m.
Proof.
  unfold Map_keys. induction m as [|[k0 v0] r IH]; simpl.
  - split; [intros _; apply not_elem_of_nil | reflexivity].
  - rewrite not_elem_of_cons. case_decide; simpl.
    + split; [discriminate | intros [? _]; congruence].
    + rewrite IH. tauto.
Qed.

Lemma Map_get_elem k v m : NoDup (Map_keys m) -> (k, v) ∈ m -> Map_get k m = Some v.
Proof.
  unfold Map_keys. induction m as [|[k0 v0] r IH]; simpl.
  - intros _ H. inversion H.
  - intros Hnd H. apply NoDup_cons in Hnd as [Hnotin Hnd].
    apply elem_of_cons in H as [[= -> ->]|H].
    + case_decide; congruence.
    + case_decide.
      * subst. exfalso. apply Hnotin. apply list_elem_of_fmap. exists (k0, v). auto.
      * auto.
Qed.

End JsMapFacts.

Section JsMapMore.
Context {V : Type}.
Implicit Types (m : list (string * V)) (k : string) (v : V).

Lemma Map_keys_set_present k v m :
  k ∈ Map_keys m -> Map_keys (Map_set k v m) = Map_keys m.
Proof.
  unfold Map_keys. induction m as [|[k0 v0] r IH]; simpl.
  - intros H. inversion H.
  - intros H. case_decide; simpl; [congruence|].
    apply elem_of_cons in H as [?|H]; [congruence|]. f_equal. auto.
Qed.

Lemma Map_set_absent k v m : k ∉ Map_keys m -> Map_set k v m = m ++ [(k, v)].
Proof.
  unfold Map_keys. induction m as [|[k0 v0] r IH]; simpl; [reflexivity|].
  rewrite not_elem_of_cons. intros [Hne H]. case_decide; [congruence|].
  f_equal. auto.
Qed.

Lemma Map_set_length_present k v m :
  k ∈ Map_keys m -> length (Map_set k v m) = length m.
Proof.
  intros H. apply Map_keys_set_present with (v := v) in H.
  apply (f_equal length) in H. unfold Map_keys in H.
  rewrite !length_fmap in H. exact H.
Qed.

Lemma Map_keys_delete k m : Map_keys (Map_delete k m) = filter (fun x => x <> k) (Map_keys m).
Proof.
  unfold Map_keys, Map_delete. induction m as [|[k0 v0] r IH]; [reflexivity|].
  rewrite fmap_cons, !filter_cons. cbn [fst].
  destruct (decide (k0 <> k)); rewrite ?fmap_cons, IH; reflexivity.
Qed.
End JsMapMore.

(** ** Walks along [parentId] *)

Lemma truthy_string_ne s : truthy_string s = true <-> s <> "".
Proof.
  unfold truthy_string. rewrite negb_true_iff. split.
  - intros H ->. discriminate.
  - intros H. destruct (String.eqb_spec s ""); congruence.
Qed.

Lemma truthy_Some p : truthy p = true <-> exists s, p = Some s /\ s <> "".
Proof.
  destruct p as [s|]; simpl.
  - rewrite truthy_string_ne. split; [eauto|]. intros (s' & [= <-] & H). exact H.
  - split; [discriminate|]. intros (s & H & _). discriminate.
Qed.

Lemma parentNode_Some m n pn :
  parentNode m n = Some pn <->
  exists p, parentId n = Some p /\ p <> "" /\ Map_get p m = Some pn.
Proof.
  unfold parentNode. destruct (parentId n) as [p|].
  - destruct (truthy_string p) eqn:E.
    + apply truthy_string_ne in E. split; [eauto|]. intros (p' & [= <-] & _ & H). exact H.
    + split; [discriminate|]. intros (p' & [= <-] & Hne & _).
      apply truthy_string_ne in Hne. congruence.
  - split; [discriminate|]. intros (p' & H & _). discriminate.
Qed.

Lemma parentNode_step m k n pn :
  Map_get k m = Some n -> parentNode m n = Some pn ->
  exists p, parent_step m k p /\ Map_get p m = Some pn.
Proof.
  intros Hk H. apply parentNode_Some in H as (p & Hp & Hne & Hget).
  exists p. split; [|exact Hget]. exists n. auto.
Qed.

Lemma parent_step_fun m k p q : parent_step m k p -> parent_step m k q -> p = q.
Proof. intros (n & Hn & Hp & _) (n' & Hn' & Hq & _). congruence. Qed.

Lemma parent_step_key m k p : parent_step m k p -> k ∈ Map_keys m.
Proof. intros (n & Hn & _). eapply Map_get_Some_key; eauto. Qed.

Lemma getNodePath_loop_mono fuel fuel' m cur path r :
  getNodePath_loop fuel m cur path = Some r -> fuel <= fuel' ->
  getNodePath_loop fuel' m cur path = Some r.
Proof.
  revert fuel' cur path. induction fuel as [|f IH]; intros fuel' cur path H Hle.
  - destruct cur; [discriminate|]. destruct fuel'; exact H.
  - destruct cur as [c|]; [|destruct fuel'; exact H].
    destruct fuel' as [|f']; [lia|]. simpl in *. apply IH; [exact H|lia].
Qed.

Lemma getNodePath_mono fuel fuel' m i r :
  getNodePath fuel m i = Some r -> fuel <= fuel' -> getNodePath fuel' m i = Some r.
Proof. apply getNodePath_loop_mono. Qed.

Lemma isDescendant_mono fuel fuel' m c a b :
  isDescendant fuel m c a = Some b -> fuel <= fuel' -> isDescendant fuel' m c a = Some b.
Proof.
  revert fuel' c. induction fuel as [|f IH]; intros fuel' c H Hle.
  - destruct fuel'; [exact H|]. destruct c as [p|]; [|exact H]. simpl in *.
    case_decide; [exact H|]. destruct (truthy_string p); [|exact H].
    destruct (Map_get p m); [discriminate|exact H].
  - destruct fuel' as [|f']; [lia|]. destruct c as [p|]; [|exact H]. simpl in *.
    case_decide; [exact H|]. destruct (truthy_string p); [|exact H].
    destruct (Map_get p m); [|exact H]. apply IH; [exact H|lia].
Qed.

(** A walk that has seen [visited] distinct keys has at most
    [length m - length visited] turns left. *)
Lemma visited_bound (m : list (string * Node)) (visited : list string) :
  NoDup visited -> (forall v, v ∈ visited -> v ∈ Map_keys m) ->
  length visited <= length m.
Proof.
  intros Hnd Hin. replace (length m) with (length (Map_keys m)).
  - apply submseteq_length, NoDup_submseteq; assumption.
  - unfold Map_keys. apply length_fmap.
Qed.

Lemma getNodePath_loop_ends m :
  acyclic m ->
  forall fuel visited k path,
    NoDup visited ->
    (forall v, v ∈ visited -> tc (parent_step m) v k) ->
    length m <= length visited + fuel ->
    is_Some (getNodePath_loop fuel m (Map_get k m) path).
Proof.
  intros Hac. induction fuel as [|f IH]; intros visited k path Hnd Hv Hlen.
  - destruct (Map_get k m) as [n|] eqn:Hk; [|simpl; eauto]. exfalso.
    assert (k ∉ visited) by (intros Hin; exact (Hac k (Hv k Hin))).
    assert (length (k :: visited) <= length m).
    { apply visited_bound; [apply NoDup_cons; auto|].
      intros v [->|Hin]%elem_of_cons; [eapply Map_get_Some_key; eauto|].
      apply Hv in Hin. apply tc_rtc in Hin. inversion Hin; subst.
      - eapply Map_get_Some_key; eauto.
      - eapply parent_step_key; eauto. }
    simpl in *. lia.
  - destruct (Map_get k m) as [n|] eqn:Hk; [|simpl; eauto]. simpl.
    destruct (parentNode m n) as [pn|] eqn:Hp; [|destruct f; simpl; eauto].
    destruct (parentNode_step _ _ _ _ Hk Hp) as (p & Hstep & Hget).
    rewrite <- Hget. apply (IH (k :: visited)).
    + apply NoDup_cons. split; [|exact Hnd]. intros Hin. exact (Hac k (Hv k Hin)).
    + intros v [->|Hin]%elem_of_cons; [apply tc_once; exact Hstep|].
      eapply tc_r; [apply Hv; exact Hin | exact Hstep].
    + simpl. lia.
Qed.

Lemma getNodePath_ends m i fuel :
  acyclic m -> length m <= fuel -> is_Some (getNodePath fuel m i).
Proof.
  intros Hac Hle. apply (getNodePath_loop_ends m Hac fuel [] i []).
  - apply NoDup_nil_2.
  - intros v Hin. inversion Hin.
  - simpl. lia.
Qed.

Lemma isDescendant_ends m a :
  acyclic m ->
  forall fuel visited p,
    NoDup visited ->
    (forall v, v ∈ visited -> tc (parent_step m) v p) ->
    length m <= length visited + fuel ->
    is_Some (isDescendant fuel m (Some p) a).
Proof.
  intros Hac. induction fuel as [|f IH]; intros visited p Hnd Hv Hlen.
  - simpl. case_decide; [eauto|]. destruct (truthy_string p); [|eauto].
    destruct (Map_get p m) as [n|] eqn:Hp; [|eauto]. exfalso.
    assert (p ∉ visited) by (intros Hin; exact (Hac p (Hv p Hin))).
    assert (length (p :: visited) <= length m).
    { apply visited_bound; [apply NoDup_cons; auto|].
      intros v [->|Hin]%elem_of_cons; [eapply Map_get_Some_key; eauto|].
      apply Hv in Hin. apply tc_rtc in Hin. inversion Hin; subst.
      - eapply Map_get_Some_key; eauto.
      - eapply parent_step_key; eauto. }
    simpl in *. lia.
  - simpl. case_decide; [eauto|]. destruct (truthy_string p) eqn:Ht; [|eauto].
    destruct (Map_get p m) as [n|] eqn:Hp; [|eauto].
    destruct (parentId n) as [q|] eqn:Hq; [|destruct f; simpl; eauto].
    destruct (decide (q = "")) as [->|Hne].
    { destruct f; simpl; case_decide; eauto. }
    assert (Hstep : parent_step m p q) by (exists n; auto).
    apply (IH (p :: visited)).
    + apply NoDup_cons. split; [|exact Hnd]. intros Hin. exact (Hac p (Hv p Hin)).
    + intros v [->|Hin]%elem_of_cons; [apply tc_once; exact Hstep|].
      eapply tc_r; [apply Hv; exact Hin | exact Hstep].
    + simpl. lia.
Qed.

Lemma isDescendant_total m c a fuel :
  acyclic m -> length m <= fuel -> is_Some (isDescendant fuel m c a).
Proof.
  intros Hac Hle. destruct c as [p|].
  - apply (isDescendant_ends m a Hac fuel [] p).
    + apply NoDup_nil_2.
    + intros v Hin. inversion Hin.
    + simpl. lia.
  - destruct fuel; simpl; eauto.
Qed.

(** On a cycle the walk of [getNodePath] has no last turn. *)
Lemma on_cycle_next m k :
  tc (parent_step m) k k -> exists p, parent_step m k p /\ tc (parent_step m) p p.
Proof.
  intros H. inversion H as [? ? Hs|? p ? Hs Ht]; subst.
  - exists k. split; [exact Hs | exact H].
  - exists p. split; [exact Hs|]. eapply tc_r; eauto.
Qed.

Lemma getNodePath_loop_on_cycle m fuel k path :
  tc (parent_step m) k k -> getNodePath_loop fuel m (Map_get k m) path = None.
Proof.
  revert k path. induction fuel as [|f IH]; intros k path H;
    destruct (on_cycle_next m k H) as (p & (n & Hn & Hp & Hne) & Hc); rewrite Hn.
  - reflexivity.
  - simpl. replace (parentNode m n) with (Map_get p m); [apply IH; exact Hc|].
    unfold parentNode. rewrite Hp.
    apply truthy_string_ne in Hne. rewrite Hne. reflexivity.
Qed.

Lemma getNodePath_on_cycle m fuel k :
  tc (parent_step m) k k -> getNodePath fuel m k = None.
Proof. apply getNodePath_loop_on_cycle. Qed.

Lemma acyclicb_sound m : acyclicb m = true -> acyclic m.
Proof.
  unfold acyclicb. rewrite forallb_forall. intros H k Hc.
  destruct (on_cycle_next m k Hc) as (p & (n & Hn & _) & _).
  apply Map_get_Some_elem, list_elem_of_In in Hn.
  specialize (H _ Hn). apply bool_decide_eq_true in H. simpl in H.
  rewrite (getNodePath_on_cycle m _ k Hc) in H. destruct H; discriminate.
Qed.

Lemma acyclicb_complete m : acyclic m -> acyclicb m = true.
Proof.
  intros H. unfold acyclicb. apply forallb_forall. intros kv _.
  apply bool_decide_eq_true. apply getNodePath_ends; [exact H|lia].
Qed.

(** ** What [isDescendant] decides *)

Lemma wf_no_empty_key m : wf m -> Map_get "" m = None.
Proof.
  intros [_ Hall]. destruct (Map_get "" m) as [n|] eqn:H; [|reflexivity].
  apply Map_get_Some_elem in H. rewrite Forall_forall in Hall.
  destruct (Hall _ H) as [_ Hne]. simpl in Hne. congruence.
Qed.

Lemma wf_key_id m k n : wf m -> Map_get k m = Some n -> id n = k /\ k <> "".
Proof.
  intros [_ Hall] H. apply Map_get_Some_elem in H. rewrite Forall_forall in Hall.
  exact (Hall _ H).
Qed.

Lemma wf_value_get m n : wf m -> n ∈ Map_values m -> Map_get (id n) m = Some n.
Proof.
  intros [Hnd Hall] Hin. unfold Map_values in Hin.
  apply list_elem_of_fmap in Hin as ([k n'] & -> & Hin). simpl.
  rewrite Forall_forall in Hall. destruct (Hall _ Hin) as [Hid _]. simpl in Hid.
  rewrite Hid. apply Map_get_elem; assumption.
Qed.

Lemma isDescendant_reach m a p :
  Map_get "" m = None -> rtc (parent_step m) p a ->
  exists N, forall fuel, N <= fuel -> isDescendant fuel m (Some p) a = Some true.
Proof.
  intros Hempty H. induction H as [x|x y z Hstep Hrtc IH].
  - exists 0. intros fuel _. destruct fuel; simpl; rewrite decide_True; reflexivity.
  - destruct IH as [N IH]. exists (S N). intros fuel Hle.
    destruct fuel as [|f]; [lia|]. simpl. case_decide; [reflexivity|].
    destruct Hstep as (n & Hn & Hp & Hne).
    assert (Hx : truthy_string x = true).
    { apply truthy_string_ne. intros ->. congruence. }
    rewrite Hx, Hn, Hp. apply IH. lia.
Qed.

Lemma isDescendant_false m a fuel p :
  p <> "" -> isDescendant fuel m (Some p) a = Some false -> ~ rtc (parent_step m) p a.
Proof.
  revert p. induction fuel as [|f IH]; intros p Hne H Hr; simpl in H.
  - case_decide as Hpa; [discriminate|].
    apply truthy_string_ne in Hne. rewrite Hne in H.
    inversion Hr as [|? q ? (n & Hn & _)]; subst; [congruence|].
    rewrite Hn in H. discriminate.
  - case_decide as Hpa; [discriminate|].
    apply truthy_string_ne in Hne. rewrite Hne in H.
    inversion Hr as [|? q ? (n & Hn & Hq & Hqne) Hr']; subst; [congruence|].
    rewrite Hn, Hq in H. exact (IH q Hqne H Hr').
Qed.

(** ** The index can be rebuilt on an acyclic store *)

Lemma buildSearchIndex_total m fuel :
  acyclic m -> length m <= fuel -> is_Some (buildSearchIndex fuel m).
Proof.
  intros Hac Hle. unfold buildSearchIndex.
  generalize (@nil (string * Indexed)) as acc. generalize (Map_values m) as l.
  induction l as [|n l IH]; intros acc; simpl; [eauto|].
  destruct (getNodePath_ends m (id n) fuel Hac Hle) as [path ->]. apply IH.
Qed.

Lemma rebuildIndex_total st fuel :
  acyclic (nodes st) -> length (nodes st) <= fuel ->
  exists idx, rebuildIndex fuel st = Some (set_searchIndex idx st).
Proof.
  intros Hac Hle. unfold rebuildIndex.
  destruct (buildSearchIndex_total _ _ Hac Hle) as [idx ->]. eauto.
Qed.

Lemma rebuildIndex_Some st fuel st' :
  rebuildIndex fuel st = Some st' -> exists idx, st' = set_searchIndex idx st.
Proof.
  unfold rebuildIndex. destruct (buildSearchIndex fuel (nodes st)); [|discriminate].
  intros [= <-]. eauto.
Qed.

(** ** Moving a node *)

Lemma moveNode_nodes fuel st i p now c node :
  Map_get i (nodes st) = Some node -> moveNode fuel st i p now = Some c ->
  (c = Thrown CycleError st /\ isDescendant fuel (nodes st) p i = Some true) \/
  (isDescendant fuel (nodes st) p i = Some false /\
   nodes (final c) = Map_set i (movedNode node (nodes st) p now) (nodes st) /\
   db (final c) = db_saveNode (movedNode node (nodes st) p now) (db st) /\
   selectedNodeId (final c) = selectedNodeId st /\
   (forall v, c = Returned v (final c))
   \/ isDescendant fuel (nodes st) p i = Some false /\
   nodes (final c) = Map_set i (movedNode node (nodes st) p now) (nodes st) /\
   c = Thrown TypeError (final c)).
Proof.
  intros Hn. unfold moveNode. rewrite Hn.
  destruct (isDescendant fuel (nodes st) p i) as [[|]|]; [|..].
  - intros [= <-]. left. auto.
  - fold (movedNode node (nodes st) p now).
    set (upd := movedNode node (nodes st) p now).
    intros H. right.
    destruct (truthy p).
    + match type of H with context [rebuildIndex ?f ?s] =>
        destruct (rebuildIndex f s) as [st5|] eqn:E; [|discriminate] end.
      apply rebuildIndex_Some in E as [idx ->]. injection H as <-. left.
      repeat split; try reflexivity; destruct (truthy (parentId node)); try reflexivity.
      all: intros []; reflexivity.
    + match type of H with context [sortRootNodes ?a ?b] =>
        destruct (sortRootNodes a b) as [sorted|] eqn:Es end.
      * match type of H with context [rebuildIndex ?f ?s] =>
          destruct (rebuildIndex f s) as [st5|] eqn:E; [|discriminate] end.
        apply rebuildIndex_Some in E as [idx ->]. injection H as <-. left.
        repeat split; try reflexivity; destruct (truthy (parentId node)); try reflexivity.
        all: intros []; reflexivity.
      * injection H as <-. right.
        repeat split; destruct (truthy (parentId node)); reflexivity.
  - discriminate.
Qed.

(** Giving the node under [i] a new parent keeps the store acyclic as long
    as [i] is not reachable from that parent. *)

Lemma reparent_step_other m i upd x z :
  x <> i -> parent_step (Map_set i upd m) x z -> parent_step m x z.
Proof.
  intros Hne (n & Hn & Hp). rewrite Map_get_set_ne in Hn by exact Hne.
  exists n. auto.
Qed.

Lemma reparent_rtc_to m i upd x y :
  rtc (parent_step (Map_set i upd m)) x y -> y = i -> rtc (parent_step m) x y.
Proof.
  intros H Hy. induction H as [x|x z w Hs Hr IH].
  - apply rtc_refl.
  - destruct (decide (x = i)) as [->|Hne]; [subst w; apply rtc_refl|].
    eapply rtc_l; [|exact (IH Hy)]. eapply reparent_step_other; eassumption.
Qed.

Lemma reparent_rtc_back m i upd x :
  rtc (parent_step (Map_set i upd m)) x i -> rtc (parent_step m) x i.
Proof. intros H. eapply reparent_rtc_to; eauto. Qed.

Lemma reparent_tc_split m i upd x y :
  tc (parent_step (Map_set i upd m)) x y ->
  tc (parent_step m) x y \/
  (rtc (parent_step (Map_set i upd m)) x i /\ tc (parent_step (Map_set i upd m)) i y).
Proof.
  intros H. induction H as [x y Hs|x z y Hs Ht IH].
  - destruct (decide (x = i)) as [->|Hne].
    + right. split; [apply rtc_refl | apply tc_once; exact Hs].
    + left. apply tc_once. eapply reparent_step_other; eassumption.
  - destruct (decide (x = i)) as [->|Hne].
    + right. split; [apply rtc_refl | eapply tc_l; eauto].
    + destruct IH as [IH|[Hr Hc]].
      * left. eapply tc_l; [eapply reparent_step_other; eassumption | exact IH].
      * right. split; [eapply rtc_l; eauto | exact Hc].
Qed.

Lemma reparent_acyclic m i upd :
  acyclic m ->
  (forall s, parentId upd = Some s -> s <> "" -> ~ rtc (parent_step m) s i) ->
  acyclic (Map_set i upd m).
Proof.
  intros Hac Hfree k Hk.
  assert (Hi : tc (parent_step (Map_set i upd m)) i i).
  { destruct (reparent_tc_split _ _ _ _ _ Hk) as [H|[Hr Hc]]; [destruct (Hac k H)|].
    eapply tc_rtc_r; eauto. }
  assert (Hown : forall s, parent_step (Map_set i upd m) i s ->
                           parentId upd = Some s /\ s <> "").
  { intros s (n & Hn & Hp & Hne). rewrite Map_get_set_eq in Hn.
    injection Hn as <-. auto. }
  inversion Hi as [? ? Hs1|? s1 ? Hs1 Ht1]; subst.
  - destruct (Hown _ Hs1) as [Hp Hne]. apply (Hfree i Hp Hne). apply rtc_refl.
  - destruct (Hown _ Hs1) as [Hp Hne]. apply (Hfree s1 Hp Hne).
    eapply reparent_rtc_back. apply tc_rtc. exact Ht1.
Qed.

Lemma moveNode_acyclic fuel st i p now c :
  acyclic (nodes st) -> moveNode fuel st i p now = Some c -> acyclic (nodes (final c)).
Proof.
  intros Hac H. destruct (Map_get i (nodes st)) as [node|] eqn:Hn.
  - destruct (moveNode_nodes _ _ _ _ _ _ _ Hn H)
      as [[-> _]|[(Hd & -> & _)|(Hd & -> & _)]]; [exact Hac|..];
      (apply reparent_acyclic; [exact Hac|]; simpl; intros s -> Hne;
       eapply isDescendant_false; eauto).
  - unfold moveNode in H. rewrite Hn in H. injection H as <-. exact Hac.
Qed.

Lemma moveNode_length fuel st i p now c :
  moveNode fuel st i p now = Some c -> length (nodes (final c)) = length (nodes st).
Proof.
  intros H. destruct (Map_get i (nodes st)) as [node|] eqn:Hn.
  - destruct (moveNode_nodes _ _ _ _ _ _ _ Hn H)
      as [[-> _]|[(Hd & -> & _)|(Hd & -> & _)]]; [reflexivity|..];
      apply Map_set_length_present; eapply Map_get_Some_key; eauto.
  - unfold moveNode in H. rewrite Hn in H. injection H as <-. reflexivity.
Qed.

Lemma moveNode_total fuel st i p now :
  acyclic (nodes st) -> length (nodes st) <= fuel -> is_Some (moveNode fuel st i p now).
Proof.
  intros Hac Hle. unfold moveNode.
  destruct (Map_get i (nodes st)) as [node|] eqn:Hn; [|eauto].
  destruct (isDescendant_total (nodes st) p i fuel Hac Hle) as [[|] Hd]; rewrite Hd; [eauto|].
  fold (movedNode node (nodes st) p now). set (upd := movedNode node (nodes st) p now).
  assert (Hac' : acyclic (Map_set i upd (nodes st))).
  { apply reparent_acyclic; [exact Hac|]. simpl. intros s -> Hne.
    eapply isDescendant_false; eauto. }
  assert (Hlen : length (Map_set i upd (nodes st)) <= fuel).
  { rewrite Map_set_length_present; [exact Hle|]. eapply Map_get_Some_key; eauto. }
  destruct (truthy p).
  - match goal with |- context [rebuildIndex ?f ?s] =>
      destruct (rebuildIndex_total s f) as [idx ->] end; eauto;
      destruct (truthy (parentId node)); assumption.
  - match goal with |- context [sortRootNodes ?a ?b] =>
      destruct (sortRootNodes a b) as [sorted|] end; [|eauto].
    match goal with |- context [rebuildIndex ?f ?s] =>
      destruct (rebuildIndex_total s f) as [idx ->] end; eauto;
      destruct (truthy (parentId node)); assumption.
Qed.

Lemma moveAll_acyclic fuel calls st st' :
  acyclic (nodes st) -> moveAll fuel st calls = Some st' -> acyclic (nodes st').
Proof.
  revert st. induction calls as [|[[i p] now] r IH]; intros st Hac H; simpl in H.
  - injection H as <-. exact Hac.
  - destruct (moveNode fuel st i p now) as [c|] eqn:E; [|discriminate].
    eapply IH; [|exact H]. eapply moveNode_acyclic; eauto.
Qed.

Lemma moveAll_total fuel calls st :
  acyclic (nodes st) -> length (nodes st) <= fuel -> is_Some (moveAll fuel st calls).
Proof.
  revert st. induction calls as [|[[i p] now] r IH]; intros st Hac Hle; simpl; [eauto|].
  destruct (moveNode_total fuel st i p now Hac Hle) as [c E]. rewrite E.
  apply IH; [eapply moveNode_acyclic; eauto|].
  erewrite moveNode_length; eauto.
Qed.

(** ** Statements about the walks and about [moveNode] *)

Lemma tc_parent_step_target m x y : tc (parent_step m) x y -> y <> "".
Proof.
  intros H. induction H as [x y (n & _ & _ & Hne)|x z y _ _ IH]; assumption.
Qed.

Lemma isDescendant_on_cycle m a fuel k :
  tc (parent_step m) k k -> ~ rtc (parent_step m) k a ->
  isDescendant fuel m (Some k) a = None.
Proof.
  revert k. induction fuel as [|f IH]; intros k Hc Hr;
    destruct (on_cycle_next m k Hc) as (p & (n & Hn & Hp & Hne) & Hcp);
    pose proof (tc_parent_step_target _ _ _ Hc) as Hk;
    apply truthy_string_ne in Hk; simpl;
    (rewrite decide_False by (intros ->; apply Hr, rtc_refl)); rewrite Hk, Hn.
  - reflexivity.
  - rewrite Hp. apply IH; [exact Hcp|]. intros Hr'. apply Hr.
    eapply rtc_l; [|exact Hr']. exists n. auto.
Qed.

(** C10. On a store whose parent links are acyclic, [getNodePath] and
    [isDescendant] return: [length m] turns are enough, whatever the
    arguments.  Neither walk keeps a visited set or a depth bound: started on
    a cycle, [getNodePath] never returns, and [isDescendant] never returns
    unless the ancestor looked for is on its way. *)
Theorem walks_terminate_iff_acyclic (m : list (string * Node)) :
  (acyclic m ->
   (forall i, exists path, forall fuel, length m <= fuel ->
      getNodePath fuel m i = Some path) /\
   (forall c a, exists b, forall fuel, length m <= fuel ->
      isDescendant fuel m c a = Some b)) /\
  (forall k, tc (parent_step m) k k ->
   (forall fuel, getNodePath fuel m k = None) /\
   (forall a fuel, ~ rtc (parent_step m) k a -> isDescendant fuel m (Some k) a = None)).
Proof.
  split.
  - intros Hac. split.
    + intros i. destruct (getNodePath_ends m i (length m) Hac) as [path Hp]; [lia|].
      exists path. intros fuel Hle. eapply getNodePath_mono; eauto.
    + intros c a. destruct (isDescendant_total m c a (length m) Hac) as [b Hb]; [lia|].
      exists b. intros fuel Hle. eapply isDescendant_mono; eauto.
  - intros k Hc. split.
    + intros fuel. apply getNodePath_on_cycle. exact Hc.
    + intros a fuel Hr. apply isDescendant_on_cycle; assumption.
Qed.

Lemma twoFolders_acyclic : acyclic (nodes twoFolders).
Proof. apply acyclicb_sound. vm_compute. reflexivity. Qed.

Lemma twoFolders_wf : wf (nodes twoFolders).
Proof. apply (bool_decide_unpack _). vm_compute. reflexivity. Qed.

Lemma walks_terminate_iff_acyclic_witness :
  (exists path, forall fuel, length (nodes twoFolders) <= fuel ->
     getNodePath fuel (nodes twoFolders) "x" = Some path) /\
  (exists b, forall fuel, length (nodes twoFolders) <= fuel ->
     isDescendant fuel (nodes twoFolders) (Some "x") "p" = Some b) /\
  (forall fuel, getNodePath fuel (nodes loopStore) "a" = None).
Proof.
  destruct (walks_terminate_iff_acyclic (nodes twoFolders)) as [Hterm _].
  destruct (Hterm twoFolders_acyclic) as [Hpath Hdesc].
  split; [apply Hpath|]. split; [apply Hdesc|].
  destruct (walks_terminate_iff_acyclic (nodes loopStore)) as [_ Hloop].
  apply (Hloop "a").
  eapply tc_l; [|apply tc_once].
  - exists (mkNode "a" (Some "b") folder "A" 0 false 0 0). repeat split. discriminate.
  - exists (mkNode "b" (Some "a") folder "B" 0 false 0 0). repeat split. discriminate.
Defined.

(** C8. On an id the node map does not hold, [updateNode] returns [null] and
    [deleteNode] and [moveNode] return without an error; the store (node map,
    root list, selection) and the database are the ones before the call. *)
Theorem unknown_id_is_noop (fuel : nat) (st : Store) (i : string)
    (updates : NodeUpdates) (p : option string) (now : Z) :
  Map_get i (nodes st) = None ->
  updateNode fuel st i updates now = Some (None, st) /\
  deleteNode fuel st i = Some st /\
  moveNode fuel st i p now = Some (Returned tt st).
Proof.
  intros H. unfold updateNode, moveNode. repeat split.
  - rewrite H. reflexivity.
  - destruct fuel; simpl; rewrite H; reflexivity.
  - rewrite H. reflexivity.
Qed.

Lemma unknown_id_is_noop_witness :
  updateNode 0 twoFolders "ghost" (mkNodeUpdates None None None (Some "G") None None None) 9
    = Some (None, twoFolders) /\
  deleteNode 0 twoFolders "ghost" = Some twoFolders /\
  moveNode 0 twoFolders "ghost" (Some "p") 9 = Some (Returned tt twoFolders).
Proof. apply unknown_id_is_noop. vm_compute. reflexivity. Defined.

(** C1, as the code has it. In a well-formed store, for a node [a] the map
    holds and a new parent [p] that is [a] itself or has [a] among its
    ancestors, [moveNode(a, p)] throws the cycle error and hands back the
    store it was given: node map, root list and database untouched.  A run of
    [moveNode] calls started on an acyclic store returns, and the store it
    ends in is acyclic: no node is reachable from itself along [parentId]. *)
Theorem moveNode_rejects_cycles :
  (forall st a p now node,
     wf (nodes st) -> Map_get a (nodes st) = Some node ->
     rtc (parent_step (nodes st)) p a ->
     exists N, forall fuel, N <= fuel ->
       moveNode fuel st a (Some p) now = Some (Thrown CycleError st)) /\
  (forall st calls fuel,
     acyclic (nodes st) -> length (nodes st) <= fuel ->
     exists st', moveAll fuel st calls = Some st' /\ acyclic (nodes st')) /\
  (forall st calls fuel st',
     acyclic (nodes st) -> moveAll fuel st calls = Some st' -> acyclic (nodes st')).
Proof.
  split; [|split].
  - intros st a p now node Hwf Hn Hr.
    destruct (isDescendant_reach (nodes st) a p (wf_no_empty_key _ Hwf) Hr) as [N HN].
    exists N. intros fuel Hle. unfold moveNode. rewrite Hn, (HN fuel Hle). reflexivity.
  - intros st calls fuel Hac Hle.
    destruct (moveAll_total fuel calls st Hac Hle) as [st' H].
    exists st'. split; [exact H|]. eapply moveAll_acyclic; eauto.
  - intros st calls fuel st' Hac H. eapply moveAll_acyclic; eauto.
Qed.

Lemma moveNode_rejects_cycles_witness :
  (exists N, forall fuel, N <= fuel ->
     moveNode fuel twoFolders "p" (Some "x") 9 = Some (Thrown CycleError twoFolders)) /\
  (exists st', moveAll 7 twoFolders [("x", Some "q", 8%Z); ("q", Some "x", 9%Z)] = Some st' /\
               acyclic (nodes st')).
Proof.
  destruct moveNode_rejects_cycles as (Hcycle & Hrun & _). split.
  - apply (Hcycle twoFolders "p" "x" 9%Z (mkNode "p" None folder "P" 0 false 1 1)).
    + exact twoFolders_wf.
    + vm_compute. reflexivity.
    + eapply rtc_l; [|apply rtc_refl].
      exists (mkNode "x" (Some "p") folder "X" 2 false 5 5).
      split; [vm_compute; reflexivity|]. split; [reflexivity|discriminate].
  - apply Hrun; [exact twoFolders_acyclic|]. vm_compute. lia.
Defined.

(** The statement of C1 does not hold for an id the map does not hold:
    [moveNode("ghost", "ghost")] returns and throws nothing. *)
Lemma moveNode_unknown_self_returns :
  moveNode 16 twoFolders "ghost" (Some "ghost") 9 = Some (Returned tt twoFolders) /\
  moveNode 16 twoFolders "ghost" (Some "ghost") 9 <> Some (Thrown CycleError twoFolders).
Proof. split; [vm_compute; reflexivity | vm_compute; discriminate]. Qed.

(** ** The stable sort *)

Section SortFacts.
Context {A : Type} (le : A -> A -> bool).

Lemma sort_insert_perm x l : sort_insert le x l ≡ₚ x :: l.
Proof.
  induction l as [|y r IH]; simpl; [reflexivity|].
  destruct (le x y); [reflexivity|]. rewrite IH. apply Permutation_swap.
Qed.

Lemma sortBy_perm l : sortBy le l ≡ₚ l.
Proof.
  induction l as [|x r IH]; simpl; [reflexivity|].
  rewrite sort_insert_perm, IH. reflexivity.
Qed.

Lemma elem_of_sortBy x l : x ∈ sortBy le l <-> x ∈ l.
Proof. rewrite (sortBy_perm l). reflexivity. Qed.

Lemma length_sortBy l : length (sortBy le l) = length l.
Proof. rewrite (sortBy_perm l). reflexivity. Qed.

Hypothesis le_total : forall a b, le a b = true \/ le b a = true.
Hypothesis le_trans : forall a b c, le a b = true -> le b c = true -> le a c = true.

Lemma sort_insert_sorted x l :
  StronglySorted (fun a b => le a b = true) l ->
  StronglySorted (fun a b => le a b = true) (sort_insert le x l).
Proof.
  induction l as [|y r IH]; intros Hs; simpl.
  - repeat constructor.
  - inversion Hs as [|? ? Hr Hy]; subst. destruct (le x y) eqn:E.
    + constructor; [exact Hs|]. constructor; [exact E|].
      rewrite Forall_forall in Hy |- *. intros z Hz. eapply le_trans; eauto.
    + constructor; [apply IH; exact Hr|].
      rewrite Forall_forall in Hy |- *. intros z Hz.
      rewrite sort_insert_perm in Hz. apply elem_of_cons in Hz as [->|Hz]; [|auto].
      destruct (le_total x y); congruence.
Qed.

Lemma sortBy_sorted l : StronglySorted (fun a b => le a b = true) (sortBy le l).
Proof.
  induction l as [|x r IH]; simpl; [constructor|]. apply sort_insert_sorted, IH.
Qed.

Lemma filter_sort_insert (P : A -> Prop) `{!forall a, Decision (P a)} x l :
  StronglySorted (fun a b => le a b = true) l ->
  filter P (sort_insert le x l) =
  if decide (P x) then sort_insert le x (filter P l) else filter P l.
Proof.
  induction l as [|y r IH]; intros Hs; simpl.
  - rewrite filter_cons, filter_nil. destruct (decide (P x)); reflexivity.
  - inversion Hs as [|? ? Hr Hy]; subst. destruct (le x y) eqn:E.
    + rewrite filter_cons. destruct (decide (P x)); [|reflexivity].
      f_equal. assert (Hall : Forall (fun z => le x z = true) (filter P (y :: r))).
      { rewrite Forall_forall in Hy |- *. intros z Hz.
        apply list_elem_of_filter in Hz as [_ Hz].
        apply elem_of_cons in Hz as [->|Hz]; [exact E|]. eapply le_trans; eauto. }
      destruct (filter P (y :: r)) as [|z t]; simpl; [reflexivity|].
      inversion Hall as [|? ? Hz _]; subst. rewrite Hz. reflexivity.
    + rewrite !filter_cons, (IH Hr).
      destruct (decide (P y)), (decide (P x)); simpl; rewrite ?E; reflexivity.
Qed.

Lemma filter_sortBy (P : A -> Prop) `{!forall a, Decision (P a)} l :
  sortBy le (filter P l) = filter P (sortBy le l).
Proof.
  induction l as [|x r IH]; simpl; [reflexivity|].
  rewrite filter_cons, filter_sort_insert by apply sortBy_sorted.
  destruct (decide (P x)); simpl; rewrite IH; reflexivity.
Qed.
End SortFacts.

Lemma sort_insert_fmap {A B : Type} (f : A -> B) (le : A -> A -> bool)
    (le' : B -> B -> bool) x l :
  (forall a b, le a b = le' (f a) (f b)) ->
  f <$> sort_insert le x l = sort_insert le' (f x) (f <$> l).
Proof.
  intros Hle. induction l as [|y t IH]; [reflexivity|].
  cbn [sort_insert]. rewrite fmap_cons. cbn [sort_insert]. rewrite <- Hle.
  destruct (le x y); [reflexivity|]. rewrite fmap_cons, IH. reflexivity.
Qed.

Lemma sortBy_fmap {A B : Type} (f : A -> B) (le : A -> A -> bool)
    (le' : B -> B -> bool) l :
  (forall a b, le a b = le' (f a) (f b)) ->
  f <$> sortBy le l = sortBy le' (f <$> l).
Proof.
  intros Hle. induction l as [|x r IH]; [reflexivity|].
  rewrite fmap_cons. cbn [sortBy]. rewrite <- IH. apply sort_insert_fmap, Hle.
Qed.

Lemma byOrderIndex_total a b : byOrderIndex a b = true \/ byOrderIndex b a = true.
Proof. unfold byOrderIndex. rewrite !Z.leb_le. lia. Qed.

Lemma byOrderIndex_trans a b c :
  byOrderIndex a b = true -> byOrderIndex b c = true -> byOrderIndex a c = true.
Proof. unfold byOrderIndex. rewrite !Z.leb_le. lia. Qed.

Lemma elem_of_getChildren m p n :
  n ∈ getChildren m p <-> n ∈ Map_values m /\ parentId n = p.
Proof.
  unfold getChildren. rewrite elem_of_sortBy, list_elem_of_filter. tauto.
Qed.

Lemma getChildren_filter (P : Node -> Prop) `{!forall a, Decision (P a)} m p :
  sortBy byOrderIndex (filter P (filter (fun n => parentId n = p) (Map_values m))) =
  filter P (getChildren m p).
Proof.
  unfold getChildren. apply filter_sortBy.
  - apply byOrderIndex_total.
  - apply byOrderIndex_trans.
Qed.

(** ** Well-formed maps under [Map_set] and [Map_delete] *)

Lemma wf_cons k n m :
  wf ((k, n) :: m) <-> (k ∉ Map_keys m) /\ id n = k /\ k <> "" /\ wf m.
Proof.
  unfold wf, Map_keys. rewrite fmap_cons, NoDup_cons, Forall_cons. simpl. tauto.
Qed.

Lemma wf_values_id m n : wf m -> n ∈ Map_values m -> id n ∈ Map_keys m.
Proof.
  intros Hwf Hin. eapply Map_get_Some_key. apply wf_value_get; eauto.
Qed.

Lemma filter_all {A} (P : A -> Prop) `{!forall a, Decision (P a)} (l : list A) :
  (forall a, a ∈ l -> P a) -> filter P l = l.
Proof.
  induction l as [|x r IH]; intros Hall; [reflexivity|].
  rewrite filter_cons, decide_True by (apply Hall; left).
  f_equal. apply IH. intros a Ha. apply Hall. right. exact Ha.
Qed.

Lemma group_after_reparent m x upd node p :
  wf m -> Map_get x m = Some node -> parentId upd <> p ->
  filter (fun n => parentId n = p) (Map_values (Map_set x upd m)) =
  filter (fun n => id n <> x) (filter (fun n => parentId n = p) (Map_values m)).
Proof.
  unfold Map_values. induction m as [|[k0 v0] r IH]; intros Hwf Hn Hp; [discriminate|].
  apply wf_cons in Hwf as (Hnotin & Hid & Hne & Hwf). simpl in Hn |- *.
  destruct (decide (x = k0)) as [->|Hx].
  - rewrite !fmap_cons. simpl. rewrite (filter_cons _ upd), decide_False by exact Hp.
    rewrite (filter_cons _ v0).
    assert (Hrest : filter (fun n => id n <> k0) (filter (fun n => parentId n = p) r.*2)
                    = filter (fun n => parentId n = p) r.*2).
    { apply filter_all. intros a Ha. apply list_elem_of_filter in Ha as [_ Ha].
      intros E. apply Hnotin. rewrite <- E. apply wf_values_id; assumption. }
    destruct (decide (parentId v0 = p)).
    + rewrite filter_cons, decide_False by (intros H; apply H; exact Hid).
      symmetry. exact Hrest.
    + symmetry. exact Hrest.
  - rewrite !fmap_cons. simpl. rewrite !(filter_cons _ v0).
    destruct (decide (parentId v0 = p)).
    + rewrite filter_cons, decide_True by (rewrite Hid; congruence).
      f_equal. apply IH; assumption.
    + apply IH; assumption.
Qed.

(** ** The search *)

Lemma toLowerCase_empty s : toLowerCase s = "" <-> s = "".
Proof. destruct s; simpl; split; intros H; congruence. Qed.

Lemma calculateSearchScore_spec q e : calculateSearchScore q e = score_spec q e.
Proof.
  unfold calculateSearchScore, score_spec.
  destruct (includes (idx_path e) q); [reflexivity|]. lia.
Qed.

Lemma StronglySorted_weaken {A} (R R' : A -> A -> Prop) l :
  (forall a b, R a b -> R' a b) -> StronglySorted R l -> StronglySorted R' l.
Proof.
  intros HR. induction 1 as [|x r Hs IH Hall]; constructor; [exact IH|].
  eapply Forall_impl; [exact Hall|]. intros b. apply HR.
Qed.

Lemma hitDesc_total a b : hitDesc a b = true \/ hitDesc b a = true.
Proof. unfold hitDesc. rewrite !Z.leb_le. lia. Qed.

Lemma hitDesc_trans a b c : hitDesc a b = true -> hitDesc b c = true -> hitDesc a c = true.
Proof. unfold hitDesc. rewrite !Z.leb_le. lia. Qed.

Lemma search_loop_None fuel st q idx : foldl (search_step fuel st q) None idx = None.
Proof. induction idx as [|e r IH]; [reflexivity|exact IH]. Qed.

Lemma search_loop_hits fuel st q idx acc rs :
  foldl (search_step fuel st q) (Some acc) idx = Some rs ->
  hit <$> rs =
  (hit <$> acc) ++
  filter (fun h => (0 < snd h)%Z)
    ((fun e => (Map_get (fst e) (nodes st), score_spec q (snd e))) <$> idx).
Proof.
  revert acc. induction idx as [|e r IH]; intros acc H.
  - simpl in H. injection H as <-. rewrite fmap_nil, filter_nil, app_nil_r. reflexivity.
  - rewrite fmap_cons, filter_cons. cbn [foldl search_step] in H. cbn [snd].
    rewrite calculateSearchScore_spec in H.
    destruct (Z.ltb_spec 0 (score_spec q (snd e))) as [Hpos|Hnpos].
    + destruct (getNodePath fuel (nodes st) (fst e)) as [path|];
        [|rewrite search_loop_None in H; discriminate].
      rewrite (IH _ H), decide_True by exact Hpos.
      rewrite fmap_app, <- app_assoc. reflexivity.
    + rewrite (IH _ H), decide_False by lia. reflexivity.
Qed.

Lemma search_loop_total fuel st q idx acc :
  acyclic (nodes st) -> length (nodes st) <= fuel ->
  is_Some (foldl (search_step fuel st q) (Some acc) idx).
Proof.
  intros Hac Hle. revert acc. induction idx as [|e r IH]; intros acc; [simpl; eauto|].
  cbn [foldl search_step].
  destruct (0 <? calculateSearchScore q (snd e))%Z; [|apply IH].
  destruct (getNodePath_ends (nodes st) (fst e) fuel Hac Hle) as [path ->]. apply IH.
Qed.

Lemma search_unfold fuel st query limit :
  search fuel st query limit =
  if truthy_string (trim query) then
    match foldl (search_step fuel st (toLowerCase query)) (Some []) (searchIndex st) with
    | None => None
    | Some results => Some (take limit (sortBy byScoreDesc results))
    end
  else Some [].
Proof. reflexivity. Qed.

(** C5, as the code has it. [search] answers the empty list when the query
    is empty once trimmed; otherwise it scores every entry of the index
    against the lowercased query, which is not trimmed: 100 for a name equal
    to it, else 50 for a name that starts with it, else 20 for a name that
    contains it, plus 10 when the path contains it.  Entries scoring 0 are
    left out, the rest is sorted by descending score and at most [limit]
    results are returned.  For a query without white space around it this is
    the search of the specification. *)
Theorem search_ranks_lowercased_query (fuel : nat) (st : Store) (query : string)
    (limit : nat) :
  (trim query = "" -> search fuel st query limit = Some []) /\
  (trim query <> "" -> forall rs, search fuel st query limit = Some rs ->
     hit <$> rs = ranked st (toLowerCase query) limit) /\
  (acyclic (nodes st) -> length (nodes st) <= fuel ->
     is_Some (search fuel st query limit)) /\
  (forall q e, calculateSearchScore q e = score_spec q e) /\
  (forall q, length (ranked st q limit) <= limit /\
     Forall (fun h => (0 < snd h)%Z) (ranked st q limit) /\
     StronglySorted (fun a b => (snd b <= snd a)%Z) (ranked st q limit)) /\
  (trim query = query -> forall rs, search fuel st query limit = Some rs ->
     hit <$> rs = search_as_specified st query limit).
Proof.
  assert (Hempty : trim query = "" -> search fuel st query limit = Some []).
  { intros H. rewrite search_unfold, H. reflexivity. }
  assert (Hranked : trim query <> "" -> forall rs,
            search fuel st query limit = Some rs ->
            hit <$> rs = ranked st (toLowerCase query) limit).
  { intros Hne rs H. rewrite search_unfold in H.
    apply truthy_string_ne in Hne. rewrite Hne in H.
    destruct (foldl _ _ _) as [results|] eqn:E; [|discriminate].
    injection H as <-. apply search_loop_hits in E. rewrite fmap_nil, app_nil_l in E.
    unfold ranked. rewrite <- E, fmap_take. f_equal.
    apply sortBy_fmap. reflexivity. }
  split; [exact Hempty|]. split; [exact Hranked|]. split; [|split; [|split]].
  - intros Hac Hle. rewrite search_unfold. destruct (truthy_string (trim query)); [|eauto].
    destruct (search_loop_total fuel st (toLowerCase query) (searchIndex st) [] Hac Hle)
      as [results ->]. eauto.
  - apply calculateSearchScore_spec.
  - intros q. unfold ranked. split; [rewrite length_take; lia|]. split.
    + apply Forall_take. rewrite Forall_forall. intros h Hh.
      apply elem_of_sortBy, list_elem_of_filter in Hh as [Hh _]. exact Hh.
    + match goal with |- StronglySorted _ (take _ ?l) =>
        assert (Hs : StronglySorted (fun a b => (snd b <= snd a)%Z) l) end.
      { eapply StronglySorted_weaken;
          [| apply (sortBy_sorted hitDesc hitDesc_total hitDesc_trans)].
        intros a b. unfold hitDesc. apply Z.leb_le. }
      rewrite <- (take_drop limit) in Hs. eapply StronglySorted_app_1_l. exact Hs.
  - intros Htrim rs H. unfold search_as_specified. rewrite Htrim.
    destruct (decide (toLowerCase query = "")) as [E|E].
    + apply (proj1 (toLowerCase_empty _)) in E. rewrite Hempty in H by congruence.
      injection H as <-. reflexivity.
    + apply Hranked; [|exact H]. rewrite Htrim. intros ->. apply E. reflexivity.
Qed.

Lemma vault_acyclic : acyclic (nodes vault).
Proof. apply acyclicb_sound. vm_compute. reflexivity. Qed.

Lemma search_ranks_lowercased_query_witness :
  search 16 vault "   " 20 = Some [] /\
  (forall rs, search 16 vault "Em" 20 = Some rs ->
     hit <$> rs = ranked vault (toLowerCase "Em") 20) /\
  is_Some (search 16 vault "Em" 20) /\
  (forall rs, search 16 vault "Em" 20 = Some rs ->
     hit <$> rs = search_as_specified vault "Em" 20).
Proof.
  assert (Hblank : trim "   " = "") by (vm_compute; reflexivity).
  assert (Hne : trim "Em" <> "") by (vm_compute; discriminate).
  assert (Htrim : trim "Em" = "Em") by (vm_compute; reflexivity).
  assert (Hlen : length (nodes vault) <= 16) by (vm_compute; lia).
  pose proof (search_ranks_lowercased_query 16 vault "   " 20) as (H1 & _).
  pose proof (search_ranks_lowercased_query 16 vault "Em" 20) as (_ & H2 & H3 & _ & _ & H6).
  exact (conj (H1 Hblank) (conj (H2 Hne) (conj (H3 vault_acyclic Hlen) (H6 Htrim)))).
Defined.

(** The statement of C5 trims the query before matching; the code does not.
    With a space after the word, the search of the specification finds
    Grahda and [search] finds nothing. *)
Lemma search_does_not_trim :
  search 16 vault "grahda " 20 = Some [] /\
  search_as_specified vault "grahda " 20 = [(Map_get "n3" (nodes vault), 110%Z)].
Proof. split; vm_compute; reflexivity. Qed.

(** C6, as the code has it. In the vault of the example the index holds
    Grahda under the path [npcs > trolls > grahda] and Emerald Mire under
    [locations > swamps > emerald mire].  [search("grahda")] returns Grahda
    first, with score 110: 100 for the name and 10 because the path, which
    ends in the name, contains the query too.  [search("em")] returns Emerald
    Mire first with score 60, 50 for the prefix and 10 for the path, before
    Ruins, which has [em] in its path only and scores 10. *)
Theorem search_example_scores :
  (idx_path <$> Map_get "n3" (searchIndex vault) = Some "npcs > trolls > grahda" /\
   idx_path <$> Map_get "n6" (searchIndex vault)
     = Some "locations > swamps > emerald mire") /\
  fmap (M := list) (fun r => (name <$> sr_node r, sr_score r)) <$> search 16 vault "grahda" 20
    = Some [(Some "Grahda", 110%Z)] /\
  fmap (M := list) (fun r => (name <$> sr_node r, sr_score r)) <$> search 16 vault "em" 20
    = Some [(Some "Emerald Mire", 60%Z); (Some "Temple", 30%Z); (Some "Ruins", 10%Z)] /\
  (forall i t,
     calculateSearchScore "grahda" (mkIndexed i "grahda" t "npcs > trolls > grahda")
       = 110%Z /\
     calculateSearchScore "em"
       (mkIndexed i "emerald mire" t "locations > swamps > emerald mire") = 60%Z) /\
  (forall e, includes (idx_name e) "em" = false -> includes (idx_path e) "em" = true ->
     calculateSearchScore "em" e = 10%Z).
Proof.
  split; [split; vm_compute; reflexivity|].
  split; [vm_compute; reflexivity|]. split; [vm_compute; reflexivity|].
  split; [intros i t; split; vm_compute; reflexivity|].
  intros e Hname Hpath. unfold calculateSearchScore, startsWith. rewrite Hname, Hpath.
  destruct (decide (idx_name e = "em")) as [E|_].
  { rewrite E in Hname. vm_compute in Hname. discriminate. }
  destruct (String.prefix "em" (idx_name e)) eqn:Ep; [|reflexivity].
  destruct (idx_name e); simpl in Hname, Ep; rewrite Ep in Hname; discriminate.
Qed.

Lemma search_example_scores_witness :
  calculateSearchScore "em" (mkIndexed "n8" "ruins" leaf "temple > ruins") = 10%Z.
Proof.
  destruct search_example_scores as (_ & _ & _ & _ & Hpath).
  apply (Hpath (mkIndexed "n8" "ruins" leaf "temple > ruins")); vm_compute; reflexivity.
Defined.

(** The scores C6 gives, 100 and 50, are not the ones returned. *)
Lemma search_example_scores_differ :
  fmap (M := list) sr_score <$> search 16 vault "grahda" 20 = Some [110%Z] /\
  fmap (M := list) sr_score <$> search 16 vault "grahda" 20 <> Some [100%Z] /\
  head <$> (fmap (M := list) sr_score <$> search 16 vault "em" 20) = Some (Some 60%Z) /\
  head <$> (fmap (M := list) sr_score <$> search 16 vault "em" 20) <> Some (Some 50%Z).
Proof. repeat split; vm_compute; congruence. Qed.

(** ** Deleting a subtree *)

Lemma deleteNode_unfold f st i :
  deleteNode (S f) st i =
  match Map_get i (nodes st) with
  | None => Some st
  | Some node =>
      match foldl (deleteStep f) (Some st) (getChildren (nodes st) (Some i)) with
      | None => None
      | Some st1 =>
          match rebuildIndex (S f) (deleteSelf st1 i node) with
          | None => None
          | Some st6 => Some (emit ev_nodesChanged (emit (ev_nodeDeleted i) st6))
          end
      end
  end.
Proof. reflexivity. Qed.

Lemma deleteStep_None f l : foldl (deleteStep f) None l = None.
Proof. induction l as [|c r IH]; [reflexivity|exact IH]. Qed.

Lemma nodes_deleteSelf st1 i node : nodes (deleteSelf st1 i node) = Map_delete i (nodes st1).
Proof.
  unfold deleteSelf. destruct (truthy (parentId node)); simpl; case_decide; reflexivity.
Qed.

Lemma db_deleteSelf st1 i node : db (deleteSelf st1 i node) = db_deleteNode i (db st1).
Proof.
  unfold deleteSelf. destruct (truthy (parentId node)); simpl; case_decide; reflexivity.
Qed.

Lemma wf_delete i m : wf m -> wf (Map_delete i m).
Proof.
  intros [Hnd Hall]. split.
  - rewrite Map_keys_delete. apply NoDup_filter. exact Hnd.
  - unfold Map_delete. rewrite Forall_forall in Hall |- *. intros kv Hkv.
    apply list_elem_of_filter in Hkv as [_ Hkv]. apply Hall, Hkv.
Qed.

Lemma removed_dec m m' k : removed m m' k \/ ~ removed m m' k.
Proof.
  unfold removed. destruct (Map_get k m), (Map_get k m'); intuition congruence.
Qed.

Lemma deletes_refl m d : deletes m d m d (fun _ => False).
Proof.
  unfold deletes, removed. repeat split; tauto.
Qed.

Lemma deletes_weaken m d m' d' (D D' : string -> Prop) :
  deletes m d m' d' D ->
  (forall k, D' k -> Map_get k m' = None) ->
  (forall k, D k -> D' k) ->
  deletes m d m' d' D'.
Proof.
  intros (T1 & T2 & T3 & T4 & T5) H2 H3. repeat split; auto.
  - apply T4; assumption.
  - apply T4; assumption.
  - apply T5; assumption.
  - apply T5; assumption.
Qed.

Lemma under_child m i x y : parent_step m x y -> under m i y -> under m i x.
Proof. intros Hs [Hi Hr]. split; [exact Hi|]. eapply rtc_l; eauto. Qed.

Lemma underAny_child m l x y : parent_step m x y -> underAny m l y -> underAny m l x.
Proof. intros Hs (c & Hc & Hu). exists c. split; [exact Hc|]. eapply under_child; eauto. Qed.

(** Paths survive a deletion that is closed under taking children. *)
Lemma rtc_after_deletes m d m' d' (D : string -> Prop) k c :
  deletes m d m' d' D ->
  (forall x y, parent_step m x y -> D y -> D x) ->
  rtc (parent_step m) k c -> Map_get k m' <> None -> rtc (parent_step m') k c.
Proof.
  intros (T1 & T2 & T3 & _) Hclosed Hr. induction Hr as [k|k y c Hs Hr IH]; intros Hk.
  - apply rtc_refl.
  - assert (Hs' : parent_step m' k y).
    { destruct Hs as (n & Hn & Hp). destruct (Map_get k m') as [n'|] eqn:E; [|congruence].
      exists n'. pose proof (T1 _ _ E) as E0. rewrite Hn in E0. injection E0 as <-.
      destruct Hp. auto. }
    eapply rtc_l; [exact Hs'|]. destruct (decide (y = c)) as [->|Hyc]; [apply rtc_refl|].
    apply IH. intros Hy.
    assert (Hym : Map_get y m <> None).
    { inversion Hr as [|? ? ? (n & Hn & _)]; subst; congruence. }
    apply Hk, T2, (Hclosed k y Hs), T3. split; assumption.
Qed.

Lemma parent_step_sub m m' x y :
  (forall k n, Map_get k m' = Some n -> Map_get k m = Some n) ->
  parent_step m' x y -> parent_step m x y.
Proof. intros Hsub (n & Hn & Hp). exists n. auto. Qed.

Lemma rtc_parent_step_sub m m' x y :
  (forall k n, Map_get k m' = Some n -> Map_get k m = Some n) ->
  rtc (parent_step m') x y -> rtc (parent_step m) x y.
Proof.
  intros Hsub H. induction H as [|x z y Hs _ IH]; [apply rtc_refl|].
  eapply rtc_l; [eapply parent_step_sub; eauto | exact IH].
Qed.

(** Two deletions in a row. *)
Lemma deletes_then m0 d0 m1 d1 m2 d2 (l : list string) (c : string) :
  deletes m0 d0 m1 d1 (underAny m0 l) ->
  deletes m1 d1 m2 d2 (under m1 c) ->
  deletes m0 d0 m2 d2 (underAny m0 (l ++ [c])).
Proof.
  intros H01 H12.
  pose proof H01 as (A1 & A2 & A3 & A4 & A5).
  pose proof H12 as (B1 & B2 & B3 & B4 & B5).
  assert (Hnone : forall k, Map_get k m1 = None -> Map_get k m2 = None).
  { intros k Hk. destruct (Map_get k m2) as [n|] eqn:E; [|reflexivity].
    apply B1 in E. congruence. }
  repeat split.
  - intros k n Hk. apply A1, B1, Hk.
  - intros k (c' & Hin & Hu). apply elem_of_app in Hin as [Hin|Hin].
    + apply Hnone, A2. exists c'. auto.
    + apply list_elem_of_singleton in Hin as ->. destruct Hu as [Hc Hr].
      destruct (Map_get k m1) as [n|] eqn:Ek; [|apply Hnone; exact Ek].
      assert (Hk1 : Map_get k m1 <> None) by congruence.
      apply B2. split.
      * intros Hc1. apply Hk1, A2.
        destruct (A3 c (conj Hc Hc1)) as (c0 & Hin0 & Hc0 & Hr0).
        exists c0. split; [exact Hin0|]. split; [exact Hc0|]. eapply rtc_trans; eauto.
      * eapply rtc_after_deletes; [exact H01| |exact Hr|exact Hk1].
        intros x y. apply underAny_child.
  - intros k [Hk0 Hk2]. destruct (Map_get k m1) as [n|] eqn:Ek.
    + destruct (B3 k) as [Hc Hr]; [split; congruence|].
      exists c. split; [apply elem_of_app; right; apply list_elem_of_singleton; reflexivity|].
      split.
      * destruct (Map_get c m1) as [nc|] eqn:Ec; [|congruence].
        apply A1 in Ec. congruence.
      * eapply rtc_parent_step_sub; eauto.
    + destruct (A3 k (conj Hk0 Ek)) as (c0 & Hin0 & Hu0).
      exists c0. split; [apply elem_of_app; left; exact Hin0 | exact Hu0].
  - destruct H as [Hk0 Hk2]. destruct (Map_get k m1) as [n|] eqn:Ek.
    + apply B4. split; congruence.
    + destruct (B5 k) as [-> _]; [intros [E _]; congruence|]. apply A4. split; assumption.
  - destruct H as [Hk0 Hk2]. destruct (Map_get k m1) as [n|] eqn:Ek.
    + apply B4. split; congruence.
    + destruct (B5 k) as [_ ->]; [intros [E _]; congruence|]. apply A4. split; assumption.
  - assert (H1 : ~ removed m0 m1 k).
    { intros [Hk0 Hk1]. apply H. split; [exact Hk0 | apply Hnone, Hk1]. }
    assert (H2 : ~ removed m1 m2 k).
    { intros [Hk1 Hk2]. apply H. split; [|exact Hk2].
      destruct (Map_get k m1) as [n|] eqn:E; [|congruence]. apply A1 in E. congruence. }
    destruct (B5 k H2) as [-> _]. apply A5. exact H1.
  - assert (H1 : ~ removed m0 m1 k).
    { intros [Hk0 Hk1]. apply H. split; [exact Hk0 | apply Hnone, Hk1]. }
    assert (H2 : ~ removed m1 m2 k).
    { intros [Hk1 Hk2]. apply H. split; [|exact Hk2].
      destruct (Map_get k m1) as [n|] eqn:E; [|congruence]. apply A1 in E. congruence. }
    destruct (B5 k H2) as [_ ->]. apply A5. exact H1.
Qed.

(** The last step of [deleteNode]: the children's subtrees are gone, the node
    itself goes. *)
Lemma deletes_self m d m1 d1 i node :
  wf m -> Map_get i m = Some node ->
  deletes m d m1 d1 (underAny m (id <$> getChildren m (Some i))) ->
  deletes m d (Map_delete i m1) (db_deleteNode i d1) (under m i).
Proof.
  intros Hwf Hi (A1 & A2 & A3 & A4 & A5).
  destruct (wf_key_id _ _ _ Hwf Hi) as [_ Hine].
  assert (Hrem : forall k, k <> i -> removed m (Map_delete i m1) k -> removed m m1 k).
  { intros k Hk [H0 H1]. split; [exact H0|].
    rewrite Map_get_delete, decide_False in H1 by exact Hk. exact H1. }
  assert (Hremi : removed m (Map_delete i m1) i).
  { split; [congruence|]. rewrite Map_get_delete, decide_True; reflexivity. }
  repeat split.
  - intros k n. rewrite Map_get_delete. case_decide; [discriminate|]. apply A1.
  - intros k [_ Hr]. rewrite Map_get_delete. case_decide; [reflexivity|].
    apply rtc_inv_r in Hr as [->|(z & Hr & (nz & Hz & Hp & _))]; [congruence|].
    apply A2. exists z. split; [|split; [congruence|exact Hr]].
    apply list_elem_of_fmap. exists nz.
    destruct (wf_key_id _ _ _ Hwf Hz) as [Hid _]. split; [symmetry; exact Hid|].
    apply elem_of_getChildren. split; [|exact Hp].
    unfold Map_values. apply list_elem_of_fmap. exists (z, nz).
    split; [reflexivity | apply Map_get_Some_elem; exact Hz].
  - congruence.
  - destruct (decide (k = i)) as [->|Hk]; [apply rtc_refl|].
    destruct (A3 k (Hrem k Hk H)) as (c & Hc & _ & Hr).
    eapply rtc_r; [exact Hr|].
    apply list_elem_of_fmap in Hc as (nc & -> & Hc).
    apply elem_of_getChildren in Hc as [Hin Hp].
    exists nc. split; [apply wf_value_get; assumption|]. auto.
  - simpl. destruct (decide (k = i)) as [->|Hk]; [apply lookup_delete_eq|].
    rewrite lookup_delete_ne by congruence. apply A4, Hrem; assumption.
  - simpl. destruct (decide (k = i)) as [->|Hk]; [apply lookup_delete_eq|].
    rewrite lookup_delete_ne by congruence. apply A4, Hrem; assumption.
  - simpl. destruct (decide (k = i)) as [->|Hk]; [contradiction|].
    rewrite lookup_delete_ne by congruence. apply A5. intros [H0 H1]. apply H.
    split; [exact H0|]. rewrite Map_get_delete, decide_False by exact Hk. exact H1.
  - simpl. destruct (decide (k = i)) as [->|Hk]; [contradiction|].
    rewrite lookup_delete_ne by congruence. apply A5. intros [H0 H1]. apply H.
    split; [exact H0|]. rewrite Map_get_delete, decide_False by exact Hk. exact H1.
Qed.

Lemma deletes_absent m d i : Map_get i m = None -> deletes m d m d (under m i).
Proof.
  intros Hi. eapply deletes_weaken; [apply deletes_refl| |contradiction].
  intros k [H _]. congruence.
Qed.

Lemma deleteLoop_spec f :
  (forall st i st', wf (nodes st) -> deleteNode f st i = Some st' ->
     wf (nodes st') /\
     deletes (nodes st) (db st) (nodes st') (db st') (under (nodes st) i)) ->
  forall (cs : list Node) (st0 st st' : Store) (done : list string),
    wf (nodes st) ->
    deletes (nodes st0) (db st0) (nodes st) (db st) (underAny (nodes st0) done) ->
    foldl (deleteStep f) (Some st) cs = Some st' ->
    wf (nodes st') /\
    deletes (nodes st0) (db st0) (nodes st') (db st')
      (underAny (nodes st0) (done ++ (id <$> cs))).
Proof.
  intros IHf. induction cs as [|c cs IH]; intros st0 st st' done Hwf Hd H.
  - simpl in H. injection H as <-. rewrite fmap_nil, app_nil_r. auto.
  - cbn [foldl deleteStep] in H.
    destruct (deleteNode f st (id c)) as [st1|] eqn:E;
      [|rewrite deleteStep_None in H; discriminate].
    destruct (IHf _ _ _ Hwf E) as [Hwf1 Hd1].
    pose proof (deletes_then _ _ _ _ _ _ _ _ Hd Hd1) as Hd01.
    destruct (IH st0 st1 st' (done ++ [id c]) Hwf1 Hd01 H) as [Hwf' Hd'].
    split; [exact Hwf'|]. rewrite fmap_cons, (cons_middle (id c)), app_assoc. exact Hd'.
Qed.

(** [deleteNode(i)] takes out of the map and of both object stores the node
    [i] and the nodes that have it among their ancestors, and nothing else. *)
Lemma deleteNode_spec fuel st i st' :
  wf (nodes st) -> deleteNode fuel st i = Some st' ->
  wf (nodes st') /\
  deletes (nodes st) (db st) (nodes st') (db st') (under (nodes st) i).
Proof.
  revert st i st'. induction fuel as [|f IHf]; intros st i st' Hwf H.
  - simpl in H. destruct (Map_get i (nodes st)) eqn:Hi; [discriminate|].
    injection H as <-. split; [exact Hwf | apply deletes_absent; exact Hi].
  - rewrite deleteNode_unfold in H. destruct (Map_get i (nodes st)) as [node|] eqn:Hi.
    + destruct (foldl _ _ _) as [st1|] eqn:Eloop; [|discriminate].
      destruct (rebuildIndex _ _) as [st6|] eqn:Eidx; [|discriminate].
      injection H as <-. apply rebuildIndex_Some in Eidx as [idx ->]. simpl.
      rewrite nodes_deleteSelf, db_deleteSelf.
      assert (Hd0 : deletes (nodes st) (db st) (nodes st) (db st) (underAny (nodes st) [])).
      { eapply deletes_weaken; [apply deletes_refl| |contradiction].
        intros k (c & Hc & _). inversion Hc. }
      destruct (deleteLoop_spec f IHf _ st st st1 [] Hwf Hd0 Eloop) as [Hwf1 Hd1].
      split; [apply wf_delete; exact Hwf1|].
      eapply deletes_self; eauto.
    + injection H as <-. split; [exact Hwf | apply deletes_absent; exact Hi].
Qed.

(** The map after [deleteNode] is the map before with some keys filtered
    out: the order of what stays is kept. *)
Lemma filter_gone_twice (m : list (string * Node)) (g1 g2 : list string) :
  filter (fun kv : string * Node => fst kv ∉ g2) (filter (fun kv => fst kv ∉ g1) m)
  = filter (fun kv => fst kv ∉ g1 ++ g2) m.
Proof.
  rewrite list_filter_filter. apply list_filter_iff. intros kv.
  rewrite elem_of_app. tauto.
Qed.

Lemma Map_delete_filter (m : list (string * Node)) i :
  Map_delete i m = filter (fun kv => fst kv ∉ [i]) m.
Proof.
  unfold Map_delete. apply list_filter_iff. intros kv.
  rewrite list_elem_of_singleton. tauto.
Qed.

Lemma filter_gone_nil (m : list (string * Node)) :
  m = filter (fun kv => fst kv ∉ @nil string) m.
Proof. symmetry. apply filter_all. intros kv _. apply not_elem_of_nil. Qed.

Lemma deleteLoop_filter f :
  (forall st i st', deleteNode f st i = Some st' ->
     exists gone : list string, nodes st' = filter (fun kv => fst kv ∉ gone) (nodes st)) ->
  forall cs st st1, foldl (deleteStep f) (Some st) cs = Some st1 ->
    exists gone : list string, nodes st1 = filter (fun kv => fst kv ∉ gone) (nodes st).
Proof.
  intros IHf. induction cs as [|c cs IH]; intros st st1 E.
  - simpl in E. injection E as <-. exists []. apply filter_gone_nil.
  - cbn [foldl deleteStep] in E.
    destruct (deleteNode f st (id c)) as [st2|] eqn:E2;
      [|rewrite deleteStep_None in E; discriminate].
    destruct (IHf _ _ _ E2) as [g1 Hg1]. destruct (IH _ _ E) as [g2 Hg2].
    exists (g1 ++ g2). rewrite Hg2, Hg1. apply filter_gone_twice.
Qed.

Lemma deleteNode_filter fuel st i st' :
  deleteNode fuel st i = Some st' ->
  exists gone : list string, nodes st' = filter (fun kv => fst kv ∉ gone) (nodes st).
Proof.
  revert st i st'. induction fuel as [|f IHf]; intros st i st' H.
  - simpl in H. destruct (Map_get i (nodes st)); [discriminate|]. injection H as <-.
    exists []. apply filter_gone_nil.
  - rewrite deleteNode_unfold in H. destruct (Map_get i (nodes st)) as [node|].
    + destruct (foldl _ _ _) as [st1|] eqn:Eloop; [|discriminate].
      destruct (rebuildIndex _ _) as [st6|] eqn:Eidx; [|discriminate].
      injection H as <-. apply rebuildIndex_Some in Eidx as [idx ->]. simpl.
      rewrite nodes_deleteSelf.
      destruct (deleteLoop_filter f IHf _ _ _ Eloop) as [gone Hg]. exists (gone ++ [i]).
      rewrite Map_delete_filter, Hg. apply filter_gone_twice.
    + injection H as <-. exists []. apply filter_gone_nil.
Qed.

(** ** [deleteNode] returns on an acyclic store *)

Lemma tc_flip {A} (R : relation A) x y : tc (flip R) x y -> tc R y x.
Proof.
  induction 1 as [x y H|x z y H _ IH]; [apply tc_once; exact H|].
  eapply tc_r; [exact IH | exact H].
Qed.

Lemma acyclic_Acc m : acyclic m -> forall i, Acc (parent_step m) i.
Proof.
  intros Hac i.
  change (sn (flip (parent_step m)) i). apply tc_finite_sn.
  - intros x Hx. apply tc_flip in Hx. exact (Hac x Hx).
  - exists (Map_keys m). intros y Hy. apply tc_flip in Hy.
    inversion Hy as [? ? Hs|? ? ? Hs _]; subst; eapply parent_step_key; eauto.
Qed.










Lemma vault_wf : wf (nodes vault).
Proof. apply (bool_decide_unpack _). vm_compute. reflexivity. Qed.


(** Deleting the folder NPCs of the example vault: the folder, Trolls below
    it and Grahda below that are gone, with Grahda's content record. *)
Example deleteNode_cascade_example :
  Map_keys (nodes vault) = ["n1"; "n2"; "n3"; "n4"; "n5"; "n6"; "n7"; "n8"] /\
  Map_keys (nodes vaultWithoutNPCs) = ["n4"; "n5"; "n6"; "n7"; "n8"] /\
  rootNodes vaultWithoutNPCs = ["n4"; "n7"] /\
  is_Some (contentStore (db vault) !! "n3") /\
  contentStore (db vaultWithoutNPCs) !! "n3" = None /\
  nodeStore (db vaultWithoutNPCs) !! "n2" = None.
Proof. vm_compute. repeat split; eauto. Qed.

(** ** Contiguous sibling groups *)

Lemma seqZ_sorted m k : StronglySorted Z.le (seqZ m (Z.of_nat k)).
Proof.
  revert m. induction k as [|k IH]; intros m.
  - rewrite seqZ_nil by lia. constructor.
  - rewrite seqZ_cons by lia. replace (Z.pred (Z.of_nat (S k))) with (Z.of_nat k) by lia.
    constructor; [apply IH|]. apply Forall_seqZ. intros x Hx. lia.
Qed.







(** *** [createNode] *)



(** *** [reorderNode] *)

Lemma wf_set m k s' : wf m -> k ∈ Map_keys m -> id s' = k -> wf (Map_set k s' m).
Proof.
  intros Hwf Hk Hid. induction m as [|[k0 v0] r IH]; [inversion Hk|].
  apply wf_cons in Hwf as (Hnotin & Hid0 & Hne & Hwf). simpl.
  destruct (decide (k = k0)) as [->|Hkk].
  - apply wf_cons. auto.
  - unfold Map_keys in Hk. rewrite fmap_cons in Hk.
    apply elem_of_cons in Hk as [?|Hk]; [simpl in *; congruence|].
    apply wf_cons. split; [|auto]. rewrite Map_keys_set_present by exact Hk. exact Hnotin.
Qed.

Lemma wf_group_NoDup m p :
  wf m -> NoDup (id <$> filter (fun n => parentId n = p) (Map_values m)).
Proof.
  intros Hwf. assert (Hids : id <$> Map_values m = Map_keys m).
  { destruct Hwf as [_ Hall]. unfold Map_values, Map_keys.
    induction m as [|[k v] r IH]; [reflexivity|].
    apply Forall_cons in Hall as [[Hid _] Hall]. rewrite !fmap_cons. simpl in *.
    rewrite Hid, IH by exact Hall. reflexivity. }
  destruct Hwf as [Hnd _]. rewrite <- Hids in Hnd.
  apply (sublist_NoDup _ (id <$> Map_values m)); [exact Hnd | apply fmap_sublist, sublist_filter].
Qed.

Lemma group_after_set m k s s' p :
  wf m -> Map_get k m = Some s -> id s' = k -> parentId s = p -> parentId s' = p ->
  filter (fun n => parentId n = p) (Map_values (Map_set k s' m))
  ≡ₚ s' :: filter (fun n => id n <> k) (filter (fun n => parentId n = p) (Map_values m)).
Proof.
  unfold Map_values. induction m as [|[k0 v0] r IH]; intros Hwf Hs Hid Hp Hp'; [discriminate|].
  apply wf_cons in Hwf as (Hnotin & Hid0 & Hne & Hwf). simpl in Hs |- *.
  destruct (decide (k = k0)) as [->|Hkk].
  - injection Hs as ->. rewrite !fmap_cons. simpl.
    rewrite !filter_cons, !decide_True by assumption.
    rewrite filter_cons, decide_False by (intros H; apply H; exact Hid0).
    rewrite (filter_all (fun n => id n <> k0)); [reflexivity|].
    intros a Ha. apply list_elem_of_filter in Ha as [_ Ha].
    intros E. apply Hnotin. rewrite <- E. apply wf_values_id; assumption.
  - rewrite !fmap_cons. simpl. rewrite !(filter_cons _ v0).
    destruct (decide (parentId v0 = p)).
    + rewrite filter_cons, decide_True by (rewrite Hid0; congruence).
      rewrite IH by assumption. apply Permutation_swap.
    + apply IH; assumption.
Qed.

Lemma filter_out_one (l1 l2 : list Node) (s : Node) :
  NoDup (id <$> (l1 ++ s :: l2)) ->
  filter (fun n => id n <> id s) (l1 ++ s :: l2) = l1 ++ l2.
Proof.
  intros Hnd. rewrite fmap_app, fmap_cons in Hnd.
  apply NoDup_app in Hnd as (_ & Hl1 & Hnd). apply NoDup_cons in Hnd as [Hl2 _].
  rewrite filter_app, filter_cons, decide_False by (intros H; apply H; reflexivity).
  rewrite !filter_all; [reflexivity| |].
  - intros a Ha E. apply Hl2. rewrite <- E. apply list_elem_of_fmap. eauto.
  - intros a Ha E. apply (Hl1 (id a)); [apply list_elem_of_fmap; eauto|].
    rewrite E. left.
Qed.


Lemma findIndex_Some i l j :
  findIndex i l = Some j -> exists s, l !! j = Some s /\ id s = i.
Proof.
  revert j. induction l as [|n r IH]; intros j H; [discriminate|]. simpl in H.
  destruct (decide (id n = i)) as [E|E].
  - injection H as <-. exists n. auto.
  - destruct (findIndex i r) as [j'|]; [|discriminate]. injection H as <-.
    destruct (IH j' eq_refl) as (s & Hs & Hid). exists s. auto.
Qed.

Lemma splice_remove_perm {A} (l : list A) j x :
  l !! j = Some x -> x :: splice_remove j l ≡ₚ l.
Proof.
  intros H. unfold splice_remove. rewrite <- (take_drop_middle l j x H) at 3.
  apply Permutation_middle.
Qed.

Lemma splice_insert_perm {A} (l : list A) start x : splice_insert start x l ≡ₚ x :: l.
Proof.
  unfold splice_insert. rewrite <- Permutation_middle, take_drop. reflexivity.
Qed.


(** *** [deleteNode] *)


Lemma Map_get_filter_gone (m : list (string * Node)) (gone : list string) k :
  Map_get k (filter (fun kv => fst kv ∉ gone) m)
  = if decide (k ∈ gone) then None else Map_get k m.
Proof.
  induction m as [|[k0 v0] r IH]; [simpl; case_decide; reflexivity|].
  rewrite filter_cons. cbn [fst]. destruct (decide (k0 ∉ gone)) as [H0|H0]; simpl;
    rewrite IH; repeat case_decide; subst; try reflexivity; try contradiction.
Qed.









(** ** Where [moveNode] puts the node *)

Lemma group_without_set m x upd node p :
  wf m -> Map_get x m = Some node -> parentId node <> p -> id upd = x ->
  filter (fun n => id n <> x) (filter (fun n => parentId n = p) (Map_values (Map_set x upd m)))
  = filter (fun n => parentId n = p) (Map_values m).
Proof.
  unfold Map_values. induction m as [|[k0 v0] r IH]; intros Hwf Hn Hp Hid; [discriminate|].
  apply wf_cons in Hwf as (Hnotin & Hid0 & Hne & Hwf). simpl in Hn |- *.
  destruct (decide (x = k0)) as [->|Hx].
  - injection Hn as ->. rewrite !fmap_cons. simpl.
    rewrite (filter_cons _ node), decide_False by exact Hp.
    assert (Hrest : filter (fun n => id n <> k0) (filter (fun n => parentId n = p) r.*2)
                    = filter (fun n => parentId n = p) r.*2).
    { apply filter_all. intros a Ha. apply list_elem_of_filter in Ha as [_ Ha].
      intros E. apply Hnotin. rewrite <- E. apply wf_values_id; assumption. }
    rewrite (filter_cons _ upd). destruct (decide (parentId upd = p)).
    + rewrite filter_cons, decide_False by (intros H; apply H; exact Hid). exact Hrest.
    + exact Hrest.
  - rewrite !fmap_cons. simpl. rewrite !(filter_cons _ v0).
    destruct (decide (parentId v0 = p)).
    + rewrite filter_cons, decide_True by (rewrite Hid0; congruence).
      f_equal. apply IH; assumption.
    + apply IH; assumption.
Qed.

Lemma sorted_greatest_last (l : list Node) (upd : Node) :
  StronglySorted (fun a b => byOrderIndex a b = true) l ->
  NoDup (id <$> l) -> upd ∈ l ->
  (forall n, n ∈ l -> id n <> id upd -> (orderIndex n < orderIndex upd)%Z) ->
  l = filter (fun n => id n <> id upd) l ++ [upd].
Proof.
  induction 1 as [|a l Hs IH Ha]; intros Hnd Hin Hlt; [inversion Hin|].
  rewrite fmap_cons in Hnd. apply NoDup_cons in Hnd as [Hnotin Hnd].
  rewrite filter_cons. destruct (decide (id a <> id upd)) as [Hne|He].
  - cbn [app]. f_equal. apply IH; [exact Hnd| |].
    + apply elem_of_cons in Hin as [->|Hin]; [contradiction|exact Hin].
    + intros n Hn. apply Hlt. right. exact Hn.
  - assert (Hid : id a = id upd) by (destruct (decide (id a = id upd)); tauto).
    assert (Hupd : upd = a).
    { apply elem_of_cons in Hin as [E|Hin]; [exact E|].
      exfalso. apply Hnotin. rewrite Hid. apply list_elem_of_fmap. eauto. }
    subst a. destruct l as [|b l]; [reflexivity|]. exfalso.
    apply Forall_cons in Ha as [Hb _]. unfold byOrderIndex in Hb. apply Z.leb_le in Hb.
    assert (Hbid : id b <> id upd).
    { intros E. apply Hnotin. rewrite fmap_cons, E. left. }
    pose proof (Hlt b ltac:(right; left) Hbid). lia.
Qed.

Lemma getChildren_moved_last m x node upd q :
  wf m -> Map_get x m = Some node -> parentId node <> q ->
  id upd = x -> parentId upd = q ->
  Forall (fun n => (orderIndex n < orderIndex upd)%Z) (getChildren m q) ->
  getChildren (Map_set x upd m) q = getChildren m q ++ [upd].
Proof.
  intros Hwf Hn Hp Hid Hq Hlt.
  assert (Hkey : x ∈ Map_keys m) by (eapply Map_get_Some_key; eauto).
  assert (Hwf' : wf (Map_set x upd m)) by (apply wf_set; assumption).
  assert (Hrest : filter (fun n => id n <> id upd) (getChildren (Map_set x upd m) q)
                  = getChildren m q).
  { rewrite Hid, <- getChildren_filter.
    rewrite (group_without_set m x upd node q Hwf Hn Hp Hid). reflexivity. }
  rewrite <- Hrest. apply sorted_greatest_last.
  - apply sortBy_sorted; [apply byOrderIndex_total|apply byOrderIndex_trans].
  - unfold getChildren.
    rewrite (sortBy_perm byOrderIndex). apply wf_group_NoDup, Hwf'.
  - apply elem_of_getChildren. split; [|exact Hq].
    apply list_elem_of_fmap. exists (x, upd). split; [reflexivity|].
    apply Map_get_Some_elem. apply Map_get_set_eq.
  - intros n Hin Hne. rewrite Forall_forall in Hlt. apply Hlt.
    rewrite <- Hrest. apply list_elem_of_filter. split; assumption.
Qed.

(** C3. A [moveNode(x, q)] that succeeds, to a parent [q] other than the
    current one, stores [x] with [orderIndex] equal to the number of children
    [q] had when the call was made, and leaves every other node as it was: the
    children of the former parent are the ones before without [x], each with
    the [orderIndex] it had, so the place [x] left is not closed.  When every
    child of [q] had an [orderIndex] below that number, [x] is listed last
    among the children of [q], after the ones [q] had, in their order. *)
Theorem moveNode_appends_and_leaves_gap (fuel : nat) (st st' : Store) (x : string)
    (q : option string) (now : Z) (node : Node) :
  Map_get x (nodes st) = Some node ->
  q <> parentId node ->
  moveNode fuel st x q now = Some (Returned tt st') ->
  Map_get x (nodes st') = Some (movedNode node (nodes st) q now) /\
  orderIndex (movedNode node (nodes st) q now)
    = Z.of_nat (length (getChildren (nodes st) q)) /\
  (forall y, y <> x -> Map_get y (nodes st') = Map_get y (nodes st)) /\
  (wf (nodes st) ->
   getChildren (nodes st') (parentId node)
     = filter (fun n => id n <> x) (getChildren (nodes st) (parentId node))) /\
  (wf (nodes st) ->
   Forall (fun n => (orderIndex n < Z.of_nat (length (getChildren (nodes st) q)))%Z)
     (getChildren (nodes st) q) ->
   getChildren (nodes st') q
     = getChildren (nodes st) q ++ [movedNode node (nodes st) q now]).
Proof.
  intros Hn Hq H.
  destruct (moveNode_nodes _ _ _ _ _ _ _ Hn H)
    as [[[=] _]|[(_ & Hnodes & _)|(_ & _ & [=])]].
  simpl in Hnodes. rewrite Hnodes.
  split; [apply Map_get_set_eq|]. split; [reflexivity|]. split; [|split].
  - intros y Hy. apply Map_get_set_ne. exact Hy.
  - intros Hwf. unfold getChildren at 1.
    rewrite (group_after_reparent _ _ _ node) by (simpl; auto).
    apply getChildren_filter.
  - intros Hwf Hlt. apply (getChildren_moved_last _ _ node); try assumption.
    + congruence.
    + cbn. apply (wf_key_id _ _ _ Hwf Hn).
    + reflexivity.
Qed.

Lemma moveNode_appends_and_leaves_gap_witness :
  Map_get "x" (nodes movedX)
    = Some (movedNode (mkNode "x" (Some "p") folder "X" 2 false 5 5)
              (nodes twoFolders) (Some "q") 50) /\
  orderIndex (movedNode (mkNode "x" (Some "p") folder "X" 2 false 5 5)
                (nodes twoFolders) (Some "q") 50)
    = Z.of_nat (length (getChildren (nodes twoFolders) (Some "q"))) /\
  (forall y, y <> "x" -> Map_get y (nodes movedX) = Map_get y (nodes twoFolders)) /\
  getChildren (nodes movedX) (Some "p")
    = filter (fun n => id n <> "x") (getChildren (nodes twoFolders) (Some "p")) /\
  getChildren (nodes movedX) (Some "q")
    = getChildren (nodes twoFolders) (Some "q")
      ++ [movedNode (mkNode "x" (Some "p") folder "X" 2 false 5 5)
            (nodes twoFolders) (Some "q") 50].
Proof.
  destruct (moveNode_appends_and_leaves_gap 16 twoFolders movedX "x" (Some "q") 50
              (mkNode "x" (Some "p") folder "X" 2 false 5 5))
    as (Hx & Hindex & Hothers & Hgroup & Hlast).
  - vm_compute. reflexivity.
  - discriminate.
  - vm_compute. reflexivity.
  - refine (conj Hx (conj Hindex (conj Hothers (conj (Hgroup twoFolders_wf)
              (Hlast twoFolders_wf _))))).
    apply (bool_decide_unpack _). vm_compute. reflexivity.
Defined.

(** The statement of C3 fails where it says appended at the end: with the
    first child of [q] deleted, [q2] keeps [orderIndex] 1, the count of the
    children of [q] is 1, and [x], moved under [q], gets [orderIndex] 1 and is
    listed before [q2]. *)
Lemma moveNode_not_appended :
  wf (nodes twoFoldersWithoutQ1) /\
  deleteNode 16 twoFolders "q1" = Some twoFoldersWithoutQ1 /\
  moveNode 16 twoFoldersWithoutQ1 "x" (Some "q") 50 = Some (Returned tt movedXAfterDelete) /\
  (fun n => (id n, orderIndex n)) <$> getChildren (nodes twoFoldersWithoutQ1) (Some "q")
    = [("q2", 1%Z)] /\
  (fun n => (id n, orderIndex n)) <$> getChildren (nodes movedXAfterDelete) (Some "q")
    = [("x", 1%Z); ("q2", 1%Z)].
Proof.
  split; [apply (bool_decide_unpack _); vm_compute; reflexivity|].
  vm_compute. repeat split; reflexivity.
Qed.

(** The case of the specification: [x] is the last of three children of [p]
    and [q] has two children. *)
Example moveNode_gap_example :
  orderIndex <$> Map_get "x" (nodes movedX) = Some 2%Z /\
  (fun n => (id n, orderIndex n)) <$> getChildren (nodes movedX) (Some "p")
    = [("p1", 0%Z); ("p2", 1%Z)] /\
  (fun n => (id n, orderIndex n)) <$> getChildren (nodes movedX) (Some "q")
    = [("q1", 0%Z); ("q2", 1%Z); ("x", 2%Z)].
Proof. vm_compute. repeat split; reflexivity. Qed.

(** ** Export and import *)

Section ObjectStore.
Context {V : Type} (keyOf : V -> string).

Lemma foldl_put_lookup (l : list (string * V)) (acc : gmap string V) k :
  NoDup l.*1 ->
  foldl (fun s kv => <[fst kv := snd kv]> s) acc l !! k
  = match (list_to_map l : gmap string V) !! k with
    | Some v => Some v
    | None => acc !! k
    end.
Proof.
  revert acc. induction l as [|[k0 v0] r IH]; intros acc Hnd; [reflexivity|].
  rewrite fmap_cons in Hnd. apply NoDup_cons in Hnd as [Hk0 Hnd].
  cbn [foldl fst snd]. rewrite IH by exact Hnd. rewrite list_to_map_cons.
  destruct (decide (k = k0)) as [->|Hne].
  - rewrite lookup_insert_eq, (not_elem_of_list_to_map_1 r k0 Hk0), lookup_insert_eq.
    reflexivity.
  - rewrite !lookup_insert_ne by congruence. reflexivity.
Qed.

Lemma foldl_put_values (l : list (string * V)) (acc : gmap string V) :
  Forall (fun kv => keyOf (snd kv) = fst kv) l ->
  foldl (fun s v => <[keyOf v := v]> s) acc l.*2
  = foldl (fun s kv => <[fst kv := snd kv]> s) acc l.
Proof.
  revert acc. induction l as [|[k0 v0] r IH]; intros acc Hall; [reflexivity|].
  apply Forall_cons in Hall as [Hk Hall]. rewrite fmap_cons. cbn [foldl fst snd] in *.
  rewrite Hk. apply IH, Hall.
Qed.

(** Putting back what [getAll] returned rebuilds the object store. *)
Lemma put_all_getAll (s : gmap string V) :
  map_Forall (fun k v => keyOf v = k) s ->
  foldl (fun acc v => <[keyOf v := v]> acc) ∅ (store_getAll s) = s.
Proof.
  intros Hkeys. unfold store_getAll.
  set (l := sortBy (fun a b => key_leb (fst a) (fst b)) (map_to_list s)).
  assert (Hperm : l ≡ₚ map_to_list s) by apply sortBy_perm.
  assert (Hnd : NoDup l.*1) by (rewrite Hperm; apply NoDup_fst_map_to_list).
  rewrite foldl_put_values.
  - apply map_eq. intros k. rewrite foldl_put_lookup by exact Hnd.
    rewrite (list_to_map_proper l (map_to_list s) Hnd Hperm), list_to_map_to_list.
    rewrite lookup_empty. destruct (s !! k); reflexivity.
  - rewrite Forall_forall. intros [k v] Hin. rewrite Hperm in Hin.
    apply elem_of_map_to_list in Hin. exact (Hkeys k v Hin).
Qed.
End ObjectStore.


(** *** [loadNodes] *)

Lemma load_lookup ns : forall acc (g : gmap string Node),
  (forall k, Map_get k (fst acc) = g !! k) ->
  forall k, Map_get k (fst (foldl loadStep acc ns))
            = foldl (fun s n => <[id n := n]> s) g ns !! k.
Proof.
  induction ns as [|n ns IH]; intros acc g Hacc k; [apply Hacc|].
  cbn [foldl]. apply IH. intros k'. unfold loadStep. cbn [fst].
  rewrite Map_get_set. destruct (decide (k' = id n)) as [->|Hne].
  - rewrite lookup_insert_eq. reflexivity.
  - rewrite lookup_insert_ne by congruence. apply Hacc.
Qed.

Lemma Map_keys_set_incl {V} k (v : V) m x : x ∈ Map_keys m -> x ∈ Map_keys (Map_set k v m).
Proof.
  intros Hx. destruct (Map_get x m) as [w|] eqn:E.
  - destruct (decide (x = k)) as [->|Hne].
    + eapply Map_get_Some_key. apply Map_get_set_eq.
    + eapply Map_get_Some_key. rewrite Map_get_set_ne by exact Hne. exact E.
  - apply Map_get_None_key in E. contradiction.
Qed.

Lemma Map_keys_set_NoDup {V} k (v : V) m : NoDup (Map_keys m) -> NoDup (Map_keys (Map_set k v m)).
Proof.
  intros Hnd. destruct (Map_get k m) as [w|] eqn:E.
  - rewrite Map_keys_set_present; [exact Hnd | eapply Map_get_Some_key; eauto].
  - apply Map_get_None_key in E. rewrite Map_set_absent by exact E.
    unfold Map_keys in *. rewrite fmap_app. apply NoDup_app. split; [exact Hnd|].
    split; [|apply NoDup_singleton].
    intros x Hx Hin. apply list_elem_of_singleton in Hin. subst. contradiction.
Qed.

Lemma load_roots_known ns : forall acc,
  NoDup (Map_keys (fst acc)) ->
  (forall r, r ∈ snd acc -> r ∈ Map_keys (fst acc)) ->
  NoDup (Map_keys (fst (foldl loadStep acc ns))) /\
  (forall r, r ∈ snd (foldl loadStep acc ns) -> r ∈ Map_keys (fst (foldl loadStep acc ns))).
Proof.
  induction ns as [|n ns IH]; intros acc Hnd Hacc; [auto|].
  cbn [foldl]. apply IH; unfold loadStep; cbn [fst snd].
  - apply Map_keys_set_NoDup, Hnd.
  - intros r Hr. destruct (truthy (parentId n)).
    + apply Map_keys_set_incl, Hacc, Hr.
    + apply elem_of_app in Hr as [Hr|Hr]; [apply Map_keys_set_incl, Hacc, Hr|].
      apply list_elem_of_singleton in Hr as ->.
      eapply Map_get_Some_key. apply Map_get_set_eq.
Qed.

Lemma sortRootNodes_known m l :
  (forall r, r ∈ l -> r ∈ Map_keys m) -> is_Some (sortRootNodes m l).
Proof.
  intros Hl. unfold sortRootNodes. destruct (length l <? 2)%nat; [eauto|].
  destruct (mapM (fun a => Map_get a m) l) as [ns|] eqn:E; [eauto|].
  assert (Hs : is_Some (mapM (fun a => Map_get a m) l)).
  { apply mapM_is_Some. rewrite Forall_forall. intros r Hr. simpl.
    destruct (Map_get r m) eqn:Er; [eauto|].
    apply Map_get_None_key in Er. exfalso. apply Er, Hl, Hr. }
  rewrite E in Hs. destruct Hs; discriminate.
Qed.



Lemma loadedNodes_lookup d k :
  db_wf d -> Map_get k (loadedNodes d) = nodeStore d !! k.
Proof.
  intros [Hn _]. unfold loadedNodes, db_getAllNodes.
  rewrite (load_lookup _ ([], []) ∅) by (intros k'; rewrite lookup_empty; reflexivity).
  rewrite (put_all_getAll id _ Hn). reflexivity.
Qed.

Lemma loadedNodes_NoDup d : NoDup (Map_keys (loadedNodes d)).
Proof.
  unfold loadedNodes.
  apply (load_roots_known (db_getAllNodes d) ([], [])); [apply NoDup_nil_2|].
  intros r Hr. inversion Hr.
Qed.



Lemma NoDup_fmap_inj_on {A B} (f : A -> B) (l : list A) x y :
  NoDup (f <$> l) -> x ∈ l -> y ∈ l -> f x = f y -> x = y.
Proof.
  induction l as [|a l IH]; intros Hnd Hx Hy E; [inversion Hx|].
  rewrite fmap_cons in Hnd. apply NoDup_cons in Hnd as [Ha Hnd].
  apply elem_of_cons in Hx as [->|Hx]; apply elem_of_cons in Hy as [->|Hy].
  - reflexivity.
  - exfalso. apply Ha. rewrite E. apply list_elem_of_fmap. eauto.
  - exfalso. apply Ha. rewrite <- E. apply list_elem_of_fmap. eauto.
  - apply IH; assumption.
Qed.


Lemma getChildren_sorted m p :
  StronglySorted (fun a b => byOrderIndex a b = true) (getChildren m p).
Proof. apply sortBy_sorted; [apply byOrderIndex_total | apply byOrderIndex_trans]. Qed.


Lemma vault_db_wf : db_wf (db vault).
Proof. split; apply (bool_decide_unpack _); vm_compute; reflexivity. Qed.


(** The round trip on the example vault: the snapshot carries the eight
    nodes and the three content records, and the reloaded store answers
    [getChildren] as before. *)
Example export_import_example :
  length (snap_nodes (exportVault "2024-01-15" vault)) = 8 /\
  length (snap_contents (exportVault "2024-01-15" vault)) = 3 /\
  (final <$> importVault 16 vault (exportVault "2024-01-15" vault)) ≫= (fun s =>
     Some (id <$> getChildren (nodes s) None, id <$> getChildren (nodes s) (Some "n1"),
           rootNodes s))
  = Some (["n1"; "n4"; "n7"], ["n2"], ["n1"; "n4"; "n7"]).
Proof. vm_compute. repeat split; reflexivity. Qed.

(** ** Parents are folders *)





Lemma wf_add m k node : wf m -> Map_get k m = None -> id node = k -> k <> "" ->
  wf (Map_set k node m).
Proof.
  intros [Hnd Hall] Hk Hid Hne. apply Map_get_None_key in Hk.
  rewrite Map_set_absent by exact Hk. split.
  - unfold Map_keys in *. rewrite fmap_app. apply NoDup_app. split; [exact Hnd|].
    split; [|apply NoDup_singleton].
    intros x Hx Hin. apply list_elem_of_singleton in Hin. subst. contradiction.
  - apply Forall_app. split; [exact Hall|]. constructor; [|constructor]. auto.
Qed.

Lemma tc_last {A} (R : relation A) x y : tc R x y -> exists z, R z y.
Proof. induction 1 as [x y H|x z y _ _ IH]; eauto. Qed.

Lemma acyclic_add m k node :
  acyclic m -> Map_get k m = None ->
  (forall k' n, Map_get k' m = Some n -> parentId n <> Some k) ->
  parentId node <> Some k ->
  acyclic (Map_set k node m).
Proof.
  intros Hac Hk Hnoref Hself x Hx.
  assert (Hkk : tc (parent_step (Map_set k node m)) k k).
  { destruct (reparent_tc_split _ _ _ _ _ Hx) as [H|[Hr Hc]]; [destruct (Hac x H)|].
    eapply tc_rtc_r; eauto. }
  destruct (tc_last _ _ _ Hkk) as (z & n & Hn & Hp & _).
  rewrite Map_get_set in Hn. case_decide; [congruence|]. exact (Hnoref z n Hn Hp).
Qed.


(** *** The three calls keep the invariants *)












(** The drop of [x] on the leaf [p1] puts it next to [p1], under [p]; the
    drop on an id the map does not hold changes nothing. *)
Example handleDrop_example :
  (fun c => parentId <$> getNode (final c) "x") <$> handleDrop 16 movedX (Some "x") "p1" 11
    = Some (Some (Some "p")) /\
  final <$> handleDrop 16 twoFolders (Some "q1") "ghost" 12 = Some twoFolders.
Proof. split; vm_compute; reflexivity. Qed.


(** ** Expansion, activity, content *)

(** X8.  [toggleExpanded(i)] flips what [isExpanded] answers for [i] and for
    no other id, emits [expansionChanged], and a second call restores the
    set of expanded ids. *)
Theorem toggleExpanded_flips st i j :
  isExpanded (fst (toggleExpanded st i)) j
  = (if decide (j = i) then negb (isExpanded st j) else isExpanded st j) /\
  snd (toggleExpanded st i) = [expansionChanged i] /\
  expandedNodes (fst (toggleExpanded (fst (toggleExpanded st i)) i)) = expandedNodes st.
Proof.
  unfold isExpanded, toggleExpanded; cbn.
  split; [|split; [reflexivity|]].
  - destruct (decide (j = i)) as [->|Hne].
    + destruct (decide (i ∈ expandedNodes st)) as [Hin|Hout].
      * rewrite (bool_decide_eq_true_2 (i ∈ expandedNodes st)) by exact Hin.
        apply bool_decide_eq_false_2.
        rewrite elem_of_difference, elem_of_singleton. tauto.
      * rewrite (bool_decide_eq_false_2 (i ∈ expandedNodes st)) by exact Hout.
        apply bool_decide_eq_true_2.
        rewrite elem_of_union, elem_of_singleton. tauto.
    + apply bool_decide_ext.
      destruct (decide (i ∈ expandedNodes st)).
      * rewrite elem_of_difference, elem_of_singleton. tauto.
      * rewrite elem_of_union, elem_of_singleton. tauto.
  - destruct (decide (i ∈ expandedNodes st)) as [Hin|Hout].
    + rewrite decide_False
        by (rewrite elem_of_difference, elem_of_singleton; tauto).
      apply leibniz_equiv. intros x.
      rewrite elem_of_union, elem_of_difference, elem_of_singleton.
      destruct (decide (x = i)) as [->|]; tauto.
    + rewrite decide_True
        by (rewrite elem_of_union, elem_of_singleton; tauto).
      apply leibniz_equiv. intros x.
      rewrite elem_of_difference, elem_of_union, elem_of_singleton.
      destruct (decide (x = i)) as [->|]; tauto.
Qed.

Lemma byUpdatedDesc_total a b : byUpdatedDesc a b = true \/ byUpdatedDesc b a = true.
Proof. unfold byUpdatedDesc. rewrite !Z.leb_le. lia. Qed.

Lemma byUpdatedDesc_trans a b c :
  byUpdatedDesc a b = true -> byUpdatedDesc b c = true -> byUpdatedDesc a c = true.
Proof. unfold byUpdatedDesc. rewrite !Z.leb_le. lia. Qed.

(** X7.  [getActiveNotes()] returns the active leaves of the map, each as
    often as the map holds it, most recently updated first; a folder is
    never among them, whatever its [active] flag. *)
Theorem getActiveNotes_spec st :
  getActiveNotes st
    ≡ₚ filter (fun n => type n = leaf /\ active n = true) (Map_values (nodes st)) /\
  StronglySorted (fun a b => (updatedAt b <= updatedAt a)%Z) (getActiveNotes st) /\
  (forall n, n ∈ getActiveNotes st -> type n = leaf /\ active n = true).
Proof.
  unfold getActiveNotes. split; [apply sortBy_perm|split].
  - eapply StronglySorted_weaken;
      [|apply sortBy_sorted; [apply byUpdatedDesc_total|apply byUpdatedDesc_trans]].
    intros a b H. apply Z.leb_le. exact H.
  - intros n Hn. apply elem_of_sortBy, list_elem_of_filter in Hn. tauto.
Qed.

Lemma updateNode_present fuel st i u now node :
  Map_get i (nodes st) = Some node -> u_name u = None ->
  updateNode fuel st i u now
  = Some (Some (mergeUpdates node u now),
          emit (ev_nodeUpdated (mergeUpdates node u now))
            (set_nodes (Map_set i (mergeUpdates node u now) (nodes st))
               (set_db (db_saveNode (mergeUpdates node u now) (db st)) st))).
Proof. intros Hg Hn. unfold updateNode. rewrite Hg, Hn. reflexivity. Qed.

Lemma toggleActive_leaf fuel st i now node :
  Map_get i (nodes st) = Some node -> type node = leaf ->
  toggleActive fuel st i now
  = Some (Some (toggled node now),
          emit (ev_nodeUpdated (toggled node now))
            (set_nodes (Map_set i (toggled node now) (nodes st))
               (set_db (db_saveNode (toggled node now) (db st)) st)),
          [activeChanged i]).
Proof.
  intros Hg Ht. unfold toggleActive. rewrite Hg, Ht.
  rewrite (updateNode_present _ _ _ _ _ node Hg) by reflexivity. reflexivity.
Qed.

(** X1.  [toggleActive] answers [null] and changes nothing for an unknown id
    and for a folder.  For a leaf it never runs out of fuel, returns the node
    with [active] negated and [updatedAt] set, stores it in the map and in
    the node object store under the same key, and leaves every other node,
    the key order, the content, the root list and the search index alone. *)
Theorem toggleActive_spec fuel st i now :
  match Map_get i (nodes st) with
  | Some node =>
      match type node with
      | leaf =>
          exists st',
            toggleActive fuel st i now
              = Some (Some (toggled node now), st', [activeChanged i]) /\
            Map_get i (nodes st') = Some (toggled node now) /\
            nodeStore (db st') !! id node = Some (toggled node now) /\
            (forall k, k <> i -> Map_get k (nodes st') = Map_get k (nodes st)) /\
            (forall k, k <> id node -> nodeStore (db st') !! k = nodeStore (db st) !! k) /\
            Map_keys (nodes st') = Map_keys (nodes st) /\
            contentStore (db st') = contentStore (db st) /\
            rootNodes st' = rootNodes st /\
            searchIndex st' = searchIndex st
      | folder => toggleActive fuel st i now = Some (None, st, [])
      end
  | None => toggleActive fuel st i now = Some (None, st, [])
  end.
Proof.
  destruct (Map_get i (nodes st)) as [node|] eqn:Hg;
    [|unfold toggleActive; rewrite Hg; reflexivity].
  destruct (type node) eqn:Ht;
    [unfold toggleActive; rewrite Hg, Ht; reflexivity|].
  rewrite (toggleActive_leaf _ _ _ _ _ Hg Ht).
  eexists. split; [reflexivity|]. cbn.
  split; [apply Map_get_set_eq|].
  split; [apply lookup_insert_eq|].
  split; [intros k Hk; apply Map_get_set_ne; exact Hk|].
  split; [intros k Hk; apply lookup_insert_ne; congruence|].
  split; [apply Map_keys_set_present; eapply Map_get_Some_key; exact Hg|].
  repeat split.
Qed.

(** X2.  Toggling a leaf twice gives back the node it was, but for
    [updatedAt], which is the time of the second call. *)
Theorem toggleActive_twice fuel st i now1 now2 node r1 st1 ns1 :
  Map_get i (nodes st) = Some node -> type node = leaf ->
  toggleActive fuel st i now1 = Some (r1, st1, ns1) ->
  exists st2,
    toggleActive fuel st1 i now2
      = Some (Some (mkNode (id node) (parentId node) (type node) (name node)
                      (orderIndex node) (active node) (createdAt node) now2),
              st2, [activeChanged i]).
Proof.
  intros Hg Ht H1.
  rewrite (toggleActive_leaf _ _ _ _ _ Hg Ht) in H1. inversion H1; subst; clear H1.
  eexists. rewrite (toggleActive_leaf _ _ _ _ (toggled node now1)).
  - unfold toggled; cbn. rewrite negb_involutive. reflexivity.
  - cbn. apply Map_get_set_eq.
  - exact Ht.
Qed.

Lemma toggleActive_twice_witness :
  exists st2,
    toggleActive 16 (snd (fst (default (None, twoFolders, []) (toggleActive 16 twoFolders "p1" 20)))) "p1" 21
    = Some (Some (mkNode "p1" (Some "p") leaf "P1" 0 false 3 21), st2, [activeChanged "p1"]).
Proof.
  apply (toggleActive_twice 16 twoFolders "p1" 20 21
           (mkNode "p1" (Some "p") leaf "P1" 0 false 3 3)
           (Some (toggled (mkNode "p1" (Some "p") leaf "P1" 0 false 3 3) 20))
           _ [activeChanged "p1"]).
  - vm_compute. reflexivity.
  - reflexivity.
  - vm_compute. reflexivity.
Defined.

Lemma getContent_nodeId d i now : db_wf d -> nodeId (db_getContent i now d) = i.
Proof.
  intros [_ Hc]. unfold db_getContent.
  destruct (contentStore d !! i) as [c|] eqn:E; [|reflexivity].
  exact (Hc _ _ E).
Qed.

(** X3.  An edit of the selected node's content is written under that node's
    id and read back: after [selectNode(i)] and [updateContent(updates)],
    with no [nodeId] among the updates, the current content, the record the
    database returns for [i] and what the next [selectNode(i)] loads are all
    the merged record; no other content record and no node changes.  Nothing
    asks [i] to be a leaf or a node at all. *)
Theorem updateContent_read_back fuel st i u now1 now2 now3 :
  db_wf (db st) -> i <> "" -> c_nodeId u = None ->
  c_tags u = None \/ (acyclic (nodes st) /\ length (nodes st) <= fuel) ->
  let edited := mergeContent (db_getContent i now1 (db st)) u now2 in
  exists st2,
    updateContent fuel (selectNode st (Some i) now1) u now2
      = Some (st2, [contentChanged edited]) /\
    currentContent st2 = Some edited /\
    db_getContent i now3 (db st2) = edited /\
    currentContent (selectNode st2 (Some i) now3) = Some edited /\
    (forall k, k <> i -> contentStore (db st2) !! k = contentStore (db st) !! k) /\
    nodeStore (db st2) = nodeStore (db st) /\
    nodes st2 = nodes st.
Proof.
  intros Hdb Hi Hu Hfuel edited.
  assert (Hk : nodeId edited = i).
  { unfold edited, mergeContent; cbn. rewrite Hu; cbn. apply getContent_nodeId, Hdb. }
  assert (Ht : truthy_string i = true) by (apply truthy_string_ne; exact Hi).
  unfold updateContent, selectNode. rewrite Ht. cbn. rewrite Ht.
  fold edited.
  set (st2 := set_selection (Some i) (Some edited)
                (set_db (db_saveContent edited (db st))
                   (emit (ev_selectionChanged (Some i))
                      (set_selection (Some i)
                         (Some (db_getContent i now1 (db st))) st)))).
  assert (Hres : forall s, (exists idx, s = set_searchIndex idx st2) \/ s = st2 ->
            currentContent s = Some edited /\
            db_getContent i now3 (db s) = edited /\
            currentContent
              (emit (ev_selectionChanged (Some i))
                 (set_selection (Some i) (Some (db_getContent i now3 (db s))) s))
              = Some edited /\
            (forall k, k <> i -> contentStore (db s) !! k = contentStore (db st) !! k) /\
            nodeStore (db s) = nodeStore (db st) /\
            nodes s = nodes st).
  { intros s Hs.
    assert (E : db s = db_saveContent edited (db st) /\ currentContent s = Some edited
                /\ nodes s = nodes st)
      by (destruct Hs as [[idx ->]| ->]; repeat split).
    destruct E as (Ed & Ec & En).
    assert (G : db_getContent i now3 (db s) = edited).
    { rewrite Ed. unfold db_getContent, db_saveContent. cbn [contentStore].
      rewrite Hk, lookup_insert_eq. reflexivity. }
    split; [exact Ec|]. split; [exact G|].
    split; [cbn; rewrite G; reflexivity|].
    split; [|split; [rewrite Ed; reflexivity|exact En]].
    intros k Hne. rewrite Ed. unfold db_saveContent. cbn [contentStore].
    rewrite Hk. apply lookup_insert_ne. congruence. }
  destruct (c_tags u) as [t|] eqn:Etags.
  - destruct Hfuel as [Hfuel|[Hac Hlen]]; [discriminate|].
    destruct (rebuildIndex_total st2 fuel Hac Hlen) as [idx Hidx].
    rewrite Hidx. eexists. split; [reflexivity|].
    apply Hres. left. eexists. reflexivity.
  - exists st2. split; [reflexivity|]. apply Hres. right. reflexivity.
Qed.

Lemma twoFolders_db_wf : db_wf (db twoFolders).
Proof. split; apply (bool_decide_unpack _); vm_compute; reflexivity. Qed.

Lemma updateContent_read_back_witness :
  exists st2,
    updateContent 16 (selectNode twoFolders (Some "p1") 30)
      (mkContentUpdates None None (Some "# Notes") None (Some ["npc"]) None) 31
      = Some (st2, [contentChanged (mkContent "p1" (getDefaultIcon None) "# Notes" [] ["npc"] [] 31)]) /\
    currentContent st2 = Some (mkContent "p1" (getDefaultIcon None) "# Notes" [] ["npc"] [] 31) /\
    db_getContent "p1" 32 (db st2) = mkContent "p1" (getDefaultIcon None) "# Notes" [] ["npc"] [] 31 /\
    currentContent (selectNode st2 (Some "p1") 32)
      = Some (mkContent "p1" (getDefaultIcon None) "# Notes" [] ["npc"] [] 31) /\
    (forall k, k <> "p1" -> contentStore (db st2) !! k = contentStore (db twoFolders) !! k) /\
    nodeStore (db st2) = nodeStore (db twoFolders) /\
    nodes st2 = nodes twoFolders.
Proof.
  pose proof twoFolders_db_wf as H1.
  assert (H2 : "p1" <> "") by discriminate.
  assert (H3 : acyclic (nodes twoFolders) /\ length (nodes twoFolders) <= 16).
  { split; [apply twoFolders_acyclic|vm_compute; lia]. }
  pose proof (updateContent_read_back 16 twoFolders "p1"
                (mkContentUpdates None None (Some "# Notes") None (Some ["npc"]) None)
                30 31 32 H1 H2 eq_refl (or_intror H3)) as H.
  exact H.
Defined.

(** ** What each mutation writes *)

Lemma createNode_fields fuel st args newId now node st' :
  createNode fuel st args newId now = Some (node, st') ->
  node = createdNode st args newId now /\
  nodes st' = Map_set newId node (nodes st) /\
  nodeStore (db st') = <[newId := node]> (nodeStore (db st)) /\
  (match a_type args with
   | leaf => contentStore (db st')
             = <[newId := createdContent args newId now]> (contentStore (db st))
   | folder => contentStore (db st') = contentStore (db st)
   end) /\
  rootNodes st'
  = (if truthy (a_parentId args) then rootNodes st else rootNodes st ++ [newId]) /\
  selectedNodeId st' = selectedNodeId st /\
  currentContent st' = currentContent st /\
  expandedNodes st' = expandedNodes st.
Proof.
  unfold createNode. fold (createdNode st args newId now).
  destruct (rebuildIndex _ _) as [st5|] eqn:E; [|discriminate].
  intros [= <- <-]. apply rebuildIndex_Some in E as [idx ->].
  split; [reflexivity|].
  destruct (a_type args), (truthy (a_parentId args)); cbn;
    repeat (split; try reflexivity).
Qed.

Lemma updateNode_fields fuel st i u now node r st' :
  Map_get i (nodes st) = Some node ->
  updateNode fuel st i u now = Some (r, st') ->
  r = Some (mergeUpdates node u now) /\
  nodes st' = Map_set i (mergeUpdates node u now) (nodes st) /\
  db st' = db_saveNode (mergeUpdates node u now) (db st) /\
  rootNodes st' = rootNodes st /\
  selectedNodeId st' = selectedNodeId st /\
  currentContent st' = currentContent st /\
  expandedNodes st' = expandedNodes st.
Proof.
  intros Hg. unfold updateNode. rewrite Hg.
  destruct (u_name u).
  - destruct (rebuildIndex _ _) as [st3|] eqn:E; [|discriminate].
    apply rebuildIndex_Some in E as [idx ->]. intros [= <- <-]. repeat split.
  - intros [= <- <-]. repeat split.
Qed.

Lemma sortRootNodes_perm m l l' : sortRootNodes m l = Some l' -> l' ≡ₚ l.
Proof.
  unfold sortRootNodes. destruct (length l <? 2)%nat; [intros [= <-]; reflexivity|].
  destruct (mapM _ l) as [ns|] eqn:E; [|discriminate]. intros [= <-].
  apply length_mapM in E.
  rewrite (sortBy_perm _ (zip l ns)). rewrite fst_zip by lia. reflexivity.
Qed.

Lemma moveNode_fields fuel st i p now c node :
  Map_get i (nodes st) = Some node -> moveNode fuel st i p now = Some c ->
  c = Thrown CycleError st \/
  (nodes (final c) = Map_set i (movedNode node (nodes st) p now) (nodes st) /\
   db (final c) = db_saveNode (movedNode node (nodes st) p now) (db st) /\
   rootNodes (final c)
     ≡ₚ (if truthy p then rootsWithout st i node else rootsWithout st i node ++ [i]) /\
   selectedNodeId (final c) = selectedNodeId st /\
   currentContent (final c) = currentContent st /\
   expandedNodes (final c) = expandedNodes st).
Proof.
  intros Hn. unfold moveNode. rewrite Hn.
  destruct (isDescendant fuel (nodes st) p i) as [[|]|]; [|..].
  - intros [= <-]. left. reflexivity.
  - fold (movedNode node (nodes st) p now).
    set (upd := movedNode node (nodes st) p now).
    intros H. right. unfold rootsWithout.
    destruct (truthy p).
    + match type of H with context [rebuildIndex ?f ?s] =>
        destruct (rebuildIndex f s) as [st5|] eqn:E; [|discriminate] end.
      apply rebuildIndex_Some in E as [idx ->]. injection H as <-.
      destruct (truthy (parentId node)); repeat split; reflexivity.
    + match type of H with context [sortRootNodes ?a ?b] =>
        destruct (sortRootNodes a b) as [sorted|] eqn:Es end.
      * match type of H with context [rebuildIndex ?f ?s] =>
          destruct (rebuildIndex f s) as [st5|] eqn:E; [|discriminate] end.
        apply rebuildIndex_Some in E as [idx ->]. injection H as <-.
        apply sortRootNodes_perm in Es.
        destruct (truthy (parentId node)); repeat split; try reflexivity; exact Es.
      * injection H as <-.
        destruct (truthy (parentId node)); repeat split; reflexivity.
  - discriminate.
Qed.

(** ** Induction over [deleteNode] and over the renumbering loop *)

Lemma deleteNode_sub fuel st i st' k n :
  deleteNode fuel st i = Some st' ->
  Map_get k (nodes st') = Some n -> Map_get k (nodes st) = Some n.
Proof.
  intros H. apply deleteNode_filter in H as [gone ->].
  rewrite Map_get_filter_gone. case_decide; [discriminate|auto].
Qed.

Lemma deleteLoop_sub f cs : forall st st1 k n,
  foldl (deleteStep f) (Some st) cs = Some st1 ->
  Map_get k (nodes st1) = Some n -> Map_get k (nodes st) = Some n.
Proof.
  induction cs as [|c cs IH]; intros st st1 k n E Hk.
  - simpl in E. injection E as <-. exact Hk.
  - cbn [foldl deleteStep] in E.
    destruct (deleteNode f st (id c)) as [st2|] eqn:E2;
      [|rewrite deleteStep_None in E; discriminate].
    eapply deleteNode_sub; [exact E2|]. eapply IH; eauto.
Qed.

(** A relation between the store before and after that holds across every
    single removal holds across [deleteNode]. *)
Lemma deleteNode_rel (R : Store -> Store -> Prop) :
  (forall st, R st st) ->
  (forall a b c, R a b -> R b c -> R a c) ->
  (forall st1 i node idx,
     (forall n, Map_get i (nodes st1) = Some n -> n = node) ->
     R st1 (emit ev_nodesChanged (emit (ev_nodeDeleted i)
              (set_searchIndex idx (deleteSelf st1 i node))))) ->
  forall fuel st i st', deleteNode fuel st i = Some st' -> R st st'.
Proof.
  intros Hrefl Htrans Hstep.
  induction fuel as [|f IHf]; intros st i st' H.
  - simpl in H. destruct (Map_get i (nodes st)); [discriminate|].
    injection H as <-. apply Hrefl.
  - rewrite deleteNode_unfold in H.
    destruct (Map_get i (nodes st)) as [node|] eqn:Hi;
      [|injection H as <-; apply Hrefl].
    destruct (foldl _ _ _) as [st1|] eqn:Hloop; [|discriminate].
    destruct (rebuildIndex _ _) as [st6|] eqn:E; [|discriminate].
    apply rebuildIndex_Some in E as [idx ->]. injection H as <-.
    assert (Hl : forall cs a b, foldl (deleteStep f) (Some a) cs = Some b -> R a b).
    { induction cs as [|c cs IH]; intros a b E.
      - simpl in E. injection E as <-. apply Hrefl.
      - cbn [foldl deleteStep] in E.
        destruct (deleteNode f a (id c)) as [a2|] eqn:E2;
          [|rewrite deleteStep_None in E; discriminate].
        eapply Htrans; [eapply IHf; exact E2|]. apply IH. exact E. }
    eapply Htrans; [eapply Hl; exact Hloop|].
    apply Hstep. intros n Hn.
    pose proof (deleteLoop_sub _ _ _ _ _ _ Hloop Hn) as Hn'. congruence.
Qed.

(** A property that survives the writing of a sibling with a new
    [orderIndex] survives the renumbering loop. *)
Lemma renumber_keeps (P : Store -> Prop) now p :
  (forall st s s',
     P st ->
     (exists s0, Map_get (id s) (nodes st) = Some s0 /\ parentId s0 = p) ->
     id s' = id s -> parentId s' = p -> type s' = type s ->
     P (set_nodes (Map_set (id s') s' (nodes st)) (set_db (db_saveNode s' (db st)) st))) ->
  forall l j st,
    (forall s, s ∈ l ->
       parentId s = p /\
       exists s0, Map_get (id s) (nodes st) = Some s0 /\ parentId s0 = p) ->
    P st -> P (renumber now j l st).
Proof.
  intros Hstep. induction l as [|s r IH]; intros j st Hl HP; [exact HP|].
  cbn [renumber].
  destruct (Hl s ltac:(left)) as [Hsp Hs0].
  destruct (decide (orderIndex s = Z.of_nat j)) as [Ho|Ho].
  - apply IH; [|exact HP]. intros x Hx. apply Hl. right. exact Hx.
  - apply IH.
    + intros x Hx. destruct (Hl x ltac:(right; exact Hx)) as [Hxp (x0 & Hx0 & Hx0p)].
      split; [exact Hxp|]. cbn [nodes set_nodes set_db id].
      rewrite Map_get_set. case_decide; [eexists; split; [reflexivity|exact Hsp]|].
      eauto.
    + apply (Hstep st s); auto.
Qed.

Lemma reorderNode_keeps (P : Store -> Prop) st i newIndex now :
  (forall st e, P st -> P (emit e st)) ->
  (forall p st s s',
     P st ->
     (exists s0, Map_get (id s) (nodes st) = Some s0 /\ parentId s0 = p) ->
     id s' = id s -> parentId s' = p -> type s' = type s ->
     P (set_nodes (Map_set (id s') s' (nodes st)) (set_db (db_saveNode s' (db st)) st))) ->
  wf (nodes st) -> P st -> P (reorderNode st i newIndex now).
Proof.
  intros Hemit Hstep Hwf HP. unfold reorderNode.
  destruct (Map_get i (nodes st)) as [node|] eqn:Hi; [|exact HP].
  destruct (findIndex i _) as [j|] eqn:Ef; [|exact HP].
  case_decide; [exact HP|].
  apply Hemit. apply (renumber_keeps P now (parentId node) (Hstep (parentId node))); [|exact HP].
  intros s Hs.
  apply findIndex_Some in Ef as (s1 & Hs1 & Hid).
  rewrite splice_insert_perm in Hs. apply elem_of_cons in Hs as [->|Hs].
  - split; [reflexivity|]. exists node. split; [|reflexivity].
    destruct (wf_key_id _ _ _ Hwf Hi) as [-> _]. exact Hi.
  - assert (Hin : s ∈ getChildren (nodes st) (parentId node)).
    { rewrite <- (splice_remove_perm _ _ _ Hs1). right. exact Hs. }
    apply elem_of_getChildren in Hin as [Hin Hp].
    split; [exact Hp|]. exists s. split; [|exact Hp].
    apply wf_value_get; assumption.
Qed.

(** ** Induction over [duplicateNode] *)

Lemma duplicateNodeRecursive_unfold f st i np supply :
  duplicateNodeRecursive (S f) st i np supply =
  match Map_get i (nodes st) with
  | None => Some (Thrown TypeError st)
  | Some node =>
      match supply with
      | [] => None
      | (newId, now) :: rest =>
          match createNode (S f) st (copyArgs (name node) (type node) (Some np)) newId now with
          | None => None
          | Some (newNode, st1) =>
              foldl (duplicateStep f (id newNode))
                (Some (Returned rest (copied st1 node i (id newNode) now)))
                (getChildren (nodes (copied st1 node i (id newNode) now)) (Some i))
          end
      end
  end.
Proof. reflexivity. Qed.

Lemma duplicateNode_unfold fuel st i supply :
  duplicateNode fuel st i supply =
  match Map_get i (nodes st) with
  | None => Some (Returned None st)
  | Some node =>
      match supply with
      | [] => None
      | (newId, now) :: rest =>
          match
            createNode fuel st
              (copyArgs (String.append (name node) " (Copy)") (type node) (parentId node))
              newId now
          with
          | None => None
          | Some (newNode, st1) =>
              match
                foldl (duplicateStep fuel (id newNode))
                  (Some (Returned rest (copied st1 node i (id newNode) now)))
                  (getChildren (nodes (copied st1 node i (id newNode) now)) (Some i))
              with
              | None => None
              | Some (Thrown msg s) => Some (Thrown msg s)
              | Some (Returned _ s) => Some (Returned (Some newNode) s)
              end
          end
      end
  end.
Proof. reflexivity. Qed.

Lemma duplicateStep_None f np cs : foldl (duplicateStep f np) None cs = None.
Proof. induction cs as [|c r IH]; [reflexivity|exact IH]. Qed.

Lemma duplicateStep_Thrown f np msg s cs :
  foldl (duplicateStep f np) (Some (Thrown msg s)) cs = Some (Thrown msg s).
Proof. induction cs as [|c r IH]; [reflexivity|exact IH]. Qed.

Lemma nodes_copied st node i newId now : nodes (copied st node i newId now) = nodes st.
Proof. unfold copied. destruct (type node); reflexivity. Qed.

Lemma fresh_tail m newId now rest node :
  fresh m ((newId, now) :: rest) -> fresh (Map_set newId node m) rest.
Proof.
  intros [Hnd Hall]. rewrite fmap_cons in Hnd. apply NoDup_cons in Hnd as [Hni Hnd].
  apply Forall_cons in Hall as [_ Hall]. split; [exact Hnd|].
  apply Forall_forall. intros x Hx. rewrite Forall_forall in Hall.
  destruct (Hall x Hx) as [Hg Hne]. split; [|exact Hne].
  rewrite Map_get_set_ne; [exact Hg|]. intros E. apply Hni.
  apply list_elem_of_fmap. exists x. auto.
Qed.

Section DuplicateKeeps.
Variable P : Store -> Prop.
Hypothesis P_create : forall fuel st args newId now node st',
  wf (nodes st) -> P st -> Map_get newId (nodes st) = None -> newId <> "" ->
  createNode fuel st args newId now = Some (node, st') -> P st'.
Hypothesis P_copy : forall st from newId now,
  P st -> Map_get newId (nodes st) <> None -> P (copyContent st from newId now).

Lemma created_keeps fuel st args newId now rest node st1 nd i :
  wf (nodes st) -> P st -> fresh (nodes st) ((newId, now) :: rest) ->
  createNode fuel st args newId now = Some (node, st1) ->
  id node = newId /\
  wf (nodes (copied st1 nd i (id node) now)) /\
  P (copied st1 nd i (id node) now) /\
  fresh (nodes (copied st1 nd i (id node) now)) rest.
Proof.
  intros Hwf HP Hfr Hc.
  pose proof Hfr as [_ Hall]. apply Forall_cons in Hall as [[Hg Hne] _]. cbn in Hg, Hne.
  pose proof (P_create _ _ _ _ _ _ _ Hwf HP Hg Hne Hc) as HP1.
  apply createNode_fields in Hc as (-> & Hn & _).
  split; [reflexivity|]. cbn [createdNode id]. rewrite nodes_copied, Hn.
  split; [apply wf_add; auto|].
  split; [|eapply fresh_tail; exact Hfr].
  unfold copied. destruct (type nd); [exact HP1|].
  apply P_copy; [exact HP1|]. rewrite Hn, Map_get_set_eq. discriminate.
Qed.

Lemma duplicateLoop_keeps f np :
  (forall st i np supply c,
     wf (nodes st) -> P st -> fresh (nodes st) supply ->
     duplicateNodeRecursive f st i np supply = Some c ->
     wf (nodes (final c)) /\ P (final c) /\ fresh (nodes (final c)) (leftover c)) ->
  forall cs st supply c,
    wf (nodes st) -> P st -> fresh (nodes st) supply ->
    foldl (duplicateStep f np) (Some (Returned supply st)) cs = Some c ->
    wf (nodes (final c)) /\ P (final c) /\ fresh (nodes (final c)) (leftover c).
Proof.
  intros IHf. induction cs as [|ch cs IH]; intros st supply c Hwf HP Hfr E.
  - simpl in E. injection E as <-. auto.
  - cbn [foldl duplicateStep] in E.
    destruct (duplicateNodeRecursive f st (id ch) np supply) as [[sup s|msg s]|] eqn:E2.
    + destruct (IHf _ _ _ _ _ Hwf HP Hfr E2) as (H1 & H2 & H3). eapply IH; eauto.
    + rewrite duplicateStep_Thrown in E. injection E as <-.
      exact (IHf _ _ _ _ _ Hwf HP Hfr E2).
    + rewrite duplicateStep_None in E. discriminate.
Qed.

Lemma duplicateNodeRecursive_keeps : forall fuel st i np supply c,
  wf (nodes st) -> P st -> fresh (nodes st) supply ->
  duplicateNodeRecursive fuel st i np supply = Some c ->
  wf (nodes (final c)) /\ P (final c) /\ fresh (nodes (final c)) (leftover c).
Proof.
  induction fuel as [|f IHf]; intros st i np supply c Hwf HP Hfr H.
  - simpl in H. destruct (Map_get i (nodes st)); [discriminate|].
    injection H as <-. split; [exact Hwf|split; [exact HP|split; constructor]].
  - rewrite duplicateNodeRecursive_unfold in H.
    destruct (Map_get i (nodes st)) as [node|] eqn:Hi.
    2:{ injection H as <-. split; [exact Hwf|split; [exact HP|split; constructor]]. }
    destruct supply as [|[newId now] rest]; [discriminate|].
    destruct (createNode _ _ _ _ _) as [[newNode st1]|] eqn:Hc; [|discriminate].
    destruct (created_keeps _ _ _ _ _ _ _ _ node i Hwf HP Hfr Hc) as (_ & H1 & H2 & H3).
    eapply duplicateLoop_keeps; eauto.
Qed.

Lemma duplicateNode_keeps fuel st i supply c :
  wf (nodes st) -> P st -> fresh (nodes st) supply ->
  duplicateNode fuel st i supply = Some c ->
  wf (nodes (final c)) /\ P (final c).
Proof.
  intros Hwf HP Hfr H. rewrite duplicateNode_unfold in H.
  destruct (Map_get i (nodes st)) as [node|] eqn:Hi; [|injection H as <-; auto].
  destruct supply as [|[newId now] rest]; [discriminate|].
  destruct (createNode _ _ _ _ _) as [[newNode st1]|] eqn:Hc; [|discriminate].
  destruct (created_keeps _ _ _ _ _ _ _ _ node i Hwf HP Hfr Hc) as (_ & H1 & H2 & H3).
  destruct (foldl _ _ _) as [c1|] eqn:Hloop; [|discriminate].
  destruct (duplicateLoop_keeps fuel _ (duplicateNodeRecursive_keeps fuel) _ _ _ _ H1 H2 H3 Hloop)
    as (W & Q & _).
  destruct c1; injection H as <-; auto.
Qed.
End DuplicateKeeps.

(** ** Consistency of the store across the calls of its interface *)

Lemma updateContent_fields fuel st u now st' ns :
  updateContent fuel st u now = Some (st', ns) ->
  st' = st \/
  exists content s,
    currentContent st = Some content /\ selectedNodeId st = Some s /\ s <> "" /\
    nodes st' = nodes st /\
    db st' = db_saveContent (mergeContent content u now) (db st) /\
    rootNodes st' = rootNodes st /\
    selectedNodeId st' = selectedNodeId st /\
    currentContent st' = Some (mergeContent content u now).
Proof.
  unfold updateContent.
  destruct (currentContent st) as [content|] eqn:Ec; [|intros [= <- <-]; left; reflexivity].
  destruct (truthy (selectedNodeId st)) eqn:Et; [|intros [= <- <-]; left; reflexivity].
  apply truthy_Some in Et as (s & Es & Hs).
  intros H. right. exists content, s. split; [reflexivity|]. split; [exact Es|].
  split; [exact Hs|].
  destruct (c_tags u).
  - destruct (rebuildIndex _ _) as [st3|] eqn:E; [|discriminate].
    apply rebuildIndex_Some in E as [idx ->]. injection H as <- <-. repeat split.
  - injection H as <- <-. repeat split.
Qed.

Lemma Map_get_set_known {V} k k' (v : V) m :
  Map_get k m <> None -> Map_get k (Map_set k' v m) <> None.
Proof. rewrite Map_get_set. case_decide; [discriminate|auto]. Qed.

Lemma wf_put m k n : wf m -> id n = k -> k <> "" -> wf (Map_set k n m).
Proof.
  intros Hwf Hid Hk. destruct (Map_get k m) as [n0|] eqn:E.
  - apply wf_set; [exact Hwf| |exact Hid]. eapply Map_get_Some_key; exact E.
  - apply wf_add; assumption.
Qed.

Lemma unknown_call fuel st c st' :
  call fuel st c = Some st' ->
  match c with
  | call_updateNode i _ _ | call_moveNode i _ _ | call_toggleActive i _ =>
      Map_get i (nodes st) = None -> st' = st
  | _ => True
  end.
Proof.
  destruct c; try exact (fun _ => I); cbn [call]; intros H Hn.
  - unfold updateNode in H. rewrite Hn in H. injection H as <-. reflexivity.
  - unfold moveNode in H. rewrite Hn in H. injection H as <-. reflexivity.
  - unfold toggleActive in H. rewrite Hn in H. injection H as <-. reflexivity.
Qed.

(** What [moveNode] and [toggleActive] leave: the node [n] under its key
    [i], in the map and in the node object store, the content and the
    selection alone; [n] has the id of the node it replaces. *)
Lemma rewriting_call fuel st c st' i node :
  wf (nodes st) -> call fuel st c = Some st' ->
  match c with
  | call_moveNode j _ _ | call_toggleActive j _ => j = i
  | _ => False
  end ->
  Map_get i (nodes st) = Some node ->
  st' = st \/
  (exists n,
     id n = i /\
     nodes st' = Map_set i n (nodes st) /\
     db st' = db_saveNode n (db st) /\
     selectedNodeId st' = selectedNodeId st /\
     currentContent st' = currentContent st /\
     rootNodes st'
       ≡ₚ (if truthy (parentId n) then rootsWithout st i node
           else rootsWithout st i node ++ [i])) \/
  exists n,
    id n = i /\ truthy (parentId n) = truthy (parentId node) /\
    nodes st' = Map_set i n (nodes st) /\
    db st' = db_saveNode n (db st) /\
    selectedNodeId st' = selectedNodeId st /\
    currentContent st' = currentContent st /\
    rootNodes st' = rootNodes st.
Proof.
  intros Hwf H Hc Hi. destruct (wf_key_id _ _ _ Hwf Hi) as [Hid Hne].
  destruct c; try contradiction; subst i0; cbn [call] in H.
  - destruct (moveNode _ _ _ _ _) as [cpl|] eqn:E; [|discriminate].
    injection H as <-. apply (moveNode_fields _ _ _ _ _ _ node) in E; [|exact Hi].
    destruct E as [->|(Hn & Hd & Hr & Hs & Hcc & _)]; [left; reflexivity|].
    right. left. exists (movedNode node (nodes st) newParentId now).
    cbn [movedNode id parentId]. auto 10.
  - destruct (type node) eqn:Ht.
    + unfold toggleActive in H. rewrite Hi, Ht in H. injection H as <-.
      left. reflexivity.
    + rewrite (toggleActive_leaf _ _ _ _ _ Hi Ht) in H. injection H as <-.
      right. right. exists (toggled node now). cbn. auto 10.
Qed.

Lemma mirrors_put st st' k n :
  mirrors st -> nodes st' = Map_set k n (nodes st) ->
  nodeStore (db st') = <[k := n]> (nodeStore (db st)) -> mirrors st'.
Proof.
  intros M Hn Hd x. rewrite Hn, Hd, Map_get_set.
  case_decide; [subst; rewrite lookup_insert_eq; reflexivity|].
  rewrite lookup_insert_ne by congruence. apply M.
Qed.

Lemma mirrors_same st st' :
  mirrors st -> nodes st' = nodes st -> nodeStore (db st') = nodeStore (db st) ->
  mirrors st'.
Proof. intros M Hn Hd x. rewrite Hn, Hd. apply M. Qed.

Lemma roots_known st k : roots_ok st -> k ∈ rootNodes st -> Map_get k (nodes st) <> None.
Proof. intros [_ H] Hk. apply H in Hk as (n & -> & _). discriminate. Qed.

Lemma filter_ne_absent (l : list string) k : k ∉ l -> filter (fun r => r <> k) l = l.
Proof. intros H. apply filter_all. intros a Ha ->. contradiction. Qed.

Lemma filter_ne_present (l : list string) k :
  NoDup l -> k ∈ l -> l ≡ₚ filter (fun r => r <> k) l ++ [k].
Proof.
  induction 1 as [|x l Hx Hnd IH]; [inversion 1|].
  intros Hk. rewrite filter_cons. apply elem_of_cons in Hk as [->|Hk].
  - rewrite decide_False by auto. rewrite filter_ne_absent by exact Hx.
    apply Permutation_cons_append.
  - rewrite decide_True by (intros ->; contradiction). cbn. f_equiv. apply IH, Hk.
Qed.

Lemma roots_ok_put st st' k n :
  roots_ok st -> nodes st' = Map_set k n (nodes st) ->
  rootNodes st'
    ≡ₚ (if truthy (parentId n) then filter (fun r => r <> k) (rootNodes st)
        else filter (fun r => r <> k) (rootNodes st) ++ [k]) ->
  roots_ok st'.
Proof.
  intros [Hnd Hr] Hn Hp.
  assert (Hf : NoDup (filter (fun r => r <> k) (rootNodes st))) by (apply NoDup_filter, Hnd).
  assert (Hk : k ∉ filter (fun r => r <> k) (rootNodes st)).
  { rewrite list_elem_of_filter. tauto. }
  split.
  - rewrite Hp. destruct (truthy (parentId n)); [exact Hf|].
    apply NoDup_app. split; [exact Hf|]. split; [|apply NoDup_singleton].
    intros x Hx Hx'. apply list_elem_of_singleton in Hx' as ->. contradiction.
  - intros x. rewrite Hp, Hn, Map_get_set.
    destruct (decide (x = k)) as [->|Hne].
    + destruct (truthy (parentId n)) eqn:Et.
      * split; [contradiction|]. intros (n' & [= <-] & Hn'). congruence.
      * split; [eauto|]. intros _. apply elem_of_app. right. left.
    + rewrite <- Hr.
      destruct (truthy (parentId n));
        [|rewrite elem_of_app, list_elem_of_singleton];
        rewrite list_elem_of_filter; tauto.
Qed.

Lemma roots_without st k node :
  roots_ok st -> Map_get k (nodes st) = Some node ->
  rootsWithout st k node = filter (fun r => r <> k) (rootNodes st).
Proof.
  intros [_ Hr] Hk. unfold rootsWithout.
  destruct (truthy (parentId node)) eqn:Et; [|reflexivity].
  symmetry. apply filter_ne_absent. intros Hin.
  apply Hr in Hin as (n & Hn & Hf). congruence.
Qed.

Lemma roots_same_perm st k node n :
  roots_ok st -> Map_get k (nodes st) = Some node ->
  truthy (parentId n) = truthy (parentId node) ->
  rootNodes st
    ≡ₚ (if truthy (parentId n) then filter (fun r => r <> k) (rootNodes st)
        else filter (fun r => r <> k) (rootNodes st) ++ [k]).
Proof.
  intros Hok Hk ->. pose proof Hok as [Hnd Hr].
  destruct (truthy (parentId node)) eqn:Et.
  - rewrite <- (roots_without st k node Hok Hk). unfold rootsWithout. rewrite Et.
    reflexivity.
  - apply filter_ne_present; [exact Hnd|]. apply Hr. eauto.
Qed.

Lemma roots_ok_same st st' :
  roots_ok st -> nodes st' = nodes st -> rootNodes st' = rootNodes st -> roots_ok st'.
Proof. intros H Hn Hr. unfold roots_ok. rewrite Hn, Hr. exact H. Qed.

Lemma attached_grow st st' :
  attached st ->
  (forall k, Map_get k (nodes st) <> None -> Map_get k (nodes st') <> None) ->
  selectedNodeId st' = selectedNodeId st -> currentContent st' = currentContent st ->
  (forall k c, contentStore (db st') !! k = Some c ->
     contentStore (db st) !! k = Some c \/
     (nodeId c = k /\ Map_get k (nodes st') <> None)) ->
  attached st'.
Proof.
  intros (A1 & A2 & A3) Hg Hs Hc Hd. unfold attached. rewrite Hs, Hc.
  split; [intros s E; apply Hg, A1, E|]. split; [exact A2|].
  intros k c E. destruct (Hd k c E) as [E'|E']; [|exact E'].
  destruct (A3 k c E') as [? ?]. auto.
Qed.

(** *** One removal *)

Lemma removal_fields st1 i node idx :
  let st' := emit ev_nodesChanged (emit (ev_nodeDeleted i)
               (set_searchIndex idx (deleteSelf st1 i node))) in
  nodes st' = Map_delete i (nodes st1) /\
  db st' = db_deleteNode i (db st1) /\
  rootNodes st'
  = (if truthy (parentId node) then rootNodes st1
     else filter (fun r => r <> i) (rootNodes st1)) /\
  selectedNodeId st'
  = (if decide (selectedNodeId st1 = Some i) then None else selectedNodeId st1) /\
  currentContent st'
  = (if decide (selectedNodeId st1 = Some i) then None else currentContent st1).
Proof.
  cbn. unfold deleteSelf.
  destruct (truthy (parentId node)); cbn; case_decide; cbn; repeat split.
Qed.

Lemma removal_mirrors st1 i node idx :
  mirrors st1 ->
  mirrors (emit ev_nodesChanged (emit (ev_nodeDeleted i)
             (set_searchIndex idx (deleteSelf st1 i node)))).
Proof.
  intros M x. destruct (removal_fields st1 i node idx) as (-> & -> & _).
  rewrite Map_get_delete. cbn. case_decide.
  - subst. rewrite lookup_delete_eq. reflexivity.
  - rewrite lookup_delete_ne by congruence. apply M.
Qed.

Lemma removal_roots st1 i node idx :
  (forall n, Map_get i (nodes st1) = Some n -> n = node) ->
  roots_ok st1 ->
  roots_ok (emit ev_nodesChanged (emit (ev_nodeDeleted i)
              (set_searchIndex idx (deleteSelf st1 i node)))).
Proof.
  intros Hn [Hnd Hr]. destruct (removal_fields st1 i node idx) as (En & _ & Er & _).
  unfold roots_ok. rewrite En, Er.
  assert (Eq : (if truthy (parentId node) then rootNodes st1
                else filter (fun r => r <> i) (rootNodes st1))
               = filter (fun r => r <> i) (rootNodes st1)).
  { destruct (truthy (parentId node)) eqn:Et; [|reflexivity].
    symmetry. apply filter_ne_absent. intros Hin.
    apply Hr in Hin as (n & Hg & Hf). apply Hn in Hg. congruence. }
  rewrite Eq. split; [apply NoDup_filter, Hnd|].
  intros x. rewrite list_elem_of_filter, Map_get_delete, Hr.
  case_decide; [|tauto].
  split; [tauto|]. intros (? & [=] & _).
Qed.

Lemma removal_attached st1 i node idx :
  attached st1 ->
  attached (emit ev_nodesChanged (emit (ev_nodeDeleted i)
              (set_searchIndex idx (deleteSelf st1 i node)))).
Proof.
  intros (A1 & A2 & A3).
  destruct (removal_fields st1 i node idx) as (En & Ed & _ & Es & Ec).
  unfold attached. rewrite En, Ed, Es, Ec. cbn [db_deleteNode contentStore].
  split; [|split].
  - intros s. destruct (decide (selectedNodeId st1 = Some i)) as [|Hsel]; [discriminate|].
    intros E. rewrite Map_get_delete.
    destruct (decide (s = i)) as [->|?]; [contradiction|]. apply A1, E.
  - intros c. destruct (decide (selectedNodeId st1 = Some i)); [discriminate|]. apply A2.
  - intros k c E. apply lookup_delete_Some in E as [Hne E].
    destruct (A3 k c E) as [? ?]. split; [assumption|].
    rewrite Map_get_delete. destruct (decide (k = i)) as [->|?]; [contradiction|assumption].
Qed.

Lemma selectNode_fields st i now :
  nodes (selectNode st i now) = nodes st /\ db (selectNode st i now) = db st /\
  rootNodes (selectNode st i now) = rootNodes st /\
  selectedNodeId (selectNode st i now) = i /\
  currentContent (selectNode st i now)
  = match i with
    | Some s => if truthy_string s then Some (db_getContent s now (db st)) else None
    | None => None
    end.
Proof.
  unfold selectNode. destruct i as [s|]; [destruct (truthy_string s)|]; repeat split.
Qed.

(** *** A property of the store that survives every kind of write survives
    every call *)

Section CallKeeps.
Variable P : Store -> Prop.
Variable ok : Store -> Call -> Prop.
Hypothesis ok_ids : forall st c, ok st c -> ids_ok st c.
Hypothesis P_fields : forall st st',
  P st -> nodes st' = nodes st -> db st' = db st -> rootNodes st' = rootNodes st ->
  selectedNodeId st' = selectedNodeId st -> currentContent st' = currentContent st ->
  P st'.
Hypothesis P_create : forall fuel st args newId now node st',
  wf (nodes st) -> P st -> Map_get newId (nodes st) = None -> newId <> "" ->
  createNode fuel st args newId now = Some (node, st') -> P st'.
Hypothesis P_copy : forall st from newId now,
  P st -> Map_get newId (nodes st) <> None -> P (copyContent st from newId now).
Hypothesis P_moved : forall st st' i node n,
  wf (nodes st) -> P st -> Map_get i (nodes st) = Some node -> id n = i ->
  nodes st' = Map_set i n (nodes st) -> db st' = db_saveNode n (db st) ->
  selectedNodeId st' = selectedNodeId st -> currentContent st' = currentContent st ->
  rootNodes st'
    ≡ₚ (if truthy (parentId n) then rootsWithout st i node
        else rootsWithout st i node ++ [i]) ->
  P st'.
Hypothesis P_rewritten : forall st st' i node n,
  wf (nodes st) -> P st -> Map_get i (nodes st) = Some node -> id n = i ->
  truthy (parentId n) = truthy (parentId node) ->
  nodes st' = Map_set i n (nodes st) -> db st' = db_saveNode n (db st) ->
  selectedNodeId st' = selectedNodeId st -> currentContent st' = currentContent st ->
  rootNodes st' = rootNodes st ->
  P st'.
Hypothesis P_removed : forall st1 i node idx,
  (forall n, Map_get i (nodes st1) = Some n -> n = node) -> P st1 ->
  P (emit ev_nodesChanged (emit (ev_nodeDeleted i)
       (set_searchIndex idx (deleteSelf st1 i node)))).
Hypothesis P_updated : forall st st' i node u now,
  wf (nodes st) -> P st -> ok st (call_updateNode i u now) ->
  Map_get i (nodes st) = Some node ->
  nodes st' = Map_set i (mergeUpdates node u now) (nodes st) ->
  db st' = db_saveNode (mergeUpdates node u now) (db st) ->
  selectedNodeId st' = selectedNodeId st -> currentContent st' = currentContent st ->
  rootNodes st' = rootNodes st ->
  P st'.
Hypothesis P_selected : forall st i now,
  P st -> ok st (call_selectNode i now) -> P (selectNode st i now).
Hypothesis P_content : forall st st' content s u now,
  P st -> currentContent st = Some content -> selectedNodeId st = Some s -> s <> "" ->
  ok st (call_updateContent u now) ->
  nodes st' = nodes st -> db st' = db_saveContent (mergeContent content u now) (db st) ->
  rootNodes st' = rootNodes st -> selectedNodeId st' = selectedNodeId st ->
  currentContent st' = Some (mergeContent content u now) ->
  P st'.

Lemma call_keeps fuel st c st' :
  wf (nodes st) -> P st -> ok st c -> call fuel st c = Some st' ->
  wf (nodes st') /\ P st'.
Proof.
  intros Hwf HP Hok H. pose proof (ok_ids st c Hok) as Hids.
  assert (Hrw : forall i,
            match c with
            | call_moveNode j _ _ | call_toggleActive j _ => j = i
            | _ => False
            end -> wf (nodes st') /\ P st').
  { intros i Hc. destruct (Map_get i (nodes st)) as [node|] eqn:Hi.
    - destruct (wf_key_id _ _ _ Hwf Hi) as [_ Hne].
      destruct (rewriting_call fuel st c st' i node Hwf H Hc Hi)
        as [->|[(n & Hid & Hn & Hd & Hs & Hcc & Hr)|(n & Hid & Ht & Hn & Hd & Hs & Hcc & Hr)]].
      + auto.
      + split; [rewrite Hn; apply wf_put; assumption|]. eapply P_moved; eauto.
      + split; [rewrite Hn; apply wf_put; assumption|]. eapply P_rewritten; eauto.
    - pose proof (unknown_call fuel st c st' H) as Hu.
      destruct c; try contradiction; subst i0; rewrite (Hu Hi); auto. }
  destruct c; try (apply (Hrw i); reflexivity); cbn [call] in H.
  - destruct (createNode _ _ _ _ _) as [[node s]|] eqn:E; [|discriminate].
    injection H as <-. destruct Hids as [Hg Hne].
    split; [|eapply P_create; eauto].
    apply createNode_fields in E as (-> & -> & _). apply wf_add; auto.
  - destruct (Map_get i (nodes st)) as [node|] eqn:Hi.
    + destruct (updateNode _ _ _ _ _) as [[r s]|] eqn:E; [|discriminate].
      injection H as <-. apply (updateNode_fields _ _ _ _ _ node) in E; [|exact Hi].
      destruct E as (_ & Hn & Hd & Hr & Hs & Hcc & _).
      destruct (wf_key_id _ _ _ Hwf Hi) as [Hid Hne]. cbn [ids_ok] in Hids.
      split; [|eapply P_updated; eauto].
      rewrite Hn. apply wf_put; [exact Hwf| |exact Hne].
      cbn. rewrite Hids. exact Hid.
    + unfold updateNode in H. rewrite Hi in H. injection H as <-. auto.
  - revert HP. revert Hwf. revert H.
    apply (deleteNode_rel (fun a b => wf (nodes a) -> P a -> wf (nodes b) /\ P b)).
    + auto.
    + intros a b d Hab Hbd Ha Pa. destruct (Hab Ha Pa). auto.
    + intros st1 j node idx Hn W1 P1. split; [|apply P_removed; assumption].
      destruct (removal_fields st1 j node idx) as (-> & _). apply wf_delete, W1.
  - injection H as <-.
    apply (reorderNode_keeps (fun s => wf (nodes s) /\ P s)); [| |exact Hwf|auto].
    + intros s e [W Q]. split; [exact W|]. eapply P_fields; eauto.
    + intros p s x x' [W Q] (x0 & Hx0 & Hx0p) Hid Hp Ht.
      destruct (wf_key_id _ _ _ W Hx0) as [_ Hne].
      split; [cbn; apply wf_put; [exact W|reflexivity|congruence]|].
      apply (P_rewritten s _ (id x') x0 x'); try reflexivity; try assumption.
      * rewrite Hid. exact Hx0.
      * rewrite Hp, Hx0p. reflexivity.
  - destruct (duplicateNode _ _ _ _) as [cpl|] eqn:E; [|discriminate].
    injection H as <-. eapply (duplicateNode_keeps P); eauto.
  - injection H as <-. split; [|apply P_selected; assumption].
    destruct (selectNode_fields st i now) as (-> & _). exact Hwf.
  - destruct (updateContent _ _ _ _) as [[s ns]|] eqn:E; [|discriminate].
    injection H as <-. apply updateContent_fields in E.
    destruct E as [->|(content & x & Hc & Hs & Hx & Hn & Hd & Hr & Hs' & Hc')]; [auto|].
    split; [rewrite Hn; exact Hwf|]. eapply P_content; eauto.
  - injection H as <-. split; [exact Hwf|]. eapply P_fields; eauto.
Qed.
End CallKeeps.

Lemma created_parent st args newId now :
  parentId (createdNode st args newId now) = a_parentId args.
Proof. reflexivity. Qed.

(** X4.  Write-through: whatever call of the interface is made on a
    well-formed store whose node map holds what the node object store
    holds, the store it leaves is well-formed and its map still holds what the
    object store holds, provided the ids [generateId()] hands out are not in
    use and not empty and [updateNode] is not handed an [id]. *)
Theorem call_keeps_mirrors fuel st c st' :
  wf (nodes st) -> mirrors st -> ids_ok st c -> call fuel st c = Some st' ->
  wf (nodes st') /\ mirrors st'.
Proof.
  apply (call_keeps mirrors ids_ok).
  - auto.
  - intros s s' M Hn Hd _ _ _. apply (mirrors_same s); [exact M|exact Hn|].
    rewrite Hd. reflexivity.
  - intros f s args newId now node s' _ M _ _ E.
    apply createNode_fields in E as (_ & Hn & Hd & _). eapply mirrors_put; eauto.
  - intros s from newId now M _. apply (mirrors_same s); [exact M|reflexivity..].
  - intros s s' i node n _ M _ Hid Hn Hd _ _ _.
    apply (mirrors_put s s' i n); [exact M|exact Hn|]. rewrite Hd, <- Hid. reflexivity.
  - intros s s' i node n _ M _ Hid _ Hn Hd _ _ _.
    apply (mirrors_put s s' i n); [exact M|exact Hn|]. rewrite Hd, <- Hid. reflexivity.
  - intros s i node idx _ M. apply removal_mirrors, M.
  - intros s s' i node u now W M Hu Hi Hn Hd _ _ _.
    apply (mirrors_put s s' i _ M Hn). rewrite Hd. cbn [ids_ok] in Hu. cbn.
    rewrite Hu. cbn. rewrite (proj1 (wf_key_id _ _ _ W Hi)). reflexivity.
  - intros s i now M _. destruct (selectNode_fields s i now) as (Hn & Hd & _).
    apply (mirrors_same s); [exact M|exact Hn|]. rewrite Hd. reflexivity.
  - intros s s' content x u now M _ _ _ _ Hn Hd _ _ _.
    apply (mirrors_same s); [exact M|exact Hn|]. rewrite Hd. reflexivity.
Qed.

(** X5.  The root list stays the list of the parentless nodes: whatever call
    is made on a well-formed store whose [rootNodes] holds, once each, the
    ids of the nodes with no (or an empty) [parentId], the same is true of
    the store it leaves, provided the ids [generateId()] hands out are not in
    use and not empty and [updateNode] is handed neither an [id] nor a
    [parentId]. *)
Theorem call_keeps_roots fuel st c st' :
  wf (nodes st) -> roots_ok st -> parent_kept st c -> call fuel st c = Some st' ->
  wf (nodes st') /\ roots_ok st'.
Proof.
  apply (call_keeps roots_ok parent_kept).
  - intros s c0 [H _]. exact H.
  - intros s s' R Hn _ Hr _ _. apply (roots_ok_same s); assumption.
  - intros f s args newId now node s' _ R Hg _ E.
    apply createNode_fields in E as (-> & Hn & _ & _ & Hr & _).
    apply (roots_ok_put s s' newId _ R Hn).
    rewrite Hr, created_parent.
    rewrite filter_ne_absent; [reflexivity|].
    intros Hin. apply (roots_known _ _ R) in Hin. contradiction.
  - intros s from newId now R _. apply (roots_ok_same s); [exact R|reflexivity..].
  - intros s s' i node n _ R Hi Hid Hn _ _ _ Hr.
    apply (roots_ok_put s s' i n R Hn). rewrite Hr, (roots_without s i node R Hi).
    reflexivity.
  - intros s s' i node n _ R Hi Hid Ht Hn _ _ _ Hr.
    apply (roots_ok_put s s' i n R Hn). rewrite Hr.
    apply (roots_same_perm s i node n R Hi Ht).
  - intros s i node idx Hn R. apply removal_roots; assumption.
  - intros s s' i node u now _ R [_ Hu] Hi Hn _ _ _ Hr.
    apply (roots_ok_put s s' i _ R Hn). rewrite Hr.
    apply (roots_same_perm s i node _ R Hi). cbn. rewrite Hu. reflexivity.
  - intros s i now R _. destruct (selectNode_fields s i now) as (Hn & _ & Hr & _).
    apply (roots_ok_same s); assumption.
  - intros s s' content x u now R _ _ _ _ Hn _ Hr _ _. apply (roots_ok_same s); assumption.
Qed.

(** X6.  Selection and content stay attached to nodes: whatever call is made
    on a well-formed store in which the selected id is a node of the map,
    the current content is the selected node's and every content record
    belongs to a node of the map, the same is true of the store it leaves,
    provided [selectNode] is called with [null] or the id of a node,
    [updateContent] carries no [nodeId], [updateNode] is not handed an [id]
    and the ids [generateId()] hands out are not in use and not empty.  In
    particular [deleteNode] leaves no content record of a removed node and no
    selection of one. *)
Theorem call_keeps_attached fuel st c st' :
  wf (nodes st) -> attached st -> selection_kept st c -> call fuel st c = Some st' ->
  wf (nodes st') /\ attached st'.
Proof.
  apply (call_keeps attached selection_kept).
  - intros s c0 [H _]. exact H.
  - intros s s' A Hn Hd _ Hs Hc. apply (attached_grow s); auto.
    + intros k. rewrite Hn. auto.
    + intros k cc. rewrite Hd. auto.
  - intros f s args newId now node s' _ A _ _ E.
    apply createNode_fields in E as (_ & Hn & _ & Hc & _ & Hs & Hcc & _).
    apply (attached_grow s); auto.
    + intros k. rewrite Hn. apply Map_get_set_known.
    + intros k cc. destruct (a_type args); rewrite Hc; [auto|].
      intros E. apply lookup_insert_Some in E as [[<- <-]|[_ E]]; [|auto].
      right. split; [reflexivity|]. rewrite Hn, Map_get_set_eq. discriminate.
  - intros s from newId now A Hk. apply (attached_grow s); auto.
    intros k cc E. cbn in E. apply lookup_insert_Some in E as [[<- <-]|[_ E]]; auto.
  - intros s s' i node n _ A _ _ Hn Hd Hs Hc _. apply (attached_grow s); auto.
    + intros k. rewrite Hn. apply Map_get_set_known.
    + intros k cc. rewrite Hd. auto.
  - intros s s' i node n _ A _ _ _ Hn Hd Hs Hc _. apply (attached_grow s); auto.
    + intros k. rewrite Hn. apply Map_get_set_known.
    + intros k cc. rewrite Hd. auto.
  - intros s i node idx _ A. apply removal_attached, A.
  - intros s s' i node u now _ A _ _ Hn Hd Hs Hc _. apply (attached_grow s); auto.
    + intros k. rewrite Hn. apply Map_get_set_known.
    + intros k cc. rewrite Hd. auto.
  - intros s i now (A1 & A2 & A3) [_ Hok].
    destruct (selectNode_fields s i now) as (Hn & Hd & _ & Hs & Hc).
    unfold attached. rewrite Hn, Hd, Hs, Hc. split; [|split; [|exact A3]].
    + intros x ->. exact Hok.
    + intros cc. destruct i as [x|]; [|discriminate].
      destruct (truthy_string x); [|discriminate]. intros [= <-].
      unfold db_getContent. destruct (contentStore (db s) !! x) as [c0|] eqn:E.
      * destruct (A3 _ _ E) as [-> _]. reflexivity.
      * reflexivity.
  - intros s s' content x u now (A1 & A2 & A3) Hc Hs Hx [_ Hu] Hn Hd _ Hs' Hc'.
    pose proof (A2 _ Hc) as Hsel. rewrite Hs in Hsel. injection Hsel as ->.
    assert (Hk : nodeId (mergeContent content u now) = nodeId content)
      by (cbn; rewrite Hu; reflexivity).
    unfold attached. rewrite Hn, Hd, Hs', Hc'. split; [exact A1|]. split.
    + intros cc [= <-]. rewrite Hs, Hk. reflexivity.
    + intros k cc E. cbn in E. rewrite Hu in E. cbn in E.
      apply lookup_insert_Some in E as [[<- <-]|[_ E]]; [|auto].
      split; [exact Hk|]. apply A1, Hs.
Qed.

(** *** Checking the three properties on a given store *)

Lemma Map_get_list_to_map (m : list (string * Node)) k :
  Map_get k m = (list_to_map m : gmap string Node) !! k.
Proof.
  induction m as [|[k' v] m IH]; [symmetry; apply lookup_empty|].
  rewrite list_to_map_cons. cbn [Map_get].
  case_decide.
  - subst. rewrite lookup_insert_eq. reflexivity.
  - rewrite lookup_insert_ne by congruence. exact IH.
Qed.

Lemma mirrors_check st :
  (list_to_map (nodes st) : gmap string Node) = nodeStore (db st) -> mirrors st.
Proof. intros E k. rewrite Map_get_list_to_map, E. reflexivity. Qed.

Lemma roots_ok_check st :
  NoDup (rootNodes st) ->
  Forall (fun k => (fun n => truthy (parentId n)) <$> Map_get k (nodes st) = Some false)
    (rootNodes st) ->
  Forall (fun kv => truthy (parentId (snd kv)) = false -> fst kv ∈ rootNodes st) (nodes st) ->
  roots_ok st.
Proof.
  intros Hnd H1 H2. split; [exact Hnd|]. intros k. split.
  - intros Hk. rewrite Forall_forall in H1. specialize (H1 k Hk).
    destruct (Map_get k (nodes st)) as [n|]; [|discriminate].
    injection H1 as H1. eauto.
  - intros (n & Hn & Hf). apply Map_get_Some_elem in Hn.
    rewrite Forall_forall in H2. exact (H2 _ Hn Hf).
Qed.

Lemma attached_check st :
  match selectedNodeId st with
  | Some s => Map_get s (nodes st) <> None
  | None => True
  end ->
  match currentContent st with
  | Some c => selectedNodeId st = Some (nodeId c)
  | None => True
  end ->
  map_Forall (fun k c => nodeId c = k /\ Map_get k (nodes st) <> None)
    (contentStore (db st)) ->
  attached st.
Proof.
  intros H1 H2 H3. split; [|split].
  - intros s E. rewrite E in H1. exact H1.
  - intros c E. rewrite E in H2. exact H2.
  - intros k c E. exact (H3 k c E).
Qed.

Lemma twoFolders_mirrors : mirrors twoFolders.
Proof. apply mirrors_check. vm_compute. reflexivity. Qed.

Lemma twoFolders_roots_ok : roots_ok twoFolders.
Proof.
  apply roots_ok_check; apply (bool_decide_unpack _); vm_compute; reflexivity.
Qed.

(** [twoFolders] with the leaf [p1] selected. *)
Lemma twoFolders_selected_attached : attached (selectNode twoFolders (Some "p1") 30).
Proof.
  apply attached_check.
  - vm_compute. discriminate.
  - vm_compute. reflexivity.
  - apply (bool_decide_unpack _). vm_compute. reflexivity.
Qed.

Lemma call_keeps_mirrors_witness :
  wf (nodes (default twoFolders
               (call 16 twoFolders
                  (call_updateNode "p1"
                     (mkNodeUpdates None (Some (Some "q")) None None None None None) 40)))) /\
  mirrors (default twoFolders
             (call 16 twoFolders
                (call_updateNode "p1"
                   (mkNodeUpdates None (Some (Some "q")) None None None None None) 40))).
Proof.
  assert (H : call 16 twoFolders
                (call_updateNode "p1"
                   (mkNodeUpdates None (Some (Some "q")) None None None None None) 40)
              = Some (default twoFolders
                        (call 16 twoFolders
                           (call_updateNode "p1"
                              (mkNodeUpdates None (Some (Some "q")) None None None None None)
                              40))))
    by (vm_compute; reflexivity).
  pose proof (call_keeps_mirrors 16 twoFolders
                (call_updateNode "p1"
                   (mkNodeUpdates None (Some (Some "q")) None None None None None) 40)
                (default twoFolders
                   (call 16 twoFolders
                      (call_updateNode "p1"
                         (mkNodeUpdates None (Some (Some "q")) None None None None None) 40)))
                twoFolders_wf twoFolders_mirrors eq_refl H) as R.
  exact R.
Defined.

Lemma call_keeps_roots_witness :
  wf (nodes (default twoFolders (call 16 twoFolders (call_moveNode "x" None 60)))) /\
  roots_ok (default twoFolders (call 16 twoFolders (call_moveNode "x" None 60))).
Proof.
  assert (H : call 16 twoFolders (call_moveNode "x" None 60)
              = Some (default twoFolders (call 16 twoFolders (call_moveNode "x" None 60)))).
  { vm_compute. reflexivity. }
  pose proof (call_keeps_roots 16 twoFolders (call_moveNode "x" None 60)
           (default twoFolders (call 16 twoFolders (call_moveNode "x" None 60)))
           twoFolders_wf twoFolders_roots_ok (conj I I) H) as R.
  exact R.
Defined.

Lemma twoFolders_selected_wf : wf (nodes (selectNode twoFolders (Some "p1") 30)).
Proof.
  destruct (selectNode_fields twoFolders (Some "p1") 30) as (-> & _). apply twoFolders_wf.
Qed.

Lemma call_keeps_attached_witness :
  wf (nodes (default twoFolders
               (call 16 (selectNode twoFolders (Some "p1") 30) (call_deleteNode "p")))) /\
  attached (default twoFolders
              (call 16 (selectNode twoFolders (Some "p1") 30) (call_deleteNode "p"))).
Proof.
  assert (H : call 16 (selectNode twoFolders (Some "p1") 30) (call_deleteNode "p")
              = Some (default twoFolders
                        (call 16 (selectNode twoFolders (Some "p1") 30) (call_deleteNode "p"))))
    by (vm_compute; reflexivity).
  pose proof (call_keeps_attached 16 (selectNode twoFolders (Some "p1") 30) (call_deleteNode "p")
           (default twoFolders
              (call 16 (selectNode twoFolders (Some "p1") 30) (call_deleteNode "p")))
           twoFolders_selected_wf twoFolders_selected_attached (conj I I) H) as R.
  exact R.
Defined.

(** ** Paths and the search index *)

Lemma getNodePath_loop_ancestry m : forall fuel cur acc path,
  getNodePath_loop fuel m cur acc = Some path ->
  exists l, path = l ++ acc /\ ancestry m cur l.
Proof.
  induction fuel as [|f IH]; intros cur acc path H.
  - destruct cur; [discriminate|]. injection H as <-. exists []. split; [reflexivity|constructor].
  - destruct cur as [c|].
    + cbn [getNodePath_loop] in H. destruct (IH _ _ _ H) as (l & -> & Ha).
      exists (l ++ [c]). split; [rewrite <- app_assoc; reflexivity|constructor; exact Ha].
    + injection H as <-. exists []. split; [reflexivity|constructor].
Qed.

Lemma ancestry_last m cur l : ancestry m cur l -> last l = cur.
Proof. destruct 1; [reflexivity|apply last_snoc]. Qed.

Lemma ancestry_head m cur l r :
  ancestry m cur l -> head l = Some r -> parentNode m r = None.
Proof.
  induction 1 as [|c l Ha IH]; [discriminate|].
  destruct l as [|x l'].
  - intros [= <-]. apply ancestry_last in Ha. symmetry. exact Ha.
  - intros E. apply IH. exact E.
Qed.

Lemma ancestry_links m cur l j a b :
  ancestry m cur l -> l !! j = Some a -> l !! S j = Some b -> parentNode m b = Some a.
Proof.
  induction 1 as [|c l Ha IH] in j, a, b |- *; [discriminate|].
  intros Hj HS.
  destruct (decide (S j < length l)) as [Hlt|Hge].
  - rewrite lookup_app_l in Hj by lia. rewrite lookup_app_l in HS by lia. eapply IH; eauto.
  - assert (Hlen : S j < length (l ++ [c])) by (eapply lookup_lt_Some; eauto).
    rewrite length_app in Hlen. cbn [length] in Hlen.
    assert (Ej : S j = length l) by lia.
    rewrite lookup_app_l in Hj by lia.
    rewrite lookup_app_r in HS by lia. rewrite Ej, Nat.sub_diag in HS. injection HS as <-.
    apply ancestry_last in Ha. rewrite <- Ha, last_lookup.
    rewrite <- Ej. cbn [pred]. exact Hj.
Qed.

Lemma ancestry_length m cur l : ancestry m cur l -> length l = 0 <-> cur = None.
Proof.
  destruct 1; [tauto|]. rewrite length_app. cbn. split; [lia|discriminate].
Qed.

(** X9.  On a store without a cycle, [getNodePath(i)] with fuel for one turn
    per node returns: nothing for an unknown id; otherwise the chain that
    ends with the node of [i], in which every element is the parent of the
    next and the first has no parent in the map. *)
Theorem getNodePath_spec fuel m i :
  acyclic m -> length m <= fuel ->
  exists path,
    getNodePath fuel m i = Some path /\
    ancestry m (Map_get i m) path /\
    last path = Map_get i m /\
    (path = [] <-> Map_get i m = None) /\
    (forall r, head path = Some r -> parentNode m r = None) /\
    (forall j a b, path !! j = Some a -> path !! S j = Some b -> parentNode m b = Some a).
Proof.
  intros Hac Hle. destruct (getNodePath_ends m i fuel Hac Hle) as [path Hp].
  exists path. split; [exact Hp|].
  apply getNodePath_loop_ancestry in Hp as (l & -> & Ha). rewrite app_nil_r.
  split; [exact Ha|]. split; [eapply ancestry_last; exact Ha|].
  split; [|split].
  - rewrite <- (ancestry_length _ _ _ Ha). destruct l; [tauto|]. split; discriminate.
  - intros r. eapply ancestry_head; exact Ha.
  - intros j a b. eapply ancestry_links; exact Ha.
Qed.

Lemma getNodePath_spec_witness :
  exists path,
    getNodePath 16 (nodes vault) "n6" = Some path /\
    ancestry (nodes vault) (Map_get "n6" (nodes vault)) path /\
    last path = Map_get "n6" (nodes vault) /\
    (path = [] <-> Map_get "n6" (nodes vault) = None) /\
    (forall r, head path = Some r -> parentNode (nodes vault) r = None) /\
    (forall j a b, path !! j = Some a -> path !! S j = Some b ->
       parentNode (nodes vault) b = Some a).
Proof.
  assert (H : length (nodes vault) <= 16) by (vm_compute; lia).
  exact (getNodePath_spec 16 (nodes vault) "n6" vault_acyclic H).
Defined.

Lemma prefix_refl s : String.prefix s s = true.
Proof. induction s as [|c s IH]; [reflexivity|]. cbn. destruct (ascii_dec c c); [exact IH|congruence]. Qed.

Lemma includes_refl s : includes s s = true.
Proof. destruct s; cbn [includes]; rewrite prefix_refl; reflexivity. Qed.

Lemma includes_cons c r q :
  includes (String c r) q = String.prefix q (String c r) || includes r q.
Proof. reflexivity. Qed.

Lemma includes_app_r a b q : includes b q = true -> includes (String.append a b) q = true.
Proof.
  intros H. induction a as [|c a IH]; [exact H|].
  change (String.append (String c a) b) with (String c (String.append a b)).
  rewrite includes_cons, IH. apply orb_true_r.
Qed.

(** On strings of ASCII characters [toLowerCase] lowers letter by letter, so
    it goes through a concatenation. *)
Lemma toLowerCase_app a b :
  is_ascii a = true -> is_ascii b = true ->
  toLowerCase (String.append a b) = String.append (toLowerCase a) (toLowerCase b).
Proof.
  intros Ha Hb. induction a as [|c a IH]; [reflexivity|].
  cbn [is_ascii] in Ha. apply andb_true_iff in Ha as [_ Ha].
  change (toLowerCase (String.append (String c a) b))
    with (String (lower_ascii c) (toLowerCase (String.append a b))).
  rewrite (IH Ha). reflexivity.
Qed.

Lemma is_ascii_app a b :
  is_ascii a = true -> is_ascii b = true -> is_ascii (String.append a b) = true.
Proof.
  intros Ha Hb. induction a as [|c a IH]; [exact Hb|].
  cbn [is_ascii] in Ha. apply andb_true_iff in Ha as [Hc Ha].
  change (String.append (String c a) b) with (String c (String.append a b)).
  cbn [is_ascii]. rewrite Hc, (IH Ha). reflexivity.
Qed.

Lemma append_assoc a b c :
  String.append (String.append a b) c = String.append a (String.append b c).
Proof.
  induction a as [|x a IH]; [reflexivity|].
  change (String x (String.append (String.append a b) c)
          = String x (String.append a (String.append b c))).
  rewrite IH. reflexivity.
Qed.

Lemma join_snoc sep l x :
  is_ascii sep = true -> Forall (fun y => is_ascii y = true) l ->
  exists pre, join sep (l ++ [x]) = String.append pre x /\ is_ascii pre = true.
Proof.
  intros Hsep. unfold join. induction l as [|y l IH]; intros Hl.
  { exists "". split; reflexivity. }
  apply Forall_cons in Hl as [Hy Hl]. destruct (IH Hl) as (pre & E & Hpre).
  exists (String.append y (String.append sep pre)).
  split; [|apply is_ascii_app; [exact Hy|apply is_ascii_app; assumption]].
  cbn [app String.concat]. destruct (l ++ [x]) as [|z r] eqn:El.
  - destruct l; discriminate.
  - rewrite E, !append_assoc. reflexivity.
Qed.

Lemma ancestry_in m cur l :
  ancestry m cur l -> (forall c, cur = Some c -> c ∈ Map_values m) ->
  Forall (fun n => n ∈ Map_values m) l.
Proof.
  induction 1 as [|c l _ IH]; intros Hcur; [constructor|].
  apply Forall_app. split; [|repeat constructor; apply Hcur; reflexivity].
  apply IH. intros pn Hpn. apply parentNode_Some in Hpn as (k & _ & _ & Hk).
  apply list_elem_of_fmap. exists (k, pn). split; [reflexivity|].
  apply Map_get_Some_elem, Hk.
Qed.

Lemma indexStep_None fuel m l : foldl (indexStep fuel m) None l = None.
Proof. induction l as [|n l IH]; [reflexivity|exact IH]. Qed.

Lemma buildSearchIndex_fold fuel m :
  buildSearchIndex fuel m = foldl (indexStep fuel m) (Some []) (Map_values m).
Proof. reflexivity. Qed.

Lemma indexLoop_entries fuel m : forall (l : list (string * Node)) acc idx,
  foldl (indexStep fuel m) (Some acc) (Map_values l) = Some idx ->
  Forall (fun kv => id (snd kv) = fst kv) l ->
  NoDup (Map_keys l) ->
  (forall k, k ∈ Map_keys l -> k ∉ Map_keys acc) ->
  exists ext,
    idx = acc ++ ext /\
    Forall2 (fun kv ke =>
               fst ke = fst kv /\
               exists path, getNodePath fuel m (fst kv) = Some path /\
                            snd ke = indexEntry (snd kv) path) l ext.
Proof.
  induction l as [|[k n] l IH]; intros acc idx H Hid Hnd Hfresh.
  - cbn in H. injection H as <-. exists []. rewrite app_nil_r. split; [reflexivity|constructor].
  - apply Forall_cons in Hid as [Hk Hid]. cbn [fst snd] in Hk. subst k.
    unfold Map_keys in Hnd. rewrite fmap_cons in Hnd. apply NoDup_cons in Hnd as [Hni Hnd].
    unfold Map_values in H. rewrite fmap_cons in H. cbn [foldl indexStep snd] in H.
    destruct (getNodePath fuel m (id n)) as [path|] eqn:Ep;
      [|rewrite indexStep_None in H; discriminate].
    rewrite Map_set_absent in H by (apply Hfresh; left).
    destruct (IH _ _ H Hid Hnd) as (ext & -> & Hext).
    { intros k Hkin. unfold Map_keys. rewrite fmap_app, elem_of_app.
      intros [Hin|Hin]; [exact (Hfresh k ltac:(right; exact Hkin) Hin)|].
      cbn in Hin. apply list_elem_of_singleton in Hin as ->. contradiction. }
    exists ((id n, indexEntry n path) :: ext). split; [rewrite <- app_assoc; reflexivity|].
    constructor; [|exact Hext]. cbn. split; [reflexivity|]. eauto.
Qed.

Lemma buildSearchIndex_entries fuel m idx :
  wf m -> buildSearchIndex fuel m = Some idx ->
  Forall2 (fun kv ke =>
             fst ke = fst kv /\
             exists path, getNodePath fuel m (fst kv) = Some path /\
                          snd ke = indexEntry (snd kv) path) m idx.
Proof.
  intros [Hnd Hall] H. rewrite buildSearchIndex_fold in H.
  destruct (indexLoop_entries fuel m m [] idx H) as (ext & -> & Hext).
  - eapply Forall_impl; [exact Hall|]. intros kv [? _]. assumption.
  - exact Hnd.
  - intros k _ Hin. inversion Hin.
  - exact Hext.
Qed.

Lemma indexEntry_path_has_name m n path :
  ascii_names m -> n ∈ Map_values m -> ancestry m (Some n) path ->
  includes (idx_path (indexEntry n path)) (idx_name (indexEntry n path)) = true /\
  forall q, includes (idx_name (indexEntry n path)) q = true ->
            includes (idx_path (indexEntry n path)) q = true.
Proof.
  intros Hascii Hn Ha.
  assert (Hname : forall x, x ∈ Map_values m -> is_ascii (name x) = true).
  { intros x Hx. apply list_elem_of_fmap in Hx as (kv & -> & Hkv).
    unfold ascii_names in Hascii. rewrite Forall_forall in Hascii. exact (Hascii kv Hkv). }
  inversion Ha as [|c l Hl]; subst. cbn [indexEntry idx_path idx_name].
  rewrite fmap_app. cbn [fmap list_fmap].
  destruct (join_snoc " > " (name <$> l) (name n)) as (pre & -> & Hpre);
    [reflexivity| |].
  { apply Forall_fmap. eapply Forall_impl; [|exact Hname].
    apply (ancestry_in m _ _ Hl). intros pn Hpn.
    apply parentNode_Some in Hpn as (k & _ & _ & Hk).
    apply list_elem_of_fmap. exists (k, pn). split; [reflexivity|].
    apply Map_get_Some_elem, Hk. }
  rewrite toLowerCase_app by (try exact Hpre; apply Hname, Hn).
  split; [apply includes_app_r, includes_refl|]. intros q. apply includes_app_r.
Qed.

(** X10.  [buildSearchIndex()] on a well-formed map whose nodes have ASCII
    names puts one entry per node, under the node's key and in the order of
    the map; the entry holds the id, the type, the lowercased name, and the
    lowercased names of the node's path joined by [" > "], which therefore
    contains the entry's name. *)
Theorem buildSearchIndex_spec fuel m idx :
  wf m -> ascii_names m -> buildSearchIndex fuel m = Some idx ->
  Map_keys idx = Map_keys m /\
  forall k e, Map_get k idx = Some e ->
    exists n path,
      Map_get k m = Some n /\ getNodePath fuel m k = Some path /\
      last path = Some n /\
      e = mkIndexed k (toLowerCase (name n)) (type n)
            (toLowerCase (join " > " (name <$> path))) /\
      includes (idx_path e) (idx_name e) = true.
Proof.
  intros Hwf Hascii H. pose proof (buildSearchIndex_entries fuel m idx Hwf H) as HF.
  assert (Hkeys : Map_keys idx = Map_keys m).
  { clear H Hwf. induction HF as [|kv ke m' idx' [E _] _ IH]; [reflexivity|].
    unfold Map_keys in *. rewrite !fmap_cons, E, IH. reflexivity. }
  split; [exact Hkeys|].
  intros k e He. apply Map_get_Some_elem in He.
  apply list_elem_of_lookup in He as [j Hj].
  destruct (Forall2_lookup_r _ _ _ _ _ HF Hj) as ([k' n] & Hm & Ek & path & Hp & Ee).
  cbn [fst snd] in *. subst k'.
  assert (Hg : Map_get k m = Some n).
  { apply Map_get_elem; [apply Hwf|]. eapply list_elem_of_lookup_2; exact Hm. }
  destruct (wf_key_id _ _ _ Hwf Hg) as [Hid _].
  exists n, path. split; [exact Hg|]. split; [exact Hp|].
  pose proof Hp as Hp'. apply getNodePath_loop_ancestry in Hp' as (l & -> & Ha).
  rewrite app_nil_r in *. rewrite Hg in Ha.
  split; [eapply ancestry_last; exact Ha|].
  rewrite Ee. split; [unfold indexEntry; rewrite Hid; reflexivity|].
  refine (proj1 (indexEntry_path_has_name m n l Hascii _ Ha)).
  apply list_elem_of_fmap. exists (k, n). split; [reflexivity|].
  apply Map_get_Some_elem, Hg.
Qed.

Lemma vault_ascii_names : ascii_names (nodes vault).
Proof. apply (bool_decide_unpack _). vm_compute. reflexivity. Qed.

Lemma buildSearchIndex_spec_witness :
  Map_keys (searchIndex vault) = Map_keys (nodes vault) /\
  forall k e, Map_get k (searchIndex vault) = Some e ->
    exists n path,
      Map_get k (nodes vault) = Some n /\ getNodePath 16 (nodes vault) k = Some path /\
      last path = Some n /\
      e = mkIndexed k (toLowerCase (name n)) (type n)
            (toLowerCase (join " > " (name <$> path))) /\
      includes (idx_path e) (idx_name e) = true.
Proof.
  assert (H : buildSearchIndex 16 (nodes vault) = Some (searchIndex vault))
    by (vm_compute; reflexivity).
  exact (buildSearchIndex_spec 16 (nodes vault) (searchIndex vault) vault_wf
           vault_ascii_names H).
Defined.

(** X11.  For an entry of an index built by [buildSearchIndex()] from nodes
    with ASCII names, a query that occurs in the name occurs in the path:
    the score is 0, 10, 30, 60 or 110, never 20, 50 or 100, and an entry
    scores above 0 exactly when the query occurs in its path. *)
Theorem index_scores fuel m idx k e q :
  wf m -> ascii_names m ->
  buildSearchIndex fuel m = Some idx -> Map_get k idx = Some e ->
  calculateSearchScore q e ∈ [0; 10; 30; 60; 110]%Z /\
  ((0 < calculateSearchScore q e)%Z <-> includes (idx_path e) q = true) /\
  (idx_name e = q -> calculateSearchScore q e = 110%Z).
Proof.
  intros Hwf Hascii H He.
  assert (Hinc : forall q', includes (idx_name e) q' = true -> includes (idx_path e) q' = true).
  { pose proof (buildSearchIndex_entries fuel m idx Hwf H) as HF.
    apply Map_get_Some_elem in He. apply list_elem_of_lookup in He as [j Hj].
    destruct (Forall2_lookup_r _ _ _ _ _ HF Hj) as ([k' n] & Hm & Ek & path & Hp & Ee).
    cbn [fst snd] in *. subst k'.
    assert (Hg : Map_get k m = Some n).
    { apply Map_get_elem; [apply Hwf|]. eapply list_elem_of_lookup_2; exact Hm. }
    apply getNodePath_loop_ancestry in Hp as (l & -> & Ha).
    rewrite app_nil_r in *. rewrite Hg in Ha. rewrite Ee.
    refine (proj2 (indexEntry_path_has_name m n l Hascii _ Ha)).
    apply list_elem_of_fmap. exists (k, n). split; [reflexivity|].
    apply Map_get_Some_elem, Hg. }
  assert (Hpre : startsWith (idx_name e) q = true -> includes (idx_name e) q = true).
  { unfold startsWith. intros Hs. destruct (idx_name e); cbn [includes]; rewrite Hs; reflexivity. }
  unfold calculateSearchScore.
  destruct (decide (idx_name e = q)) as [E|E].
  - rewrite Hinc by (rewrite E; apply includes_refl).
    split; [rewrite !elem_of_cons; lia|]. split; [split; [reflexivity|lia]|reflexivity].
  - destruct (startsWith (idx_name e) q) eqn:Es.
    + rewrite Hinc by (apply Hpre; reflexivity).
      split; [rewrite !elem_of_cons; lia|]. split; [split; [reflexivity|lia]|contradiction].
    + destruct (includes (idx_name e) q) eqn:Ei.
      * rewrite Hinc by exact Ei.
        split; [rewrite !elem_of_cons; lia|]. split; [split; [reflexivity|lia]|contradiction].
      * destruct (includes (idx_path e) q).
        -- split; [rewrite !elem_of_cons; lia|]. split; [split; [reflexivity|lia]|contradiction].
        -- split; [rewrite !elem_of_cons; lia|]. split; [split; [lia|discriminate]|contradiction].
Qed.

Lemma index_scores_witness :
  calculateSearchScore "em" (mkIndexed "n6" "emerald mire" leaf "locations > swamps > emerald mire")
    ∈ [0; 10; 30; 60; 110]%Z /\
  ((0 < calculateSearchScore "em"
          (mkIndexed "n6" "emerald mire" leaf "locations > swamps > emerald mire"))%Z <->
   includes (idx_path (mkIndexed "n6" "emerald mire" leaf "locations > swamps > emerald mire"))
     "em" = true) /\
  (idx_name (mkIndexed "n6" "emerald mire" leaf "locations > swamps > emerald mire") = "em" ->
   calculateSearchScore "em"
     (mkIndexed "n6" "emerald mire" leaf "locations > swamps > emerald mire") = 110%Z).
Proof.
  assert (H1 : buildSearchIndex 16 (nodes vault) = Some (searchIndex vault))
    by (vm_compute; reflexivity).
  assert (H2 : Map_get "n6" (searchIndex vault)
               = Some (mkIndexed "n6" "emerald mire" leaf "locations > swamps > emerald mire"))
    by (vm_compute; reflexivity).
  exact (index_scores 16 (nodes vault) (searchIndex vault) "n6" _ "em" vault_wf
           vault_ascii_names H1 H2).
Defined.

(** ** Where [reorderNode] puts the node *)

Lemma renumbered_fields now j s :
  id (renumbered now j s) = id s /\ parentId (renumbered now j s) = parentId s /\
  type (renumbered now j s) = type s /\ name (renumbered now j s) = name s /\
  active (renumbered now j s) = active s /\ createdAt (renumbered now j s) = createdAt s /\
  orderIndex (renumbered now j s) = Z.of_nat j.
Proof. unfold renumbered. case_decide; cbn; auto 10. Qed.

Lemma renumberedFrom_id now l : forall j, id <$> renumberedFrom now j l = id <$> l.
Proof.
  induction l as [|s r IH]; intros j; [reflexivity|].
  cbn [renumberedFrom]. rewrite !fmap_cons, IH.
  destruct (renumbered_fields now j s) as (-> & _). reflexivity.
Qed.

Lemma renumberedFrom_orderIndex now l : forall j,
  orderIndex <$> renumberedFrom now j l = seqZ (Z.of_nat j) (Z.of_nat (length l)).
Proof.
  induction l as [|s r IH]; intros j.
  - rewrite seqZ_nil by (cbn; lia). reflexivity.
  - cbn [renumberedFrom]. rewrite fmap_cons, IH.
    rewrite (seqZ_cons (Z.of_nat j)) by (cbn [length]; lia).
    destruct (renumbered_fields now j s) as (_ & _ & _ & _ & _ & _ & ->).
    f_equal. f_equal; cbn [length]; lia.
Qed.

Lemma renumber_step now j s r st :
  renumber now j (s :: r) st
  = renumber now (S j) r
      (if decide (orderIndex s = Z.of_nat j) then st
       else set_nodes (Map_set (id s) (renumbered now j s) (nodes st))
              (set_db (db_saveNode (renumbered now j s) (db st)) st)).
Proof.
  cbn [renumber]. unfold renumbered. destruct (decide (orderIndex s = Z.of_nat j));
    reflexivity.
Qed.

Lemma renumber_group_list now p :
  forall r j st done,
    wf (nodes st) ->
    filter (fun n => parentId n = p) (Map_values (nodes st)) ≡ₚ done ++ r ->
    filter (fun n => parentId n = p) (Map_values (nodes (renumber now j r st)))
      ≡ₚ done ++ renumberedFrom now j r.
Proof.
  induction r as [|s r IH]; intros j st done Hwf Hperm; [exact Hperm|].
  rewrite renumber_step. cbn [renumberedFrom].
  assert (Hs : s ∈ filter (fun n => parentId n = p) (Map_values (nodes st))).
  { rewrite Hperm. apply elem_of_app. right. left. }
  apply list_elem_of_filter in Hs as [Hsp Hsin].
  destruct (renumbered_fields now j s) as (Rid & Rp & _).
  destruct (decide (orderIndex s = Z.of_nat j)) as [Ho|Ho].
  - assert (E : renumbered now j s = s)
      by (unfold renumbered; rewrite decide_True by exact Ho; reflexivity).
    rewrite E.
    rewrite (IH (S j) st (done ++ [s]) Hwf); [rewrite <- app_assoc; reflexivity|].
    rewrite Hperm, <- app_assoc. reflexivity.
  - set (s' := renumbered now j s) in *.
    pose proof (wf_value_get _ _ Hwf Hsin) as Hget.
    match goal with |- context [renumber now (S j) r ?st1] => set (st1' := st1) end.
    assert (Hwf1 : wf (nodes st1')).
    { subst st1'. cbn. apply wf_set; [exact Hwf| |exact Rid].
      eapply Map_get_Some_key; eauto. }
    rewrite (IH (S j) st1' (done ++ [s']) Hwf1); [rewrite <- app_assoc; reflexivity|].
    subst st1'. cbn.
    rewrite (group_after_set _ (id s) s s' p Hwf Hget);
      [|exact Rid|exact Hsp|rewrite Rp; exact Hsp].
    rewrite Hperm, filter_out_one.
    + rewrite <- app_assoc. cbn. apply Permutation_middle.
    + rewrite <- Hperm. apply wf_group_NoDup, Hwf.
Qed.

Lemma StronglySorted_of_fmap (f : Node -> Z) (l : list Node) :
  StronglySorted Z.le (f <$> l) -> StronglySorted (fun a b => (f a <= f b)%Z) l.
Proof.
  induction l as [|x l IH]; [constructor|].
  rewrite fmap_cons. intros H. apply StronglySorted_inv in H as [Hs Hall].
  constructor; [apply IH, Hs|]. rewrite Forall_fmap in Hall. exact Hall.
Qed.

Lemma sorted_group_unique (l L : list Node) n :
  l ≡ₚ L -> orderIndex <$> L = seqZ 0 (Z.of_nat n) -> sortBy byOrderIndex l = L.
Proof.
  intros Hp Ho.
  assert (Hperm : sortBy byOrderIndex l ≡ₚ L) by (rewrite sortBy_perm; exact Hp).
  apply (StronglySorted_unique_strong (fun a b => byOrderIndex a b = true));
    [|apply sortBy_sorted; [apply byOrderIndex_total|apply byOrderIndex_trans]| |exact Hperm].
  - intros x1 x2 H1 H2 H12 H21. rewrite Hperm in H1.
    apply (NoDup_fmap_inj_on orderIndex L); try assumption.
    + rewrite Ho. apply NoDup_seqZ.
    + unfold byOrderIndex in *. rewrite Z.leb_le in H12, H21. lia.
  - eapply StronglySorted_weaken; [|apply (StronglySorted_of_fmap orderIndex)].
    + intros a b H. unfold byOrderIndex. apply Z.leb_le. exact H.
    + rewrite Ho. apply seqZ_sorted.
Qed.

Lemma findIndex_complete i (l : list Node) s :
  s ∈ l -> id s = i -> is_Some (findIndex i l).
Proof.
  induction l as [|x l IH]; [inversion 1|]. intros Hs Hid. cbn [findIndex].
  case_decide; [eauto|]. apply elem_of_cons in Hs as [->|Hs]; [contradiction|].
  destruct (IH Hs Hid) as [j ->]. eauto.
Qed.

Lemma splice_insert_pos {A} start (x : A) l :
  splice_insert start x l
  = take (splicePos start (length l)) l ++ x :: drop (splicePos start (length l)) l /\
  splicePos start (length l) <= length l.
Proof. split; [reflexivity|]. unfold splicePos. destruct (Z.ltb_spec start 0); lia. Qed.

Lemma rootNodes_reorderNode st i newIndex now :
  rootNodes (reorderNode st i newIndex now) = rootNodes st.
Proof.
  unfold reorderNode. destruct (Map_get i (nodes st)) as [nd|]; [|reflexivity].
  destruct (findIndex i _) as [j0|]; [|reflexivity]. case_decide; [reflexivity|]. cbn.
  generalize (splice_insert newIndex nd
                (splice_remove j0 (getChildren (nodes st) (parentId nd)))).
  intros l. generalize 0. revert st. induction l as [|s r IH]; intros st j; [reflexivity|].
  rewrite renumber_step, IH. case_decide; reflexivity.
Qed.

(** X12.  [reorderNode(i, newIndex)] on a well-formed store finds [i] among
    the children of its parent.  With [newIndex] its present position
    nothing changes.  Otherwise the children, in [orderIndex] order, are
    afterwards the old ones with [i] taken out and put back where
    [splice(newIndex, 0, node)] puts it — at [newIndex] if that is within
    the array, at the end if it is beyond, counted from the end if it is
    negative — each keeping its fields but [orderIndex], which is its new
    position, and [updatedAt] where the position changed.  The root list is
    not touched. *)
Theorem reorderNode_places st i newIndex now node :
  wf (nodes st) -> Map_get i (nodes st) = Some node ->
  let siblings := getChildren (nodes st) (parentId node) in
  let st' := reorderNode st i newIndex now in
  exists oldIndex,
    findIndex i siblings = Some oldIndex /\
    siblings !! oldIndex = Some node /\
    (Z.of_nat oldIndex = newIndex -> st' = st) /\
    (Z.of_nat oldIndex <> newIndex ->
     let rest := splice_remove oldIndex siblings in
     getChildren (nodes st') (parentId node)
       = renumberedFrom now 0 (splice_insert newIndex node rest) /\
     id <$> getChildren (nodes st') (parentId node)
       = id <$> splice_insert newIndex node rest /\
     (id <$> getChildren (nodes st') (parentId node)) !! splicePos newIndex (length rest)
       = Some i /\
     orderIndex <$> getChildren (nodes st') (parentId node)
       = seqZ 0 (Z.of_nat (length siblings))) /\
    rootNodes st' = rootNodes st.
Proof.
  intros Hwf Hi siblings st'.
  destruct (wf_key_id _ _ _ Hwf Hi) as [Hid _].
  assert (Hin : node ∈ siblings).
  { apply elem_of_getChildren. split; [|reflexivity].
    apply Map_get_Some_elem in Hi. apply list_elem_of_fmap. exists (i, node). auto. }
  destruct (findIndex_complete i siblings node Hin Hid) as [j Ef].
  exists j. split; [exact Ef|].
  pose proof Ef as Ef'. apply findIndex_Some in Ef' as (s & Hs & Hsid).
  assert (s = node) as ->.
  { assert (Hs' : s ∈ siblings) by (eapply list_elem_of_lookup_2; eauto).
    apply elem_of_getChildren in Hs' as [Hs' _].
    apply (wf_value_get _ _ Hwf) in Hs'. rewrite Hsid, Hi in Hs'. congruence. }
  split; [exact Hs|].
  split; [|split; [|apply rootNodes_reorderNode]].
  - intros E. subst st'. unfold reorderNode. rewrite Hi. fold siblings. rewrite Ef.
    rewrite decide_True by exact E. reflexivity.
  - intros Hne rest.
    assert (Hnodes : nodes st'
                     = nodes (renumber now 0 (splice_insert newIndex node rest) st)).
    { subst st'. unfold reorderNode. rewrite Hi. fold siblings. rewrite Ef.
      rewrite decide_False by exact Hne. reflexivity. }
    assert (Hlen : length (splice_insert newIndex node rest) = length siblings).
    { rewrite (Permutation_length (splice_insert_perm rest newIndex node)).
      rewrite <- (Permutation_length (splice_remove_perm siblings j node Hs)). reflexivity. }
    assert (Hg : getChildren (nodes st') (parentId node)
                 = renumberedFrom now 0 (splice_insert newIndex node rest)).
    { rewrite Hnodes. unfold getChildren at 1.
      apply (sorted_group_unique _ _ (length siblings)).
      - apply (renumber_group_list now (parentId node) _ 0 st [] Hwf).
        rewrite app_nil_l, splice_insert_perm. subst rest.
        rewrite (splice_remove_perm _ _ _ Hs).
        unfold siblings, getChildren. rewrite sortBy_perm. reflexivity.
      - rewrite renumberedFrom_orderIndex, Hlen. reflexivity. }
    rewrite Hg, renumberedFrom_id, renumberedFrom_orderIndex, Hlen.
    split; [reflexivity|]. split; [reflexivity|]. split; [|reflexivity].
    destruct (splice_insert_pos newIndex node rest) as [-> Hpos].
    rewrite fmap_app, fmap_cons, <- Hid.
    replace (splicePos newIndex (length rest))
      with (length (id <$> take (splicePos newIndex (length rest)) rest)) at 1
      by (rewrite length_fmap, length_take; lia).
    apply list_lookup_middle. reflexivity.
Qed.

Lemma reorderNode_places_witness :
  let node := mkNode "p1" (Some "p") leaf "P1" 0 false 3 3 in
  let siblings := getChildren (nodes twoFolders) (parentId node) in
  let st' := reorderNode twoFolders "p1" 5 70 in
  exists oldIndex,
    findIndex "p1" siblings = Some oldIndex /\
    siblings !! oldIndex = Some node /\
    (Z.of_nat oldIndex = 5%Z -> st' = twoFolders) /\
    (Z.of_nat oldIndex <> 5%Z ->
     let rest := splice_remove oldIndex siblings in
     getChildren (nodes st') (parentId node)
       = renumberedFrom 70 0 (splice_insert 5 node rest) /\
     id <$> getChildren (nodes st') (parentId node)
       = id <$> splice_insert 5 node rest /\
     (id <$> getChildren (nodes st') (parentId node)) !! splicePos 5 (length rest)
       = Some "p1" /\
     orderIndex <$> getChildren (nodes st') (parentId node)
       = seqZ 0 (Z.of_nat (length siblings))) /\
    rootNodes st' = rootNodes twoFolders.
Proof.
  assert (H : Map_get "p1" (nodes twoFolders)
              = Some (mkNode "p1" (Some "p") leaf "P1" 0 false 3 3))
    by (vm_compute; reflexivity).
  exact (reorderNode_places twoFolders "p1" 5 70 _ twoFolders_wf H).
Defined.

(** The children of [p] after [reorderNode("p1", 5)]: [p1] has gone to the
    end. *)
Example reorderNode_example :
  id <$> getChildren (nodes (reorderNode twoFolders "p1" 5 70)) (Some "p")
  = ["p2"; "x"; "p1"].
Proof. vm_compute. reflexivity. Qed.

(** ** Loading: [init] and [importVault] *)

Lemma load_roots ns : forall acc,
  snd (foldl loadStep acc ns)
  = snd acc ++ (id <$> filter (fun n => truthy (parentId n) = false) ns).
Proof.
  induction ns as [|n ns IH]; intros acc; [rewrite app_nil_r; reflexivity|].
  cbn [foldl]. rewrite IH, filter_cons. unfold loadStep. cbn [snd].
  destruct (truthy (parentId n)).
  - rewrite decide_False by discriminate. reflexivity.
  - rewrite decide_True by reflexivity. rewrite fmap_cons, <- app_assoc. reflexivity.
Qed.

Lemma elem_of_store_getAll {V} (s : gmap string V) v :
  v ∈ store_getAll s <-> exists k, s !! k = Some v.
Proof.
  unfold store_getAll. rewrite list_elem_of_fmap. split.
  - intros ([k v'] & -> & Hin). apply elem_of_sortBy, elem_of_map_to_list in Hin. eauto.
  - intros [k Hk]. exists (k, v). split; [reflexivity|].
    apply elem_of_sortBy, elem_of_map_to_list. exact Hk.
Qed.

Lemma getAllNodes_NoDup d : db_wf d -> NoDup (id <$> db_getAllNodes d).
Proof.
  intros [Hn _]. unfold db_getAllNodes, store_getAll.
  set (l := sortBy (fun a b => key_leb (fst a) (fst b)) (map_to_list (nodeStore d))).
  assert (Hperm : l ≡ₚ map_to_list (nodeStore d)) by apply sortBy_perm.
  assert (E : id <$> l.*2 = l.*1).
  { rewrite <- list_fmap_compose. apply Forall_fmap_ext_1, Forall_forall.
    intros [k n] Hin. rewrite Hperm in Hin. apply elem_of_map_to_list in Hin.
    exact (Hn k n Hin). }
  rewrite E, Hperm. apply NoDup_fst_map_to_list.
Qed.

Lemma StronglySorted_with {A} (R : relation A) (Q : A -> Prop) l :
  StronglySorted R l -> Forall Q l ->
  StronglySorted (fun x y => Q x /\ Q y /\ R x y) l.
Proof.
  induction 1 as [|x l Hs IH Hall]; intros HQ; [constructor|].
  apply Forall_cons in HQ as [Hx HQ]. constructor; [apply IH, HQ|].
  rewrite Forall_forall in *. intros y Hy. auto.
Qed.

Lemma Forall2_zip {A B} (P : A -> B -> Prop) l k :
  Forall2 P l k -> Forall (fun x => P (fst x) (snd x)) (zip l k).
Proof. induction 1; constructor; assumption. Qed.

Lemma sortRootNodes_sorted m l sorted :
  sortRootNodes m l = Some sorted ->
  StronglySorted
    (fun a b => forall na nb, Map_get a m = Some na -> Map_get b m = Some nb ->
                              (orderIndex na <= orderIndex nb)%Z)
    sorted.
Proof.
  unfold sortRootNodes. destruct (length l <? 2)%nat eqn:El.
  - intros [= <-]. apply Nat.ltb_lt in El.
    destruct l as [|a [|b l]]; [constructor|repeat constructor|cbn in El; lia].
  - destruct (mapM _ l) as [ns|] eqn:E; [|discriminate]. intros [= <-].
    apply mapM_Some_1, Forall2_zip in E.
    apply (StronglySorted_fmap fst
             (fun x y => Map_get (fst x) m = Some (snd x) /\
                         Map_get (fst y) m = Some (snd y) /\
                         byOrderIndex (snd x) (snd y) = true)).
    + intros x y (Hx & Hy & Hle) na nb Ha Hb.
      rewrite Hx in Ha. rewrite Hy in Hb. injection Ha as <-. injection Hb as <-.
      apply Z.leb_le. exact Hle.
    + apply (StronglySorted_with
               (fun x y : string * Node => byOrderIndex (snd x) (snd y) = true)
               (fun x => Map_get (fst x) m = Some (snd x))).
      * apply (sortBy_sorted (fun x y : string * Node => byOrderIndex (snd x) (snd y))).
        -- intros a b. apply byOrderIndex_total.
        -- intros a b c. apply byOrderIndex_trans.
      * rewrite Forall_forall. intros x Hx. apply elem_of_sortBy in Hx.
        rewrite Forall_forall in E. exact (E x Hx).
Qed.

Lemma loadedNodes_wf d : db_wf d -> nodeStore d !! "" = None -> wf (loadedNodes d).
Proof.
  intros Hdb He. split; [apply loadedNodes_NoDup|].
  rewrite Forall_forall. intros [k n] Hin.
  apply (Map_get_elem _ _ _ (loadedNodes_NoDup d)) in Hin.
  rewrite (loadedNodes_lookup d k Hdb) in Hin. cbn [fst snd].
  split; [exact (proj1 Hdb k n Hin)|]. intros ->. congruence.
Qed.

Lemma loadNodes_result fuel st :
  db_wf (db st) -> nodeStore (db st) !! "" = None ->
  acyclic (loadedNodes (db st)) -> length (loadedNodes (db st)) <= fuel ->
  exists sorted idx,
    loadNodes fuel st
    = Some (Returned tt
              (emit ev_nodesChanged
                 (set_searchIndex idx
                    (set_rootNodes sorted (set_nodes (loadedNodes (db st)) st))))) /\
    wf (loadedNodes (db st)) /\
    (forall k, Map_get k (loadedNodes (db st)) = nodeStore (db st) !! k) /\
    NoDup sorted /\
    (forall k, k ∈ sorted <->
               exists n, Map_get k (loadedNodes (db st)) = Some n /\
                         truthy (parentId n) = false) /\
    StronglySorted
      (fun a b => forall na nb,
         Map_get a (loadedNodes (db st)) = Some na ->
         Map_get b (loadedNodes (db st)) = Some nb ->
         (orderIndex na <= orderIndex nb)%Z)
      sorted.
Proof.
  intros Hdb He Hac Hle.
  pose proof (loadedNodes_lookup (db st)) as Hlook.
  unfold loadNodes. fold loadStep.
  set (loaded := foldl loadStep ([], []) (db_getAllNodes (db st))).
  change (fst loaded) with (loadedNodes (db st)).
  destruct (load_roots_known (db_getAllNodes (db st)) ([], [])) as [_ Hroots].
  { apply NoDup_nil_2. }
  { intros r Hr. inversion Hr. }
  fold loaded in Hroots. cbn [nodes rootNodes set_nodes set_rootNodes].
  change (fst loaded) with (loadedNodes (db st)) in *.
  destruct (sortRootNodes (loadedNodes (db st)) (snd loaded)) as [sorted|] eqn:Es.
  2:{ destruct (sortRootNodes_known _ _ Hroots) as [x Hx]. congruence. }
  match goal with |- context [rebuildIndex ?f ?s] =>
    destruct (rebuildIndex_total s f) as [idx Hidx]; [exact Hac|exact Hle|] end.
  exists sorted, idx. rewrite Hidx.
  split; [reflexivity|]. split; [apply loadedNodes_wf; assumption|].
  split; [intros k; apply Hlook, Hdb|].
  pose proof (sortRootNodes_perm _ _ _ Es) as Hperm.
  assert (Hsnd : snd loaded
                 = id <$> filter (fun n => truthy (parentId n) = false)
                            (db_getAllNodes (db st))).
  { subst loaded. rewrite load_roots. reflexivity. }
  split; [|split; [|eapply sortRootNodes_sorted; exact Es]].
  - rewrite Hperm, Hsnd. eapply sublist_NoDup; [apply getAllNodes_NoDup, Hdb|].
    apply fmap_sublist, sublist_filter.
  - intros k. rewrite Hperm, Hsnd, list_elem_of_fmap. split.
    + intros (n & -> & Hn). apply list_elem_of_filter in Hn as [Hf Hn].
      apply elem_of_store_getAll in Hn as [k Hk].
      exists n. rewrite (Hlook _ Hdb). rewrite (proj1 Hdb k n Hk). auto.
    + intros (n & Hn & Hf). rewrite (Hlook _ Hdb) in Hn. exists n.
      split; [symmetry; exact (proj1 Hdb k n Hn)|].
      apply list_elem_of_filter. split; [exact Hf|].
      apply elem_of_store_getAll. eauto.
Qed.

Lemma importAll_db_wf data d : db_wf (db_importAll data d).
Proof.
  unfold db_importAll. split; cbn.
  - generalize (snap_nodes data). intros l.
    assert (H : map_Forall (fun k n => id n = k) (∅ : gmap string Node))
      by apply map_Forall_empty.
    revert H. generalize (∅ : gmap string Node). induction l as [|n l IH]; intros g H; [exact H|].
    cbn [foldl]. apply IH. apply map_Forall_insert_2; [reflexivity|exact H].
  - generalize (snap_contents data). intros l.
    assert (H : map_Forall (fun k c => nodeId c = k) (∅ : gmap string Content))
      by apply map_Forall_empty.
    revert H. generalize (∅ : gmap string Content). induction l as [|n l IH]; intros g H; [exact H|].
    cbn [foldl]. apply IH. apply map_Forall_insert_2; [reflexivity|exact H].
Qed.

(** ** The round trip of export and import *)







(** X13.  [init()] on a database whose records have non-empty ids and form no
    cycle returns, with [initialized] set and [nodesChanged], [initialized]
    emitted; the database is as it was; the map is well-formed and holds
    what the node object store holds; the root list holds the parentless
    nodes, once each, in the order of their [orderIndex]; selection and
    current content are as they were. *)
Theorem init_loads fuel st :
  db_wf (db st) -> nodeStore (db st) !! "" = None ->
  acyclic (loadedNodes (db st)) -> length (loadedNodes (db st)) <= fuel ->
  exists st',
    init fuel st = Some (Returned tt st') /\
    initialized st' = true /\
    emitted st' = emitted st ++ [ev_nodesChanged; ev_initialized] /\
    db st' = db st /\
    wf (nodes st') /\ mirrors st' /\ roots_ok st' /\ roots_sorted st' /\
    selectedNodeId st' = selectedNodeId st /\ currentContent st' = currentContent st.
Proof.
  intros Hdb He Hac Hle.
  destruct (loadNodes_result fuel st Hdb He Hac Hle)
    as (sorted & idx & Hload & Hwf & Hlook & Hnd & Hroots & Hsorted).
  unfold init. rewrite Hload. eexists. split; [reflexivity|]. cbn.
  split; [reflexivity|]. split; [rewrite <- app_assoc; reflexivity|].
  split; [reflexivity|]. split; [exact Hwf|]. split; [exact Hlook|].
  split; [split; assumption|]. split; [exact Hsorted|]. split; reflexivity.
Qed.

Lemma filter_none {A} (P : A -> Prop) `{!forall a, Decision (P a)} (l : list A) :
  (forall a, a ∈ l -> ~ P a) -> filter P l = [].
Proof.
  induction l as [|x l IH]; intros Hall; [reflexivity|].
  rewrite filter_cons, decide_False by (apply Hall; left).
  apply IH. intros a Ha. apply Hall. right. exact Ha.
Qed.

Lemma foldl_put_last {V} (keyOf : V -> string) (l : list V) : forall (g : gmap string V) k,
  foldl (fun s v => <[keyOf v := v]> s) g l !! k
  = match last (filter (fun v => keyOf v = k) l) with
    | Some v => Some v
    | None => g !! k
    end.
Proof.
  induction l as [|x l IH]; intros g k; [reflexivity|].
  cbn [foldl]. rewrite IH, filter_cons. destruct (decide (keyOf x = k)) as [E|E].
  - rewrite last_cons. destruct (last (filter _ l)); [reflexivity|].
    rewrite E. apply lookup_insert_eq.
  - destruct (last (filter _ l)); [reflexivity|]. apply lookup_insert_ne. exact E.
Qed.

Lemma importAll_lookup data d :
  (forall k, nodeStore (db_importAll data d) !! k
             = last (filter (fun n => id n = k) (snap_nodes data))) /\
  (forall k, contentStore (db_importAll data d) !! k
             = last (filter (fun c => nodeId c = k) (snap_contents data))).
Proof.
  unfold db_importAll. cbn [nodeStore contentStore].
  split; intros k; rewrite foldl_put_last;
    match goal with |- context [last ?l] => destruct (last l) end;
    first [reflexivity|apply lookup_empty].
Qed.

(** X14.  [importVault(data)], the node records of [data] having non-empty
    ids and forming no cycle, returns a store whose two object stores hold,
    under each key, the last record of [data] with that key and nothing
    else, whatever the database held before; the node map is well-formed and
    holds what the node object store holds, the root list holds the
    parentless nodes in [orderIndex] order, nothing is selected, there is no
    current content and nothing is expanded. *)
Theorem importVault_loads fuel st data :
  let d := db_importAll data (db st) in
  Forall (fun n => id n <> "") (snap_nodes data) ->
  acyclic (loadedNodes d) -> length (loadedNodes d) <= fuel ->
  exists st',
    importVault fuel st data = Some (Returned tt st') /\
    (forall k, nodeStore (db st') !! k
               = last (filter (fun n => id n = k) (snap_nodes data))) /\
    (forall k, contentStore (db st') !! k
               = last (filter (fun c => nodeId c = k) (snap_contents data))) /\
    (forall k, getNode st' k = last (filter (fun n => id n = k) (snap_nodes data))) /\
    wf (nodes st') /\ mirrors st' /\ roots_ok st' /\ roots_sorted st' /\
    selectedNodeId st' = None /\ currentContent st' = None /\ expandedNodes st' = ∅.
Proof.
  intros d Hids Hac Hle.
  assert (Hdb : db_wf d) by apply importAll_db_wf.
  destruct (importAll_lookup data (db st)) as [Hnodes Hcontents]. fold d in Hnodes, Hcontents.
  assert (He : nodeStore d !! "" = None).
  { rewrite Hnodes. rewrite (filter_none (fun n => id n = "")); [reflexivity|].
    intros n Hn. rewrite Forall_forall in Hids. exact (Hids n Hn). }
  destruct (loadNodes_result fuel (set_db d st) Hdb He Hac Hle)
    as (sorted & idx & Hload & Hwf & Hlook & Hnd & Hroots & Hsorted).
  unfold importVault. fold d. rewrite Hload. eexists. split; [reflexivity|]. cbn.
  split; [exact Hnodes|]. split; [exact Hcontents|].
  split; [intros k; unfold getNode; cbn; rewrite <- Hnodes; apply Hlook|].
  split; [exact Hwf|]. split; [exact Hlook|].
  split; [split; assumption|]. split; [exact Hsorted|].
  split; [reflexivity|]. split; reflexivity.
Qed.

Lemma init_loads_witness :
  exists st',
    init 16 coldStore = Some (Returned tt st') /\
    initialized st' = true /\
    emitted st' = emitted coldStore ++ [ev_nodesChanged; ev_initialized] /\
    db st' = db coldStore /\
    wf (nodes st') /\ mirrors st' /\ roots_ok st' /\ roots_sorted st' /\
    selectedNodeId st' = selectedNodeId coldStore /\
    currentContent st' = currentContent coldStore.
Proof.
  assert (H1 : db_wf (db coldStore)) by (change (db_wf (db vault)); apply vault_db_wf).
  assert (H2 : nodeStore (db coldStore) !! "" = None) by (vm_compute; reflexivity).
  assert (H3 : acyclic (loadedNodes (db coldStore)))
    by (apply acyclicb_sound; vm_compute; reflexivity).
  assert (H4 : length (loadedNodes (db coldStore)) <= 16) by (vm_compute; lia).
  pose proof (init_loads 16 coldStore H1 H2 H3 H4) as R.
  exact R.
Defined.

Lemma importVault_loads_witness :
  exists st',
    importVault 16 twoFolders (exportVault "2026-11-01" vault) = Some (Returned tt st') /\
    (forall k, nodeStore (db st') !! k
               = last (filter (fun n => id n = k) (snap_nodes (exportVault "2026-11-01" vault)))) /\
    (forall k, contentStore (db st') !! k
               = last (filter (fun c => nodeId c = k)
                         (snap_contents (exportVault "2026-11-01" vault)))) /\
    (forall k, getNode st' k
               = last (filter (fun n => id n = k) (snap_nodes (exportVault "2026-11-01" vault)))) /\
    wf (nodes st') /\ mirrors st' /\ roots_ok st' /\ roots_sorted st' /\
    selectedNodeId st' = None /\ currentContent st' = None /\ expandedNodes st' = ∅.
Proof.
  assert (H1 : Forall (fun n => id n <> "") (snap_nodes (exportVault "2026-11-01" vault)))
    by (apply (bool_decide_unpack _); vm_compute; reflexivity).
  assert (H2 : acyclic (loadedNodes
                          (db_importAll (exportVault "2026-11-01" vault) (db twoFolders))))
    by (apply acyclicb_sound; vm_compute; reflexivity).
  assert (H3 : length (loadedNodes
                         (db_importAll (exportVault "2026-11-01" vault) (db twoFolders))) <= 16)
    by (vm_compute; lia).
  pose proof (importVault_loads 16 twoFolders (exportVault "2026-11-01" vault) H1 H2 H3) as R.
  exact R.
Defined.

(** Of two records with the id [a] the later one is the node after the
    import, and the content store of the old database is gone. *)
Example importVault_example :
  let data :=
    mkSnapshot DB_VERSION "2026-11-01"
      [mkNode "a" None folder "First" 0 false 1 1; mkNode "a" None folder "Second" 0 false 2 2]
      [] in
  (final <$> importVault 16 twoFolders data) ≫= (fun s =>
     Some (name <$> getNode s "a", rootNodes s, size (contentStore (db s)),
           getNode s "p"))
  = Some (Some "Second", ["a"], 0, None).
Proof. vm_compute. reflexivity. Qed.

(** ** What [duplicateNode] adds *)

Lemma Map_get_app {V} k (m1 m2 : list (string * V)) :
  Map_get k (m1 ++ m2)
  = match Map_get k m1 with Some v => Some v | None => Map_get k m2 end.
Proof.
  induction m1 as [|[k' v] m1 IH]; [reflexivity|]. cbn [app Map_get].
  case_decide; [reflexivity|exact IH].
Qed.

Lemma grown_refl st : grown st st [].
Proof.
  split; [exists []; rewrite app_nil_r; auto|]. split; [auto|]. auto.
Qed.

Lemma grown_trans a b c K1 K2 : grown a b K1 -> grown b c K2 -> grown a c (K1 ++ K2).
Proof.
  intros ((ad1 & Hn1 & Hk1) & Hd1 & Hs1 & Hc1) ((ad2 & Hn2 & Hk2) & Hd2 & Hs2 & Hc2).
  split; [|split; [|split; congruence]].
  - exists (ad1 ++ ad2). rewrite Hn2, Hn1, <- app_assoc. split; [reflexivity|].
    unfold Map_keys in *. rewrite fmap_app, Hk1, Hk2. reflexivity.
  - intros k Hk. rewrite elem_of_app in Hk.
    destruct (Hd1 k) as [E1 E2]; [tauto|]. destruct (Hd2 k) as [E3 E4]; [tauto|].
    split; congruence.
Qed.

Lemma grown_sub st st' K k n :
  grown st st' K -> Map_get k (nodes st) = Some n -> Map_get k (nodes st') = Some n.
Proof. intros ((ad & -> & _) & _) H. rewrite Map_get_app, H. reflexivity. Qed.

Lemma grown_known st st' K k :
  grown st st' K -> Map_get k (nodes st) <> None -> Map_get k (nodes st') <> None.
Proof.
  intros G H. destruct (Map_get k (nodes st)) as [n|] eqn:E; [|contradiction].
  rewrite (grown_sub _ _ _ _ _ G E). discriminate.
Qed.

Lemma grown_created fuel st args newId now node st1 nd i :
  Map_get newId (nodes st) = None ->
  createNode fuel st args newId now = Some (node, st1) ->
  grown st (copied st1 nd i newId now) [newId].
Proof.
  intros Hg Hc. apply createNode_fields in Hc as (_ & Hn & Hd & Hct & _ & Hs & Hcc & _).
  assert (Hcs : forall k, k <> newId ->
            contentStore (db st1) !! k = contentStore (db st) !! k).
  { intros k Hk. destruct (a_type args); rewrite Hct; [reflexivity|].
    apply lookup_insert_ne. congruence. }
  split; [|split].
  - exists [(newId, node)]. rewrite nodes_copied, Hn. split; [|reflexivity].
    apply Map_set_absent. apply Map_get_None_key, Hg.
  - intros k Hk. rewrite list_elem_of_singleton in Hk.
    unfold copied. destruct (type nd); cbn.
    + rewrite Hd, lookup_insert_ne by congruence. auto.
    + rewrite Hd, !lookup_insert_ne by congruence. auto.
  - unfold copied. destruct (type nd); cbn; auto.
Qed.

Lemma rootNodes_copied st nd i newId now :
  rootNodes (copied st nd i newId now) = rootNodes st.
Proof. unfold copied. destruct (type nd); reflexivity. Qed.

Lemma rtc_grown st st' K x y :
  grown st st' K -> rtc (parent_step (nodes st)) x y -> rtc (parent_step (nodes st')) x y.
Proof.
  intros G. apply rtc_parent_step_sub. intros k n. apply (grown_sub _ _ _ _ _ G).
Qed.

Lemma unreferenced_app m used rest :
  unreferenced m (used ++ rest) -> unreferenced m rest.
Proof. intros H k n x Hk Hx. apply (H k n x Hk). apply elem_of_app. auto. Qed.

Lemma duplicateLoop_spec f np :
  (forall st i supply c,
     wf (nodes st) -> fresh (nodes st) supply ->
     Map_get np (nodes st) <> None -> Map_get i (nodes st) <> None ->
     duplicateNodeRecursive f st i np supply = Some c ->
     exists used, duplicated st np supply used c) ->
  forall cs st supply c,
    wf (nodes st) -> fresh (nodes st) supply ->
    Map_get np (nodes st) <> None ->
    (forall ch, ch ∈ cs -> Map_get (id ch) (nodes st) <> None) ->
    foldl (duplicateStep f np) (Some (Returned supply st)) cs = Some c ->
    exists used, duplicated st np supply used c.
Proof.
  intros IHf. induction cs as [|ch cs IH]; intros st supply c Hwf Hfr Hnp Hcs E.
  - cbn in E. injection E as <-. exists []. cbn.
    split; [reflexivity|]. split; [reflexivity|]. split; [exact Hwf|]. split; [exact Hfr|].
    split; [apply grown_refl|]. split; [reflexivity|].
    split; [intros k Hk; inversion Hk|]. split; [intros k n Hk; inversion Hk|]. auto.
  - cbn [foldl duplicateStep] in E.
    destruct (duplicateNodeRecursive f st (id ch) np supply) as [c1|] eqn:E1;
      [|rewrite duplicateStep_None in E; discriminate].
    destruct (IHf _ _ _ _ Hwf Hfr Hnp (Hcs ch ltac:(left)) E1)
      as (used1 & Hs1 & Hc1 & Hw1 & Hf1 & Hg1 & Hr1 & Hreach1 & Hpar1 & Hac1).
    rewrite Hc1 in E.
    destruct (IH _ _ _ Hw1 Hf1 (grown_known _ _ _ _ Hg1 Hnp)
                (fun x Hx => grown_known _ _ _ _ Hg1 (Hcs x ltac:(right; exact Hx))) E)
      as (used2 & Hs2 & Hc2 & Hw2 & Hf2 & Hg2 & Hr2 & Hreach2 & Hpar2 & Hac2).
    exists (used1 ++ used2).
    split; [rewrite Hs1, Hs2, app_assoc; reflexivity|]. split; [exact Hc2|].
    split; [exact Hw2|]. split; [exact Hf2|].
    split; [rewrite fmap_app; eapply grown_trans; eauto|].
    split; [congruence|]. split; [|split].
    + intros k Hk. rewrite fmap_app, elem_of_app in Hk. destruct Hk as [Hk|Hk].
      * eapply rtc_grown; [exact Hg2|]. apply Hreach1, Hk.
      * apply Hreach2, Hk.
    + intros k n Hk Hn. rewrite fmap_app, elem_of_app in Hk. destruct Hk as [Hk|Hk].
      * assert (Hk1 : Map_get k (nodes (final c1)) <> None).
        { destruct Hg1 as ((ad & Hn1 & Hkeys) & _). rewrite Hn1, Map_get_app.
          destruct (Map_get k (nodes st)); [discriminate|].
          intros Hnone. apply Map_get_None_key in Hnone. apply Hnone.
          rewrite Hkeys. exact Hk. }
        destruct (Map_get k (nodes (final c1))) as [n1|] eqn:En1; [|contradiction].
        pose proof (grown_sub _ _ _ _ _ Hg2 En1) as En. rewrite Hn in En. injection En as ->.
        destruct (Hpar1 k n1 Hk En1) as (p & Hp & [Hpe|Hin]); exists p;
          (split; [exact Hp|]); [left; exact Hpe|right].
        rewrite fmap_app, elem_of_app. auto.
      * destruct (Hpar2 k n Hk Hn) as (p & Hp & [Hpe|Hin]); exists p;
          (split; [exact Hp|]); [left; exact Hpe|right].
        rewrite fmap_app, elem_of_app. auto.
    + intros Ha Hu. destruct (Hac1 Ha Hu) as [Ha1 Hu1]. apply Hac2; assumption.
Qed.

Lemma created_under fuel st nm t np newId now rest node st1 nd i :
  wf (nodes st) -> fresh (nodes st) ((newId, now) :: rest) ->
  Map_get np (nodes st) <> None ->
  createNode fuel st (copyArgs nm t (Some np)) newId now = Some (node, st1) ->
  id node = newId /\
  wf (nodes (copied st1 nd i newId now)) /\
  fresh (nodes (copied st1 nd i newId now)) rest /\
  grown st (copied st1 nd i newId now) [newId] /\
  rootNodes (copied st1 nd i newId now) = rootNodes st /\
  Map_get newId (nodes (copied st1 nd i newId now)) = Some node /\
  parentId node = Some np /\ np <> "" /\
  (acyclic (nodes st) -> unreferenced (nodes st) ((newId, now) :: rest) ->
   acyclic (nodes (copied st1 nd i newId now)) /\
   unreferenced (nodes (copied st1 nd i newId now)) rest).
Proof.
  intros Hwf Hfr Hnp Hc.
  pose proof Hfr as [_ Hall]. apply Forall_cons in Hall as [[Hg Hne] Hall]. cbn in Hg, Hne.
  destruct (created_keeps (fun _ => True) ltac:(auto) ltac:(auto)
              _ _ _ _ _ _ _ _ nd i Hwf I Hfr Hc) as (Hid & Hw & _ & Hf).
  rewrite Hid in Hw, Hf.
  assert (Hnpe : np <> "").
  { destruct (Map_get np (nodes st)) as [x|] eqn:E; [|contradiction].
    exact (proj2 (wf_key_id _ _ _ Hwf E)). }
  pose proof (grown_created _ _ _ _ _ _ _ nd i Hg Hc) as Hgr.
  pose proof Hc as Hc'. apply createNode_fields in Hc' as (Hnode & Hn & _ & _ & Hr & _).
  assert (Hget : Map_get newId (nodes (copied st1 nd i newId now)) = Some node)
    by (rewrite nodes_copied, Hn; apply Map_get_set_eq).
  assert (Hpar : parentId node = Some np) by (rewrite Hnode; reflexivity).
  split; [exact Hid|]. split; [exact Hw|]. split; [exact Hf|]. split; [exact Hgr|].
  split; [|split; [exact Hget|split; [exact Hpar|split; [exact Hnpe|]]]].
  - rewrite rootNodes_copied, Hr. cbn [copyArgs a_parentId truthy].
    rewrite (proj2 (truthy_string_ne np) Hnpe). reflexivity.
  - intros Ha Hu. rewrite nodes_copied, Hn. split.
    + apply acyclic_add; [exact Ha|exact Hg| |].
      * intros k' n Hk'. exact (Hu k' n (newId, now) Hk' ltac:(left)).
      * rewrite Hpar. intros [= ->]. contradiction.
    + intros k n x Hk Hx. rewrite Map_get_set in Hk. case_decide.
      * injection Hk as <-. rewrite Hpar. intros [= ->].
        rewrite Forall_forall in Hall. destruct (Hall x Hx) as [Hnone _]. contradiction.
      * apply (Hu k n x Hk). right. exact Hx.
Qed.

Lemma duplicateNodeRecursive_spec : forall fuel np st i supply c,
  wf (nodes st) -> fresh (nodes st) supply ->
  Map_get np (nodes st) <> None -> Map_get i (nodes st) <> None ->
  duplicateNodeRecursive fuel st i np supply = Some c ->
  exists used, duplicated st np supply used c /\ used <> [].
Proof.
  induction fuel as [|f IHf]; intros np st i supply c Hwf Hfr Hnp Hi H.
  - cbn in H. destruct (Map_get i (nodes st)); [discriminate|contradiction].
  - rewrite duplicateNodeRecursive_unfold in H.
    destruct (Map_get i (nodes st)) as [node|] eqn:Ei; [|contradiction].
    destruct supply as [|[newId now] rest]; [discriminate|].
    destruct (createNode _ _ _ _ _) as [[newNode st1]|] eqn:Hc; [|discriminate].
    destruct (created_under _ _ _ _ _ _ _ _ _ _ node i Hwf Hfr Hnp Hc)
      as (Hid & Hw & Hf & Hg & Hr & Hget & Hpar & Hnpe & Hacy).
    rewrite Hid in H.
    assert (Hk1 : Map_get newId (nodes (copied st1 node i newId now)) <> None)
      by (rewrite Hget; discriminate).
    assert (Hk2 : forall ch,
              ch ∈ getChildren (nodes (copied st1 node i newId now)) (Some i) ->
              Map_get (id ch) (nodes (copied st1 node i newId now)) <> None).
    { intros ch Hch. apply elem_of_getChildren in Hch as [Hch _].
      rewrite (wf_value_get _ _ Hw Hch). discriminate. }
    assert (IHf' : forall st i supply c,
              wf (nodes st) -> fresh (nodes st) supply ->
              Map_get newId (nodes st) <> None -> Map_get i (nodes st) <> None ->
              duplicateNodeRecursive f st i newId supply = Some c ->
              exists used, duplicated st newId supply used c).
    { intros s j sup c' A B C D E. destruct (IHf newId s j sup c' A B C D E) as (u & Hu & _).
      eauto. }
    destruct (duplicateLoop_spec f newId IHf' _ _ _ _ Hw Hf Hk1 Hk2 H)
      as (used & Hs & Hcr & Hw2 & Hf2 & Hg2 & Hr2 & Hreach & Hparents & Hac2).
    exists ((newId, now) :: used). split; [|discriminate].
    pose proof (grown_sub _ _ _ _ _ Hg2 Hget) as Hget2.
    assert (Hst : rtc (parent_step (nodes (final c))) newId np).
    { apply rtc_once. exists newNode. auto. }
    split; [cbn; rewrite Hs; reflexivity|]. split; [exact Hcr|].
    split; [exact Hw2|]. split; [exact Hf2|].
    split; [apply (grown_trans _ _ _ [newId] _ Hg Hg2)|].
    split; [congruence|]. split; [|split].
    + intros k Hk. rewrite fmap_cons in Hk.
      apply elem_of_cons in Hk as [->|Hk]; [exact Hst|].
      eapply rtc_trans; [apply Hreach, Hk|exact Hst].
    + intros k n Hk Hn. rewrite fmap_cons in Hk. apply elem_of_cons in Hk as [->|Hk].
      * cbn [fst] in Hn. rewrite Hget2 in Hn. injection Hn as <-. exists np. auto.
      * destruct (Hparents k n Hk Hn) as (p & Hp & [Hpe|Hin]); exists p;
          (split; [exact Hp|]); right; rewrite fmap_cons;
          [rewrite Hpe; left|right; exact Hin].
    + intros Ha Hu. destruct (Hacy Ha Hu) as [Ha1 Hu1]. apply Hac2; assumption.
Qed.

Lemma fresh_not_known m supply k :
  fresh m supply -> Map_get k m <> None -> k ∉ supply.*1.
Proof.
  intros [_ Hall] Hk Hin. apply list_elem_of_fmap in Hin as (x & -> & Hx).
  rewrite Forall_forall in Hall. destruct (Hall x Hx) as [Hn _]. contradiction.
Qed.

Lemma duplicateNode_run fuel st i supply c node :
  wf (nodes st) -> fresh (nodes st) supply ->
  Map_get i (nodes st) = Some node ->
  duplicateNode fuel st i supply = Some c ->
  exists newId now used rest st',
    supply = (newId, now) :: used ++ rest /\
    c = Returned (Some (copyOf st node newId now)) st' /\
    Map_get newId (nodes st') = Some (copyOf st node newId now) /\
    wf (nodes st') /\ fresh (nodes st') rest /\
    grown st st' (newId :: used.*1) /\
    rootNodes st'
    = (if truthy (parentId node) then rootNodes st else rootNodes st ++ [newId]) /\
    (forall k, k ∈ used.*1 -> rtc (parent_step (nodes st')) k newId) /\
    (forall k n, k ∈ used.*1 -> Map_get k (nodes st') = Some n ->
       exists p, parentId n = Some p /\ p ∈ newId :: used.*1) /\
    (type node = leaf ->
     contentStore (db st') !! newId
     = Some (copiedContent (db_getContent i now (db st)) newId)) /\
    (acyclic (nodes st) -> unreferenced (nodes st) supply ->
     acyclic (nodes st') /\ unreferenced (nodes st') rest).
Proof.
  intros Hwf Hfr Hi H. rewrite duplicateNode_unfold, Hi in H.
  destruct supply as [|[newId now] rest0]; [discriminate|].
  destruct (createNode _ _ _ _ _) as [[newNode st1]|] eqn:Hc; [|discriminate].
  pose proof Hfr as [_ Hall]. apply Forall_cons in Hall as [[Hg Hne] Hall]. cbn in Hg, Hne.
  destruct (created_keeps (fun _ => True) ltac:(auto) ltac:(auto)
              _ _ _ _ _ _ _ _ node i Hwf I Hfr Hc) as (Hid & Hw & _ & Hf).
  rewrite Hid in Hw, Hf, H.
  pose proof (grown_created _ _ _ _ _ _ _ node i Hg Hc) as Hgr.
  pose proof Hc as Hc'.
  apply createNode_fields in Hc' as (Hnode & Hn & _ & Hct & Hr & _).
  change (createdNode st _ newId now) with (copyOf st node newId now) in Hnode.
  set (st2 := copied st1 node i newId now) in *.
  assert (Hget : Map_get newId (nodes st2) = Some newNode)
    by (subst st2; rewrite nodes_copied, Hn; apply Map_get_set_eq).
  assert (Hk1 : Map_get newId (nodes st2) <> None) by (rewrite Hget; discriminate).
  assert (Hk2 : forall ch, ch ∈ getChildren (nodes st2) (Some i) ->
                           Map_get (id ch) (nodes st2) <> None).
  { intros ch Hch. apply elem_of_getChildren in Hch as [Hch _].
    rewrite (wf_value_get _ _ Hw Hch). discriminate. }
  assert (IHf : forall st i supply c,
            wf (nodes st) -> fresh (nodes st) supply ->
            Map_get newId (nodes st) <> None -> Map_get i (nodes st) <> None ->
            duplicateNodeRecursive fuel st i newId supply = Some c ->
            exists used, duplicated st newId supply used c).
  { intros s j sup c' A B C D E.
    destruct (duplicateNodeRecursive_spec fuel newId s j sup c' A B C D E) as (u & Hu & _).
    eauto. }
  destruct (foldl _ _ _) as [c1|] eqn:Hloop; [|discriminate].
  destruct (duplicateLoop_spec fuel newId IHf _ _ _ _ Hw Hf Hk1 Hk2 Hloop)
    as (used & Hs & Hcr & Hw2 & Hf2 & Hg2 & Hr2 & Hreach & Hparents & Hac2).
  rewrite Hcr in H. injection H as <-.
  exists newId, now, used, (leftover c1), (final c1). subst newNode.
  split; [rewrite Hs; reflexivity|]. split; [reflexivity|].
  split; [exact (grown_sub _ _ _ _ _ Hg2 Hget)|].
  split; [exact Hw2|]. split; [exact Hf2|].
  split; [apply (grown_trans _ _ _ [newId] _ Hgr Hg2)|].
  split; [rewrite Hr2; subst st2; rewrite rootNodes_copied, Hr; reflexivity|].
  split; [exact Hreach|]. split; [|split].
  - intros k n Hk Hkn. destruct (Hparents k n Hk Hkn) as (p & Hp & [Hpe|Hin]);
      exists p; (split; [exact Hp|]); [rewrite Hpe; left|right; exact Hin].
  - intros Hleaf.
    assert (Hnew : newId ∉ used.*1).
    { intros Hin. apply (fresh_not_known _ _ _ Hf Hk1). rewrite Hs, fmap_app, elem_of_app.
      auto. }
    destruct Hg2 as (_ & Hd2 & _). rewrite (proj2 (Hd2 newId Hnew)).
    subst st2. unfold copied. rewrite Hleaf. cbn.
    rewrite lookup_insert_eq. unfold copiedContent, db_getContent.
    cbn [copyArgs a_type] in Hct. rewrite Hleaf in Hct.
    rewrite Hct, lookup_insert_ne; [reflexivity|].
    intros ->. congruence.
  - intros Ha Hu. apply Hac2.
    + subst st2. rewrite nodes_copied, Hn. apply acyclic_add; [exact Ha|exact Hg| |].
      * intros k' n Hk'. exact (Hu k' n (newId, now) Hk' ltac:(left)).
      * cbn. exact (Hu i node (newId, now) Hi ltac:(left)).
    + subst st2. rewrite nodes_copied, Hn.
      intros k n x Hk Hx. rewrite Map_get_set in Hk. case_decide.
      * injection Hk as <-. cbn. apply (Hu i node x Hi). right. exact Hx.
      * apply (Hu k n x Hk). right. exact Hx.
Qed.


Lemma copyIds_fresh : fresh (nodes twoFolders) copyIds.
Proof. split; apply (bool_decide_unpack _); vm_compute; reflexivity. Qed.


(** The copy of [p] and of its three children. *)
Example duplicateNode_example :
  (fun kv => (fst kv, parentId (snd kv), name (snd kv)))
    <$> drop 7 (nodes (final duplicatedP))
  = [("c1", None, "P (Copy)"); ("c2", Some "c1", "P1"); ("c3", Some "c1", "P2");
     ("c4", Some "c1", "X")].
Proof. vm_compute. reflexivity. Qed.

(** ** Duplicating and deleting the copy *)

Lemma filter_not_in_twice (l : list string) (g1 g2 : list string) :
  filter (fun r => r ∉ g2) (filter (fun r => r ∉ g1) l)
  = filter (fun r => r ∉ g1 ++ g2) l.
Proof.
  rewrite list_filter_filter. apply list_filter_iff. intros r.
  rewrite elem_of_app. tauto.
Qed.

Lemma deleteNode_removals fuel st i st' :
  deleteNode fuel st i = Some st' -> removals st st'.
Proof.
  apply (deleteNode_rel removals).
  - intros a. split; [auto|]. split; [|left; auto].
    exists []. split; [|intros g Hg; inversion Hg].
    symmetry. apply filter_all. intros r _ Hr. inversion Hr.
  - intros a b c (S1 & (g1 & R1 & G1) & Sel1) (S2 & (g2 & R2 & G2) & Sel2).
    assert (Hnone : forall k, Map_get k (nodes b) = None -> Map_get k (nodes c) = None).
    { intros k Hk. destruct (Map_get k (nodes c)) as [n|] eqn:E; [|reflexivity].
      apply S2 in E. congruence. }
    split; [auto|]. split.
    + exists (g1 ++ g2). split; [rewrite R2, R1; apply filter_not_in_twice|].
      intros g Hg. apply elem_of_app in Hg as [Hg|Hg]; auto.
    + destruct Sel1 as [[E1 E1']|(s & Hs & Hn)].
      * destruct Sel2 as [[E2 E2']|(s & Hs & Hn)]; [left; split; congruence|].
        right. exists s. split; [congruence|exact Hn].
      * right. exists s. auto.
  - intros st1 j node idx Hn.
    destruct (removal_fields st1 j node idx) as (En & _ & Er & Es & Ec).
    split; [|split].
    + intros k n. rewrite En, Map_get_delete.
      destruct (decide (k = j)); [discriminate|auto].
    + rewrite Er, En. destruct (truthy (parentId node)).
      * exists []. split; [|intros g Hg; inversion Hg].
        symmetry. apply filter_all. intros r _ Hr. inversion Hr.
      * exists [j]. split.
        -- apply list_filter_iff. intros r. rewrite list_elem_of_singleton. tauto.
        -- intros g Hg. apply list_elem_of_singleton in Hg as ->.
           rewrite Map_get_delete, decide_True by reflexivity. reflexivity.
    + rewrite Es, Ec. destruct (decide (selectedNodeId st1 = Some j)) as [E|E].
      * right. exists j. split; [exact E|].
        rewrite En, Map_get_delete, decide_True by reflexivity. reflexivity.
      * left. auto.
Qed.

Lemma roots_ok_created fuel st args newId now node st' :
  roots_ok st -> Map_get newId (nodes st) = None ->
  createNode fuel st args newId now = Some (node, st') -> roots_ok st'.
Proof.
  intros R Hg E. apply createNode_fields in E as (-> & Hn & _ & _ & Hr & _).
  apply (roots_ok_put st st' newId _ R Hn). rewrite Hr, created_parent.
  rewrite filter_ne_absent; [reflexivity|].
  intros Hin. apply (roots_known _ _ R) in Hin. contradiction.
Qed.

Lemma duplicateNode_roots_ok fuel st i supply c :
  wf (nodes st) -> roots_ok st -> fresh (nodes st) supply ->
  duplicateNode fuel st i supply = Some c -> roots_ok (final c).
Proof.
  intros Hwf R Hfr H.
  apply (duplicateNode_keeps roots_ok) with (fuel := fuel) (st := st) (i := i)
    (supply := supply); try assumption.
  - intros f s args newId now node s' _ R' Hg _ E. eapply roots_ok_created; eauto.
  - intros s from newId now R' _. apply (roots_ok_same s); [exact R'|reflexivity..].
Qed.

Lemma deleteNode_roots_ok fuel st i st' :
  roots_ok st -> deleteNode fuel st i = Some st' -> roots_ok st'.
Proof.
  intros R H. revert R.
  apply (deleteNode_rel (fun a b => roots_ok a -> roots_ok b)) with (4 := H).
  - auto.
  - auto.
  - intros st1 j node idx Hn R1. apply removal_roots; assumption.
Qed.

Lemma not_above_copies st st' K supply root :
  grown st st' K -> unreferenced (nodes st) supply ->
  (forall k, k ∈ K -> k ∈ supply.*1) -> root ∈ K ->
  forall x, rtc (parent_step (nodes st')) x root -> x ∈ K.
Proof.
  intros ((ad & Hn & Hk) & _) Hu Hsub Hroot x Hx.
  induction Hx as [|x z y Hstep Hrest IH]; [exact Hroot|].
  specialize (IH Hroot).
  destruct (decide (x ∈ K)) as [|Hx]; [assumption|]. exfalso.
  destruct Hstep as (n & Hget & Hp & _).
  rewrite Hn, Map_get_app in Hget.
  destruct (Map_get x (nodes st)) as [n0|] eqn:E.
  - injection Hget as <-. apply Hsub in IH.
    apply list_elem_of_fmap in IH as (s & -> & Hs). exact (Hu x n0 s E Hs Hp).
  - apply Map_get_Some_key in Hget. rewrite Hk in Hget. contradiction.
Qed.

(** X16.  Duplicating a node and deleting the copy undoes the duplication:
    on a well-formed store whose map holds what the node object store
    holds, whose root list holds the parentless nodes and whose content
    records belong to nodes, with unused ids that no node names as parent,
    [duplicateNode(i)] followed by [deleteNode] of the returned copy leaves
    the nodes (in their order), both object stores, the root list, the
    selection and the current content as they were before. *)
Theorem duplicate_then_delete fuel fuel' st i supply copy st' st'' :
  wf (nodes st) -> mirrors st -> roots_ok st -> attached st ->
  fresh (nodes st) supply -> unreferenced (nodes st) supply ->
  duplicateNode fuel st i supply = Some (Returned (Some copy) st') ->
  deleteNode fuel' st' (id copy) = Some st'' ->
  nodes st'' = nodes st /\ db st'' = db st /\ rootNodes st'' = rootNodes st /\
  selectedNodeId st'' = selectedNodeId st /\ currentContent st'' = currentContent st.
Proof.
  intros Hwf Hmir Hroots (A1 & A2 & A3) Hfr Hu Hdup Hdel.
  destruct (Map_get i (nodes st)) as [node|] eqn:Hi.
  2:{ rewrite duplicateNode_unfold, Hi in Hdup. discriminate. }
  pose proof (duplicateNode_roots_ok _ _ _ _ _ Hwf Hroots Hfr Hdup) as Hroots'.
  cbn [final] in Hroots'.
  destruct (duplicateNode_run fuel st i supply _ node Hwf Hfr Hi Hdup)
    as (newId & now & used & rest & s' & Hs & Hc & Hget & Hw & _ & Hg & Hr & Hreach & _).
  injection Hc as -> <-. cbn [copyOf id] in Hdel.
  set (K := newId :: used.*1) in *.
  assert (HKs : forall k, k ∈ K -> k ∈ supply.*1).
  { intros k Hk. rewrite Hs, fmap_cons, fmap_app. subst K.
    apply elem_of_cons in Hk as [->|Hk]; [left|right; apply elem_of_app; auto]. }
  assert (HKfresh : forall k, k ∈ K -> Map_get k (nodes st) = None).
  { intros k Hk. apply HKs, list_elem_of_fmap in Hk as (x & -> & Hx).
    destruct Hfr as [_ Hall]. rewrite Forall_forall in Hall. apply (Hall x Hx). }
  pose proof Hg as ((ad & Hn & Hkeys) & Hdb & Hsel & Hcc).
  (* the copies are what lies under the copy *)
  assert (HD : forall k, under (nodes st') newId k <-> k ∈ K).
  { intros k. split.
    - intros [_ Hrtc]. apply (not_above_copies st st' K supply newId Hg Hu HKs); [left|exact Hrtc].
    - intros Hk. split; [rewrite Hget; discriminate|].
      apply elem_of_cons in Hk as [->|Hk]; [apply rtc_refl|apply Hreach, Hk]. }
  destruct (deleteNode_spec _ _ _ _ Hw Hdel) as (Hw'' & T1 & T2 & T3 & T4 & T5).
  destruct (deleteNode_filter _ _ _ _ Hdel) as [gone Hfilter].
  assert (Hold : forall k, Map_get k (nodes st) <> None -> ~ removed (nodes st') (nodes st'') k).
  { intros k Hk Hrem. apply T3, HD, HKfresh in Hrem. contradiction. }
  assert (Hnodes : nodes st'' = nodes st).
  { rewrite Hfilter, Hn, filter_app. rewrite filter_all, filter_none.
    - apply app_nil_r.
    - intros [k n] Hin Hgone. cbn [fst] in Hgone.
      assert (Hk : k ∈ K) by (rewrite <- Hkeys; apply list_elem_of_fmap; exists (k, n); auto).
      pose proof (T2 k (proj2 (HD k) Hk)) as Hnone.
      rewrite Hfilter, Map_get_filter_gone, decide_False in Hnone by exact Hgone.
      apply Map_get_None_key in Hnone. apply Hnone. rewrite Hn.
      unfold Map_keys. rewrite fmap_app, elem_of_app. right. fold (Map_keys ad).
      rewrite Hkeys. exact Hk.
    - intros [k n] Hin Hgone. cbn [fst] in Hgone.
      assert (Hk : Map_get k (nodes st) <> None).
      { intros Hnone. apply Map_get_None_key in Hnone. apply Hnone.
        apply list_elem_of_fmap. exists (k, n). auto. }
      apply (Hold k Hk). split; [apply (grown_known _ _ _ _ Hg Hk)|].
      rewrite Hfilter, Map_get_filter_gone, decide_True by exact Hgone. reflexivity. }
  assert (Hstores : forall k,
            nodeStore (db st'') !! k = nodeStore (db st) !! k /\
            contentStore (db st'') !! k = contentStore (db st) !! k).
  { intros k. destruct (decide (k ∈ K)) as [Hk|Hk].
    - assert (Hrem : removed (nodes st') (nodes st'') k).
      { split; [|apply T2, HD, Hk].
        intros Hnone. apply Map_get_None_key in Hnone. apply Hnone. rewrite Hn.
        unfold Map_keys. rewrite fmap_app, elem_of_app. right. fold (Map_keys ad).
        rewrite Hkeys. exact Hk. }
      destruct (T4 k Hrem) as [-> ->]. pose proof (HKfresh k Hk) as Hf.
      split; [rewrite <- (Hmir k), Hf; reflexivity|].
      destruct (contentStore (db st) !! k) as [c0|] eqn:E; [|reflexivity].
      destruct (A3 k c0 E) as [_ Hkn]. contradiction.
    - assert (Hnot : ~ removed (nodes st') (nodes st'') k).
      { intros Hrem. apply Hk, HD, T3, Hrem. }
      destruct (T5 k Hnot) as [-> ->]. apply Hdb, Hk. }
  assert (Hdbeq : db st'' = db st).
  { destruct (db st'') as [n1 c1], (db st) as [n0 c0]. cbn in Hstores. f_equal.
    - apply map_eq. intros k. apply Hstores.
    - apply map_eq. intros k. apply Hstores. }
  pose proof (deleteNode_removals _ _ _ _ Hdel) as (_ & (g & Rg & Gg) & Sel).
  pose proof (deleteNode_roots_ok _ _ _ _ Hroots' Hdel) as Hroots''.
  split; [exact Hnodes|]. split; [exact Hdbeq|]. split; [|].
  - rewrite Rg, Hr.
    assert (Hkeep : filter (fun r => r ∉ g) (rootNodes st) = rootNodes st).
    { apply filter_all. intros r Hr0 Hrg. apply Gg in Hrg. rewrite Hnodes in Hrg.
      apply (roots_known _ _ Hroots) in Hr0. contradiction. }
    destruct (truthy (parentId node)); [exact Hkeep|].
    rewrite filter_app, Hkeep, filter_none; [apply app_nil_r|].
    intros a Ha Hag. apply list_elem_of_singleton in Ha as ->.
    assert (Hin : newId ∈ rootNodes st'').
    { rewrite Rg, Hr. apply list_elem_of_filter. split; [exact Hag|].
      apply elem_of_app. right. left. }
    apply (roots_known _ _ Hroots'') in Hin. rewrite Hnodes in Hin.
    apply Hin, HKfresh. left.
  - destruct Sel as [[E1 E2]|(s & Es & Hnone)]; [split; congruence|].
    exfalso. rewrite Hsel in Es. apply (A1 s Es). rewrite <- Hnodes. exact Hnone.
Qed.

Lemma unreferenced_check m supply :
  Forall (fun kv => Forall (fun x => parentId (snd kv) <> Some (fst x)) supply) m ->
  unreferenced m supply.
Proof.
  intros H k n x Hk Hx. apply Map_get_Some_elem in Hk.
  rewrite Forall_forall in H. specialize (H _ Hk). rewrite Forall_forall in H.
  exact (H x Hx).
Qed.

Lemma twoFolders_attached : attached twoFolders.
Proof.
  apply attached_check.
  - vm_compute. exact I.
  - vm_compute. exact I.
  - apply (bool_decide_unpack _). vm_compute. reflexivity.
Qed.

Lemma copyIds_unreferenced : unreferenced (nodes twoFolders) copyIds.
Proof. apply unreferenced_check. apply (bool_decide_unpack _). vm_compute. reflexivity. Qed.

Lemma duplicate_then_delete_witness :
  nodes duplicatedThenDeleted = nodes twoFolders /\
  db duplicatedThenDeleted = db twoFolders /\
  rootNodes duplicatedThenDeleted = rootNodes twoFolders /\
  selectedNodeId duplicatedThenDeleted = selectedNodeId twoFolders /\
  currentContent duplicatedThenDeleted = currentContent twoFolders.
Proof.
  assert (H1 : duplicateNode 16 twoFolders "p" copyIds
               = Some (Returned (Some copyOfP) (final duplicatedP)))
    by (vm_compute; reflexivity).
  assert (H2 : deleteNode 16 (final duplicatedP) (id copyOfP) = Some duplicatedThenDeleted)
    by (vm_compute; reflexivity).
  pose proof (duplicate_then_delete 16 16 twoFolders "p" copyIds copyOfP (final duplicatedP)
                duplicatedThenDeleted twoFolders_wf twoFolders_mirrors twoFolders_roots_ok
                twoFolders_attached copyIds_fresh copyIds_unreferenced H1 H2) as R.
  exact R.
Defined.

(** ** [duplicateNode] returns *)

Lemma length_Map_set {V} k (v : V) m : length (Map_set k v m) <= S (length m).
Proof.
  induction m as [|[k' v'] m IH]; [cbn; lia|]. cbn [Map_set]. case_decide; cbn; lia.
Qed.

Lemma createNode_returns fuel st args newId now :
  acyclic (Map_set newId (createdNode st args newId now) (nodes st)) ->
  S (length (nodes st)) <= fuel ->
  is_Some (createNode fuel st args newId now).
Proof.
  intros Hac Hle. unfold createNode. fold (createdNode st args newId now).
  match goal with |- context [rebuildIndex ?f ?s] =>
    destruct (rebuildIndex_total s f) as [idx ->] end; [| |eauto].
  - destruct (a_type args), (truthy (a_parentId args)); exact Hac.
  - pose proof (length_Map_set newId (createdNode st args newId now) (nodes st)).
    destruct (a_type args), (truthy (a_parentId args)); cbn; lia.
Qed.

Lemma not_below_unknown m0 T p :
  Map_get p m0 = None -> Map_get T m0 <> None -> ~ rtc (parent_step m0) p T.
Proof.
  intros Hp HT Hr. destruct Hr as [|x y z (n & Hn & _) _]; congruence.
Qed.

Lemma extends_sub m0 T st k n :
  extends m0 T st -> Map_get k m0 = Some n -> Map_get k (nodes st) = Some n.
Proof. intros (ad & -> & _) H. rewrite Map_get_app, H. reflexivity. Qed.

Lemma extends_unknown m0 T st k :
  extends m0 T st -> Map_get k (nodes st) = None -> Map_get k m0 = None.
Proof.
  intros (ad & Hn & _) H. rewrite Hn, Map_get_app in H.
  destruct (Map_get k m0); [discriminate|reflexivity].
Qed.

Lemma extends_children m0 T st x :
  extends m0 T st -> rtc (parent_step m0) x T ->
  getChildren (nodes st) (Some x) = getChildren m0 (Some x).
Proof.
  intros (ad & -> & Had) Hx. unfold getChildren, Map_values.
  rewrite fmap_app, filter_app. rewrite (filter_none _ (snd <$> ad)); [rewrite app_nil_r; reflexivity|].
  intros n Hn Hp. exact (Had n x Hn Hp Hx).
Qed.

Lemma extends_grown m0 T st st' K :
  extends m0 T st -> grown st st' K -> wf (nodes st') ->
  (forall k n, k ∈ K -> Map_get k (nodes st') = Some n ->
     forall x, parentId n = Some x -> ~ rtc (parent_step m0) x T) ->
  extends m0 T st'.
Proof.
  intros (ad & Hn & Had) ((ad' & Hn' & Hk') & _) Hwf Hpar.
  exists (ad ++ ad'). split; [rewrite Hn', Hn, <- app_assoc; reflexivity|].
  intros n x Hin. unfold Map_values in Hin. rewrite fmap_app, elem_of_app in Hin.
  destruct Hin as [Hin|Hin]; [apply Had, Hin|].
  apply list_elem_of_fmap in Hin as ([k n'] & -> & Hin). cbn [snd].
  apply (Hpar k n').
  - rewrite <- Hk'. apply list_elem_of_fmap. exists (k, n'). auto.
  - apply Map_get_elem; [apply Hwf|]. rewrite Hn'. apply elem_of_app. auto.
Qed.

Lemma extends_duplicated m0 T st root supply used c :
  extends m0 T st -> Map_get T m0 <> None -> fresh (nodes st) supply ->
  Map_get root m0 = None ->
  duplicated st root supply used c -> extends m0 T (final c).
Proof.
  intros He HT Hfr Hroot (Hs & _ & Hw & _ & Hg & _ & _ & Hpar & _).
  apply (extends_grown m0 T st (final c) _ He Hg Hw).
  intros k n Hk Hn x Hx.
  destruct (Hpar k n Hk Hn) as (p & Hp & Hcase). rewrite Hx in Hp. injection Hp as <-.
  apply not_below_unknown; [|exact HT].
  destruct Hcase as [->|Hin]; [exact Hroot|].
  apply (extends_unknown m0 T st _ He).
  apply list_elem_of_fmap in Hin as (s & -> & Hs').
  destruct Hfr as [_ Hall]. rewrite Forall_forall in Hall.
  apply (Hall s). rewrite Hs. apply elem_of_app. auto.
Qed.

Lemma duplicated_lengths st root supply used c :
  duplicated st root supply used c ->
  length supply = length used + length (leftover c) /\
  length (nodes (final c)) = length (nodes st) + length used.
Proof.
  intros (Hs & _ & _ & _ & ((ad & Hn & Hk) & _) & _).
  split; [rewrite Hs at 1; apply length_app|].
  rewrite Hn, length_app. f_equal.
  rewrite <- (length_fmap fst ad). fold (Map_keys ad). rewrite Hk, length_fmap. reflexivity.
Qed.

Lemma duplicateLoop_returns m0 T :
  Map_get T m0 <> None ->
  forall cs,
    (forall ch, ch ∈ cs ->
       Map_get (id ch) m0 <> None /\
       exists D U,
         returns_within m0 T
           (fun f st np supply => duplicateNodeRecursive f st (id ch) np supply) D U) ->
    exists D U,
      returns_within m0 T
        (fun f st np supply => foldl (duplicateStep f np) (Some (Returned supply st)) cs)
        D U.
Proof.
  intros HT. induction cs as [|ch cs IH]; intros Hcs.
  - exists 0, 0. intros st np supply fuel B _ _ _ _ _ _ _ _ _ _.
    exists (Returned supply st). split; [reflexivity|]. cbn. lia.
  - destruct (Hcs ch ltac:(left)) as (Hch & D1 & U1 & H1).
    destruct (IH (fun x Hx => Hcs x ltac:(right; exact Hx))) as (D2 & U2 & H2).
    exists (max D1 D2), (U1 + U2).
    intros st np supply fuel B Hwf Hac Hfr Hu He Hnp Hnp0 HD HU HB.
    destruct (H1 st np supply fuel B Hwf Hac Hfr Hu He Hnp Hnp0) as (c1 & E1 & L1); try lia.
    cbn [foldl duplicateStep]. rewrite E1.
    assert (Hknown : Map_get (id ch) (nodes st) <> None).
    { destruct (Map_get (id ch) m0) as [n|] eqn:E; [|contradiction].
      rewrite (extends_sub _ _ _ _ _ He E). discriminate. }
    destruct (duplicateNodeRecursive_spec fuel np st (id ch) supply c1 Hwf Hfr Hnp Hknown E1)
      as (used1 & Hdup1 & _).
    pose proof Hdup1 as (Hs1 & Hc1 & Hw1 & Hf1 & Hg1 & _ & _ & _ & Hacy1).
    destruct (Hacy1 Hac Hu) as [Hac1 Hu1].
    destruct (duplicated_lengths _ _ _ _ _ Hdup1) as [Ls1 Ln1].
    rewrite Hc1.
    destruct (H2 (final c1) np (leftover c1) fuel B Hw1 Hac1 Hf1 Hu1) as (c & E & L);
      try lia.
    + eapply extends_duplicated; eauto.
    + apply (grown_known _ _ _ _ Hg1 Hnp).
    + exact Hnp0.
    + exists c. split; [exact E|]. lia.
Qed.

Lemma duplicateNodeRecursive_returns m0 T :
  wf m0 -> Map_get T m0 <> None ->
  forall i, Acc (parent_step m0) i ->
    rtc (parent_step m0) i T -> Map_get i m0 <> None ->
    exists D U,
      returns_within m0 T
        (fun f st np supply => duplicateNodeRecursive f st i np supply) D U.
Proof.
  intros Hwf0 HT i Hacc. induction Hacc as [i _ IH]. intros HiT Hi0.
  destruct (Map_get i m0) as [node|] eqn:Ei0; [clear Hi0|contradiction].
  destruct (wf_key_id _ _ _ Hwf0 Ei0) as [_ Hine].
  destruct (duplicateLoop_returns m0 T HT (getChildren m0 (Some i))) as (D & U & Hloop).
  { intros ch Hch. apply elem_of_getChildren in Hch as [Hin Hp].
    pose proof (wf_value_get _ _ Hwf0 Hin) as Hget.
    assert (Hstep : parent_step m0 (id ch) i) by (exists ch; auto).
    split; [rewrite Hget; discriminate|].
    apply IH; [exact Hstep| |rewrite Hget; discriminate].
    eapply rtc_l; [exact Hstep|exact HiT]. }
  exists (S D), (S U).
  intros st np supply fuel B Hwf Hac Hfr Hu He Hnp Hnp0 HD HU HB.
  destruct fuel as [|f]; [lia|].
  destruct supply as [|[newId now] rest]; [cbn in HU; lia|].
  rewrite duplicateNodeRecursive_unfold, (extends_sub _ _ _ _ _ He Ei0).
  pose proof Hfr as [_ Hall]. apply Forall_cons in Hall as [[Hg Hne] _]. cbn in Hg, Hne.
  destruct (createNode_returns (S f) st (copyArgs (name node) (type node) (Some np)) newId now)
    as [[newNode st1] Hc].
  { apply acyclic_add; [exact Hac|exact Hg| |].
    - intros k' n Hk'. exact (Hu k' n (newId, now) Hk' ltac:(left)).
    - cbn. intros [= ->]. contradiction. }
  { lia. }
  rewrite Hc.
  destruct (created_under _ _ _ _ _ _ _ _ _ _ node i Hwf Hfr Hnp Hc)
    as (Hid & Hw & Hf & Hgr & Hr & Hget & Hpar & Hnpe & Hacy).
  rewrite Hid. destruct (Hacy Hac Hu) as [Hac2 Hu2].
  set (st2 := copied st1 node i newId now) in *.
  assert (He2 : extends m0 T st2).
  { apply (extends_grown m0 T st st2 [newId] He Hgr Hw).
    intros k n Hk Hn x Hx. apply list_elem_of_singleton in Hk as ->.
    rewrite Hget in Hn. injection Hn as <-. rewrite Hpar in Hx. injection Hx as <-.
    apply not_below_unknown; assumption. }
  rewrite (extends_children m0 T st2 i He2 HiT).
  assert (Hlen : length (nodes st2) = S (length (nodes st))).
  { destruct Hgr as ((ad & Hn & Hk) & _). rewrite Hn, length_app.
    rewrite <- (length_fmap fst ad). fold (Map_keys ad). rewrite Hk. cbn. lia. }
  destruct (Hloop st2 newId rest f B Hw Hac2 Hf Hu2 He2) as (c & E & L).
  - rewrite Hget. discriminate.
  - apply (extends_unknown m0 T st _ He Hg).
  - lia.
  - cbn in HU. lia.
  - lia.
  - exists c. split; [exact E|]. cbn [length]. lia.
Qed.

(** X17.  [duplicateNode] returns: on a well-formed store without a cycle
    there are an amount of fuel and a number of ids with which
    [duplicateNode(i)] returns and does not throw, whatever unused ids that
    no node names as parent it is given. *)
Theorem duplicateNode_returns st i :
  wf (nodes st) -> acyclic (nodes st) ->
  exists N U, forall fuel supply,
    N <= fuel -> U <= length supply ->
    fresh (nodes st) supply -> unreferenced (nodes st) supply ->
    exists r st', duplicateNode fuel st i supply = Some (Returned r st').
Proof.
  intros Hwf Hac.
  destruct (Map_get i (nodes st)) as [node|] eqn:Hi.
  2:{ exists 0, 0. intros fuel supply _ _ _ _. rewrite duplicateNode_unfold, Hi. eauto. }
  assert (HT : Map_get i (nodes st) <> None) by (rewrite Hi; discriminate).
  destruct (wf_key_id _ _ _ Hwf Hi) as [_ Hine].
  destruct (duplicateLoop_returns (nodes st) i HT (getChildren (nodes st) (Some i)))
    as (D & U & Hloop).
  { intros ch Hch. apply elem_of_getChildren in Hch as [Hin Hp].
    pose proof (wf_value_get _ _ Hwf Hin) as Hget.
    assert (Hstep : parent_step (nodes st) (id ch) i) by (exists ch; auto).
    split; [rewrite Hget; discriminate|].
    apply (duplicateNodeRecursive_returns (nodes st) i Hwf HT).
    - apply acyclic_Acc, Hac.
    - apply rtc_once, Hstep.
    - rewrite Hget. discriminate. }
  exists (D + (length (nodes st) + S U)), (S U).
  intros fuel supply HN HU Hfr Hu.
  destruct supply as [|[newId now] rest]; [cbn in HU; lia|].
  rewrite duplicateNode_unfold, Hi.
  pose proof Hfr as [_ Hall]. apply Forall_cons in Hall as [[Hg Hne] _]. cbn in Hg, Hne.
  set (args := copyArgs (String.append (name node) " (Copy)") (type node) (parentId node)).
  assert (Hac1 : acyclic (Map_set newId (createdNode st args newId now) (nodes st))).
  { apply acyclic_add; [exact Hac|exact Hg| |].
    - intros k' n Hk'. exact (Hu k' n (newId, now) Hk' ltac:(left)).
    - cbn. exact (Hu i node (newId, now) Hi ltac:(left)). }
  destruct (createNode_returns fuel st args newId now Hac1) as [[newNode st1] Hc]; [lia|].
  rewrite Hc.
  destruct (created_keeps (fun _ => True) ltac:(auto) ltac:(auto)
              _ _ _ _ _ _ _ _ node i Hwf I Hfr Hc) as (Hid & Hw & _ & Hf).
  rewrite Hid in Hw, Hf |- *.
  pose proof (grown_created _ _ _ _ _ _ _ node i Hg Hc) as Hgr.
  pose proof Hc as Hc'. apply createNode_fields in Hc' as (Hnode & Hn & _).
  set (st2 := copied st1 node i newId now) in *.
  assert (Hget : Map_get newId (nodes st2) = Some newNode)
    by (subst st2; rewrite nodes_copied, Hn; apply Map_get_set_eq).
  assert (Hac2 : acyclic (nodes st2))
    by (subst st2; rewrite nodes_copied, Hn, Hnode; exact Hac1).
  assert (Hu2 : unreferenced (nodes st2) rest).
  { subst st2. rewrite nodes_copied, Hn.
    intros k n x Hk Hx. rewrite Map_get_set in Hk. case_decide.
    - injection Hk as <-. rewrite Hnode. cbn. apply (Hu i node x Hi). right. exact Hx.
    - apply (Hu k n x Hk). right. exact Hx. }
  assert (He0 : extends (nodes st) i st).
  { exists []. rewrite app_nil_r. split; [reflexivity|]. intros n x Hin. inversion Hin. }
  assert (He2 : extends (nodes st) i st2).
  { apply (extends_grown (nodes st) i st st2 [newId] He0 Hgr Hw).
    intros k n Hk Hkn x Hx Hrtc. apply list_elem_of_singleton in Hk as ->.
    rewrite Hget in Hkn. injection Hkn as <-. rewrite Hnode in Hx. cbn in Hx.
    assert (Hxe : x <> "").
    { destruct Hrtc as [|a b c (n & Hn' & _) _]; [exact Hine|].
      exact (proj2 (wf_key_id _ _ _ Hwf Hn')). }
    apply (Hac i). eapply tc_rtc_r; [|exact Hrtc].
    apply tc_once. exists node. auto. }
  rewrite (extends_children (nodes st) i st2 i He2 (rtc_refl _ _)).
  assert (Hlen : length (nodes st2) = S (length (nodes st))).
  { destruct Hgr as ((ad & Hn2 & Hk) & _). rewrite Hn2, length_app.
    rewrite <- (length_fmap fst ad). fold (Map_keys ad). rewrite Hk. cbn. lia. }
  destruct (Hloop st2 newId rest fuel (length (nodes st) + S U) Hw Hac2 Hf Hu2 He2)
    as (c & E & L).
  - rewrite Hget. discriminate.
  - exact Hg.
  - lia.
  - cbn in HU. lia.
  - lia.
  - rewrite E.
    assert (IHf : forall s j sup c',
              wf (nodes s) -> fresh (nodes s) sup ->
              Map_get newId (nodes s) <> None -> Map_get j (nodes s) <> None ->
              duplicateNodeRecursive fuel s j newId sup = Some c' ->
              exists used, duplicated s newId sup used c').
    { intros s j sup c' A B C0 D0 E0.
      destruct (duplicateNodeRecursive_spec fuel newId s j sup c' A B C0 D0 E0) as (u & Hu' & _).
      eauto. }
    destruct (duplicateLoop_spec fuel newId IHf (getChildren (nodes st) (Some i)) st2 rest c Hw Hf)
      as (used & _ & Hcr & _); [rewrite Hget; discriminate| |exact E|].
    + intros ch Hch. apply elem_of_getChildren in Hch as [Hin _].
      pose proof (wf_value_get _ _ Hwf Hin) as Hg0.
      rewrite (extends_sub _ _ _ _ _ He2 Hg0). discriminate.
    + rewrite Hcr. eauto.
Qed.

Lemma duplicateNode_returns_witness :
  exists N U, forall fuel supply,
    N <= fuel -> U <= length supply ->
    fresh (nodes twoFolders) supply -> unreferenced (nodes twoFolders) supply ->
    exists r st', duplicateNode fuel twoFolders "p" supply = Some (Returned r st').
Proof.
  exact (duplicateNode_returns twoFolders "p" twoFolders_wf twoFolders_acyclic).
Defined.

(** ** The event emitter *)







(** ** Children in order *)

Lemma sortBy_already {A} (le : A -> A -> bool) l :
  StronglySorted (fun a b => le a b = true) l -> sortBy le l = l.
Proof.
  induction 1 as [|x l Hs IH Hx]; [reflexivity|].
  cbn [sortBy]. rewrite IH. destruct l as [|y t]; [reflexivity|].
  cbn [sort_insert]. inversion Hx as [|? ? Hy _]; subst. rewrite Hy. reflexivity.
Qed.

(** X21.  [getChildren(parentId)] returns exactly the nodes of the map whose
    [parentId] is the argument, in ascending [orderIndex]; nodes with the
    same [orderIndex] come in the order the map holds them. *)
Theorem getChildren_spec m p :
  (forall n, n ∈ getChildren m p <-> n ∈ Map_values m /\ parentId n = p) /\
  StronglySorted (fun a b => (orderIndex a <= orderIndex b)%Z) (getChildren m p) /\
  (forall k, filter (fun n => orderIndex n = k) (getChildren m p)
             = filter (fun n => parentId n = p /\ orderIndex n = k) (Map_values m)).
Proof.
  split; [|split].
  - intros n. unfold getChildren. rewrite elem_of_sortBy, list_elem_of_filter. tauto.
  - pose proof (getChildren_sorted m p) as Hs.
    induction Hs as [|x l Hs IH Hx]; constructor; [exact IH|].
    eapply Forall_impl; [exact Hx|]. intros b. unfold byOrderIndex. apply Z.leb_le.
  - intros k. unfold getChildren.
    rewrite <- (filter_sortBy byOrderIndex byOrderIndex_total byOrderIndex_trans).
    rewrite list_filter_filter.
    rewrite (list_filter_iff (fun n => orderIndex n = k /\ parentId n = p)
               (fun n => parentId n = p /\ orderIndex n = k)) by (intros; tauto).
    apply sortBy_already.
    induction (Map_values m) as [|x l IH]; [constructor|].
    rewrite filter_cons. destruct (decide _) as [[_ Hx]|_]; [|exact IH].
    constructor; [exact IH|]. apply Forall_forall. intros y Hy.
    apply list_elem_of_filter in Hy as [[_ Hy] _].
    unfold byOrderIndex. apply Z.leb_le. lia.
Qed.

(** ** Templates *)

Lemma firstMatch_spec keys templates :
  (firstMatch keys templates = "" /\
   Forall (fun x => (length (filter (fun f => f ∈ keys) (snd x)) < 2)%nat) templates) \/
  (exists pre ms post,
     templates = pre ++ (firstMatch keys templates, ms) :: post /\
     (2 <= length (filter (fun f => f ∈ keys) ms))%nat /\
     Forall (fun x => (length (filter (fun f => f ∈ keys) (snd x)) < 2)%nat) pre).
Proof.
  induction templates as [|[t ms] r IH]; [left; split; [reflexivity|constructor]|].
  cbn [firstMatch].
  destruct (Nat.leb_spec 2 (length (filter (fun f => f ∈ keys) ms))) as [Hle|Hlt].
  - right. exists [], ms, r. split; [reflexivity|]. split; [exact Hle|constructor].
  - destruct IH as [[E Hall]|(pre & ms' & post & E & Hle & Hall)].
    + left. split; [exact E|]. constructor; [exact Hlt|exact Hall].
    + right. exists ((t, ms) :: pre), ms', post. split; [|split].
      * rewrite E at 1. reflexivity.
      * exact Hle.
      * constructor; [exact Hlt|exact Hall].
Qed.

(** X22.  [detectTemplate(fields)] answers with the first template of its
    table, in the order npc, location, item, quest, monster, faction, that
    has at least two of its three marker fields among the keys of [fields],
    and with the empty string when no template has; the values of the fields
    play no part. *)
Theorem detectTemplate_first_match (fs : list (string * string)) :
  (detectTemplate (Some fs) = "" /\
   Forall (fun x => (length (filter (fun f => f ∈ fs.*1) (snd x)) < 2)%nat)
     templateMarkers) \/
  (exists pre ms post,
     templateMarkers = pre ++ (detectTemplate (Some fs), ms) :: post /\
     (2 <= length (filter (fun f => f ∈ fs.*1) ms))%nat /\
     Forall (fun x => (length (filter (fun f => f ∈ fs.*1) (snd x)) < 2)%nat) pre).
Proof.
  unfold detectTemplate. destruct (Nat.eqb_spec (length fs.*1) 0) as [E|_].
  - left. split; [reflexivity|]. apply length_zero_iff_nil in E. rewrite E.
    apply Forall_forall. intros x _.
    rewrite (filter_none (fun f => f ∈ [])); [cbn; lia|].
    intros f _ Hf. inversion Hf.
  - apply firstMatch_spec.
Qed.

Lemma detects_own_fields t :
  t ∈ templateMarkers.*1 -> detectTemplate (Some (getTemplateFields t)) = t.
Proof.
  cbn. rewrite !elem_of_cons, elem_of_nil.
  intros [->|[->|[->|[->|[->|[->|[]]]]]]]; vm_compute; reflexivity.
Qed.

(** X23.  The fields [getTemplateFields] gives a new note of one of the six
    templates are recognised by [detectTemplate] as that template. *)
Theorem detectTemplate_getTemplateFields t :
  t ∈ templateMarkers.*1 -> detectTemplate (Some (getTemplateFields t)) = t.
Proof. apply detects_own_fields. Qed.

Lemma detectTemplate_getTemplateFields_witness :
  detectTemplate (Some (getTemplateFields "faction")) = "faction".
Proof.
  apply (detectTemplate_getTemplateFields "faction").
  apply (bool_decide_unpack _). vm_compute. reflexivity.
Defined.

Lemma createdContent_or_null parentId template newId now :
  createdContent (newNoteArgs parentId (if truthy template then template else None))
    newId now
  = createdContent (newNoteArgs parentId template) newId now.
Proof.
  destruct template as [t|]; [|reflexivity]. cbn [truthy].
  destruct (truthy_string t) eqn:E; [reflexivity|].
  unfold truthy_string in E. apply negb_false_iff in E. apply String.eqb_eq in E.
  subst t. reflexivity.
Qed.

(** X24.  Choosing one of the six templates, or none, in the dialogue makes
    a leaf named New Note at the end of the children of the parent, expands
    the parent, and selects the note: the content shown is the one just
    written, with the icon and the fields of the template, and the editor
    detects the template from those fields.  An empty template string counts
    as none. *)
Theorem handleSelect_opens fuel st parentId template newId now st' :
  offered_template template ->
  newId <> "" ->
  handleSelect fuel st parentId template newId now = Some st' ->
  Map_get newId (nodes st')
  = Some (createdNode st (newNoteArgs parentId template) newId now) /\
  selectedNodeId st' = Some newId /\
  currentContent st' = Some (createdContent (newNoteArgs parentId template) newId now) /\
  expandedNodes st'
  = (if truthy parentId then {[default "" parentId]} ∪ expandedNodes st
     else expandedNodes st) /\
  (forall c, currentContent st' = Some c ->
     detectTemplate (Some (fields c)) = if truthy template then default "" template else "").
Proof.
  intros Hoffered Hid. unfold handleSelect.
  destruct (createNode _ _ _ _ _) as [[node st1]|] eqn:E; [|discriminate].
  intros [= <-].
  apply createNode_fields in E as (Hn & Hm & _ & Hc & _ & _ & _ & Hexp).
  cbn [a_type newNoteArgs] in Hc.
  assert (Hnode : id node = newId) by (rewrite Hn; reflexivity).
  assert (Ht : truthy_string newId = true).
  { unfold truthy_string. apply negb_true_iff, String.eqb_neq. exact Hid. }
  set (st2 := match parentId with
              | Some p => if truthy_string p
                          then set_expandedNodes ({[p]} ∪ expandedNodes st1) st1 else st1
              | None => st1
              end).
  assert (H2 : nodes st2 = nodes st1 /\ db st2 = db st1 /\
               expandedNodes st2
               = (if truthy parentId then {[default "" parentId]} ∪ expandedNodes st
                  else expandedNodes st)).
  { subst st2. destruct parentId as [p|]; cbn [truthy]; [destruct (truthy_string p)|];
      cbn; rewrite ?Hexp; repeat split; reflexivity. }
  destruct H2 as (H2n & H2d & H2e).
  destruct (selectNode_fields st2 (Some (id node)) now) as (Sn & _ & _ & Ss & Sc).
  assert (Hcur : currentContent (selectNode st2 (Some (id node)) now)
                 = Some (createdContent (newNoteArgs parentId template) newId now)).
  { rewrite Sc, Hnode, Ht, H2d. unfold db_getContent. rewrite Hc, lookup_insert_eq.
    rewrite createdContent_or_null. reflexivity. }
  split; [|split; [|split; [|split]]].
  - rewrite Sn, H2n, Hm, Map_get_set_eq, Hn. reflexivity.
  - rewrite Ss, Hnode. reflexivity.
  - exact Hcur.
  - unfold selectNode. rewrite Hnode, Ht. cbn. exact H2e.
  - intros c. rewrite Hcur. intros [= <-].
    unfold createdContent. cbn [fields a_template newNoteArgs].
    destruct (truthy template) eqn:Et; [|reflexivity].
    destruct Hoffered as [Hf|Hin]; [congruence|].
    apply detects_own_fields, Hin.
Qed.

Lemma handleSelect_opens_witness :
  Map_get "n1" (nodes openedNote)
  = Some (createdNode twoFolders (newNoteArgs (Some "p") (Some "npc")) "n1" 50) /\
  selectedNodeId openedNote = Some "n1" /\
  currentContent openedNote
  = Some (createdContent (newNoteArgs (Some "p") (Some "npc")) "n1" 50) /\
  expandedNodes openedNote
  = (if truthy (Some "p") then {[default "" (Some "p")]} ∪ expandedNodes twoFolders
     else expandedNodes twoFolders) /\
  (forall c, currentContent openedNote = Some c ->
     detectTemplate (Some (fields c))
     = if truthy (Some "npc") then default "" (Some "npc") else "").
Proof.
  apply (handleSelect_opens 16 twoFolders (Some "p") (Some "npc") "n1" 50 openedNote).
  - right. apply (bool_decide_unpack _). vm_compute. reflexivity.
  - discriminate.
  - vm_compute. reflexivity.
Defined.

(** ** Exporting a subtree *)

Lemma collectSubtree_unfold f st i now :
  collectSubtree (S f) st i now =
  match getNode st i with
  | None => Some (inl TypeError)
  | Some node =>
      match
        foldl (collectStep (fun c => collectSubtree f st c now)) (Some (inr []))
          (getChildren (nodes st) (Some i))
      with
      | Some (inr ts) =>
          Some (inr (mkSubtree node
                       match type node with
                       | leaf => Some (db_getContent i now (db st))
                       | folder => None
                       end ts))
      | Some (inl e) => Some (inl e)
      | None => None
      end
  end.
Proof. reflexivity. Qed.

Lemma collectLoop_stuck collect cs acc :
  (forall ts, acc <> Some (inr ts)) -> foldl (collectStep collect) acc cs = acc.
Proof.
  intros H. induction cs as [|c cs IH]; [reflexivity|]. cbn [foldl].
  assert (E : collectStep collect acc c = acc).
  { destruct acc as [[e|ts]|]; [reflexivity| |reflexivity]. destruct (H ts). reflexivity. }
  rewrite E. exact IH.
Qed.

Lemma collectLoop_spec collect cs ts0 ts :
  foldl (collectStep collect) (Some (inr ts0)) cs = Some (inr ts) ->
  exists ts', ts = ts0 ++ ts' /\
    Forall2 (fun c t => collect (id c) = Some (inr t)) cs ts'.
Proof.
  revert ts0. induction cs as [|c cs IH]; intros ts0 H.
  - cbn in H. injection H as <-. exists []. rewrite app_nil_r. split; constructor.
  - cbn [foldl collectStep] in H. destruct (collect (id c)) as [[e|t]|] eqn:E.
    + rewrite collectLoop_stuck in H by (intros ? [=]). discriminate.
    + apply IH in H as (ts' & -> & Hall). exists (t :: ts').
      rewrite <- app_assoc. split; [reflexivity|]. constructor; [exact E|exact Hall].
    + rewrite collectLoop_stuck in H by (intros ? [=]). discriminate.
Qed.

Lemma collectLoop_returns collect cs ts0 ts' :
  Forall2 (fun c t => collect (id c) = Some (inr t)) cs ts' ->
  foldl (collectStep collect) (Some (inr ts0)) cs = Some (inr (ts0 ++ ts')).
Proof.
  intros H. revert ts0. induction H as [|c t cs ts' E _ IH]; intros ts0.
  - rewrite app_nil_r. reflexivity.
  - cbn [foldl collectStep]. rewrite E, IH, <- app_assoc. reflexivity.
Qed.

Lemma child_step m i c :
  wf m -> Map_get i m <> None -> c ∈ getChildren m (Some i) -> parent_step m (id c) i.
Proof.
  intros Hwf Hi Hc. apply elem_of_getChildren in Hc as [Hin Hp].
  exists c. split; [apply wf_value_get; assumption|]. split; [exact Hp|].
  intros ->. apply Hi. apply wf_no_empty_key, Hwf.
Qed.

Lemma step_child m k i :
  wf m -> parent_step m k i -> exists c, c ∈ getChildren m (Some i) /\ id c = k.
Proof.
  intros Hwf (n & Hn & Hp & _). exists n.
  split; [|apply (wf_key_id _ _ _ Hwf Hn)].
  apply elem_of_getChildren. split; [|exact Hp].
  apply list_elem_of_fmap. exists (k, n). split; [reflexivity|].
  apply Map_get_Some_elem, Hn.
Qed.

Lemma subtrees_unfold t : subtrees t = t :: flat_map subtrees (s_children t).
Proof. destruct t; reflexivity. Qed.

Lemma Forall2_impl_elem {A B} (P Q : A -> B -> Prop) l k :
  Forall2 P l k -> (forall x y, x ∈ l -> P x y -> Q x y) -> Forall2 Q l k.
Proof.
  induction 1 as [|x y l k Hxy _ IH]; intros Himp; constructor.
  - apply Himp; [left|exact Hxy].
  - apply IH. intros a b Ha. apply Himp. right. exact Ha.
Qed.

Lemma collectSubtree_exported fuel st now :
  wf (nodes st) ->
  forall i t, collectSubtree fuel st i now = Some (inr t) ->
    Map_get i (nodes st) = Some (s_node t) /\
    Forall (exported st now) (subtrees t) /\
    (forall k, k ∈ (fun x => id (s_node x)) <$> subtrees t
               <-> rtc (parent_step (nodes st)) k i).
Proof.
  intros Hwf. induction fuel as [|f IH]; intros i t H.
  { cbn in H. destruct (getNode st i); discriminate. }
  rewrite collectSubtree_unfold in H. unfold getNode in H.
  destruct (Map_get i (nodes st)) as [node|] eqn:Hi; [|discriminate].
  destruct (foldl _ _ _) as [[e|ts]|] eqn:Eloop; try discriminate.
  injection H as <-. apply collectLoop_spec in Eloop as (ts' & -> & Hall).
  cbn [app] in *. destruct (wf_key_id _ _ _ Hwf Hi) as [Hid Hne].
  assert (Hpresent : Map_get i (nodes st) <> None) by congruence.
  assert (Hsub : Forall2 (fun c x =>
            s_node x = c /\
            Forall (exported st now) (subtrees x) /\
            (forall k, k ∈ (fun y => id (s_node y)) <$> subtrees x
                       <-> rtc (parent_step (nodes st)) k (id c)))
          (getChildren (nodes st) (Some i)) ts').
  { eapply Forall2_impl_elem; [exact Hall|]. cbn beta. intros c x Hc E.
    apply IH in E as (Hx & Hex & Hk). split; [|split; assumption].
    apply elem_of_getChildren in Hc as [Hc _].
    apply (wf_value_get _ _ Hwf) in Hc. congruence. }
  clear Hall IH.
  split; [reflexivity|]. rewrite subtrees_unfold. cbn [s_children s_node].
  split.
  - constructor.
    + split; [cbn [s_node]; rewrite Hid; exact Hi|].
      split; [cbn [s_content s_node]; rewrite Hid; reflexivity|].
      cbn [s_children s_node]. rewrite Hid. clear -Hsub.
      induction Hsub as [|c x cs ts' (Hx & _) _ IHs]; [reflexivity|].
      rewrite fmap_cons, IHs, Hx. reflexivity.
    + clear -Hsub. induction Hsub as [|c x cs ts' (_ & Hx & _) _ IHs]; [constructor|].
      cbn [flat_map]. apply Forall_app. split; assumption.
  - assert (Hbelow : forall k,
              k ∈ (fun y => id (s_node y)) <$> flat_map subtrees ts'
              <-> exists c, c ∈ getChildren (nodes st) (Some i) /\
                            rtc (parent_step (nodes st)) k (id c)).
    { clear -Hsub. intros k.
      induction Hsub as [|c x cs ts' (_ & _ & Hx) _ IHs].
      - cbn. split; [intros Hk; inversion Hk|intros (c & Hc & _); inversion Hc].
      - cbn [flat_map]. rewrite fmap_app, elem_of_app, Hx, IHs. split.
        + intros [Hk|(c' & Hc' & Hk)]; [exists c|exists c'];
            (split; [|exact Hk]); [left|right; exact Hc'].
        + intros (c' & Hc' & Hk). apply elem_of_cons in Hc' as [->|Hc'];
            [left; exact Hk|right; exists c'; auto]. }
    intros k. rewrite fmap_cons, elem_of_cons, Hbelow. cbn [s_node]. rewrite Hid.
    split.
    + intros [->|(c & Hc & Hk)]; [apply rtc_refl|].
      eapply rtc_r; [exact Hk|]. apply child_step; assumption.
    + intros Hk. apply rtc_inv_r in Hk as [->|(y & Hk & Hy)]; [left; reflexivity|].
      right. destruct (step_child _ _ _ Hwf Hy) as (c & Hc & <-). exists c. auto.
Qed.

Lemma collectChildren_return st now cs :
  (forall c, c ∈ cs -> exists N t, forall fuel, N <= fuel ->
     collectSubtree fuel st (id c) now = Some (inr t)) ->
  exists N ts, forall fuel, N <= fuel ->
    Forall2 (fun c t => collectSubtree fuel st (id c) now = Some (inr t)) cs ts.
Proof.
  induction cs as [|c cs IH]; intros H.
  - exists 0, []. intros. constructor.
  - destruct (H c ltac:(left)) as (N1 & t & H1).
    destruct IH as (N2 & ts & H2); [intros x Hx; apply H; right; exact Hx|].
    exists (max N1 N2), (t :: ts). intros fuel Hf.
    constructor; [apply H1; lia|apply H2; lia].
Qed.

Lemma collectSubtree_returns st now :
  wf (nodes st) -> acyclic (nodes st) ->
  forall i, Map_get i (nodes st) <> None ->
    exists N t, forall fuel, N <= fuel -> collectSubtree fuel st i now = Some (inr t).
Proof.
  intros Hwf Hac i. induction (acyclic_Acc _ Hac i) as [i _ IH]. intros Hi.
  destruct (Map_get i (nodes st)) as [node|] eqn:E; [clear Hi|contradiction].
  destruct (collectChildren_return st now (getChildren (nodes st) (Some i)))
    as (N & ts & Hloop).
  { intros c Hc. pose proof (child_step _ i c Hwf ltac:(congruence) Hc) as Hs.
    apply (IH _ Hs). destruct Hs as (n & -> & _). discriminate. }
  exists (S N). eexists. intros fuel Hf. destruct fuel as [|f]; [lia|].
  rewrite collectSubtree_unfold. unfold getNode. rewrite E.
  rewrite (collectLoop_returns _ _ [] ts) by (apply Hloop; lia). reflexivity.
Qed.

Lemma collectLoop_throws collect cs ts0 e :
  foldl (collectStep collect) (Some (inr ts0)) cs = Some (inl e) ->
  exists c, c ∈ cs /\ collect (id c) = Some (inl e).
Proof.
  revert ts0. induction cs as [|c cs IH]; intros ts0 H; [discriminate|].
  cbn [foldl collectStep] in H. destruct (collect (id c)) as [[e'|t]|] eqn:E.
  - rewrite collectLoop_stuck in H by (intros ? [=]). injection H as ->.
    exists c. split; [left|exact E].
  - apply IH in H as (c' & Hc' & H). exists c'. split; [right; exact Hc'|exact H].
  - rewrite collectLoop_stuck in H by (intros ? [=]). discriminate.
Qed.

Lemma collectSubtree_no_throw fuel st now :
  wf (nodes st) ->
  forall i e, Map_get i (nodes st) <> None -> collectSubtree fuel st i now <> Some (inl e).
Proof.
  intros Hwf. induction fuel as [|f IH]; intros i e Hi H.
  { cbn in H. unfold getNode in H. destruct (Map_get i (nodes st)); [discriminate|].
    contradiction. }
  rewrite collectSubtree_unfold in H. unfold getNode in H.
  destruct (Map_get i (nodes st)) as [node|] eqn:E; [|contradiction].
  destruct (foldl _ _ _) as [[e'|ts]|] eqn:Eloop; try discriminate.
  apply collectLoop_throws in Eloop as (c & Hc & Hthrow).
  apply (IH (id c) e'); [|exact Hthrow].
  apply elem_of_getChildren in Hc as [Hc _]. apply (wf_value_get _ _ Hwf) in Hc.
  congruence.
Qed.

(** X25.  [collectSubtree(id)] of [exportSubtree], on a well-formed store
    that holds the id: it throws nothing; the tree it returns has the node at
    its root and holds an object for the node and for each node with it
    among its ancestors and for no other; each object carries the node as the
    map holds it, its content as the database gives it when it is a leaf and
    null when it is a folder, and its children in the order of
    [getChildren].  On an acyclic store it returns. *)
Theorem collectSubtree_spec st i node now :
  wf (nodes st) -> Map_get i (nodes st) = Some node ->
  (forall fuel e, collectSubtree fuel st i now <> Some (inl e)) /\
  (forall fuel t, collectSubtree fuel st i now = Some (inr t) ->
     s_node t = node /\
     Forall (exported st now) (subtrees t) /\
     (forall k, k ∈ (fun x => id (s_node x)) <$> subtrees t
                <-> rtc (parent_step (nodes st)) k i)) /\
  (acyclic (nodes st) ->
   exists N t, forall fuel, N <= fuel -> collectSubtree fuel st i now = Some (inr t)).
Proof.
  intros Hwf Hi. split; [|split].
  - intros fuel e. apply collectSubtree_no_throw; [exact Hwf|congruence].
  - intros fuel t H. apply (collectSubtree_exported _ _ _ Hwf) in H as (Hn & Hex & Hk).
    split; [congruence|]. split; assumption.
  - intros Hac. apply collectSubtree_returns; [exact Hwf|exact Hac|congruence].
Qed.

Lemma collectSubtree_spec_witness :
  (forall fuel e, collectSubtree fuel twoFolders "p" 40 <> Some (inl e)) /\
  (forall fuel t, collectSubtree fuel twoFolders "p" 40 = Some (inr t) ->
     s_node t = mkNode "p" None folder "P" 0 false 1 1 /\
     Forall (exported twoFolders 40) (subtrees t) /\
     (forall k, k ∈ (fun x => id (s_node x)) <$> subtrees t
                <-> rtc (parent_step (nodes twoFolders)) k "p")) /\
  (acyclic (nodes twoFolders) ->
   exists N t, forall fuel, N <= fuel ->
     collectSubtree fuel twoFolders "p" 40 = Some (inr t)).
Proof.
  apply (collectSubtree_spec twoFolders "p" (mkNode "p" None folder "P" 0 false 1 1) 40
           twoFolders_wf).
  vm_compute. reflexivity.
Defined.

(** The export of the folder P of [twoFolders]: P with its children P1, P2
    and X in that order, the two leaves with their content. *)
Example collectSubtree_example :
  collectSubtree 16 twoFolders "p" 40 = Some (inr exportedP) /\
  name <$> (s_node <$> subtrees exportedP) = ["P"; "P1"; "P2"; "X"] /\
  (fun x => bool_decide (is_Some (s_content x))) <$> subtrees exportedP
  = [false; true; true; false].
Proof. vm_compute. repeat split. Qed.

(** X26.  What [deleteNode(id)] removes is what [exportSubtree(id)] has
    written down: a node of a well-formed store is gone from the map after
    the deletion exactly when the tree collected before holds an object for
    it, and that object carries the node record and, for a leaf, the content
    the database held. *)
Theorem export_covers_delete fuel fuel' st i now t st' :
  wf (nodes st) ->
  collectSubtree fuel st i now = Some (inr t) ->
  deleteNode fuel' st i = Some st' ->
  forall k n, Map_get k (nodes st) = Some n ->
    (Map_get k (nodes st') = None <->
     exists x, x ∈ subtrees t /\ s_node x = n /\
       s_content x = match type n with
                     | leaf => Some (db_getContent k now (db st))
                     | folder => None
                     end).
Proof.
  intros Hwf Hexp Hdel k n Hk.
  destruct (collectSubtree_exported _ _ _ Hwf _ _ Hexp) as (Hroot & Hall & Hids).
  destruct (deleteNode_spec _ _ _ _ Hwf Hdel) as [_ (_ & Hgone & Hrem & _)].
  destruct (wf_key_id _ _ _ Hwf Hk) as [Hid _].
  split.
  - intros Hnone. assert (Hu : under (nodes st) i k).
    { apply Hrem. split; [congruence|exact Hnone]. }
    destruct Hu as [_ Hr]. apply Hids in Hr.
    apply list_elem_of_fmap in Hr as (x & Hx & Hin). exists x.
    split; [exact Hin|]. rewrite Forall_forall in Hall.
    destruct (Hall x Hin) as (Hget & Hc & _). rewrite <- Hx, Hk in Hget.
    injection Hget as Hn. split; [auto|]. rewrite Hc, <- Hn, Hid. reflexivity.
  - intros (x & Hin & Hn & _). apply Hgone. split; [congruence|].
    apply Hids. apply list_elem_of_fmap. exists x. split; [|exact Hin].
    rewrite Hn. auto.
Qed.

Lemma export_covers_delete_witness :
  Map_get "p1" (nodes twoFoldersWithoutP) = None <->
  exists x, x ∈ subtrees exportedP /\
    s_node x = mkNode "p1" (Some "p") leaf "P1" 0 false 3 3 /\
    s_content x = match type (mkNode "p1" (Some "p") leaf "P1" 0 false 3 3) with
                  | leaf => Some (db_getContent "p1" 40 (db twoFolders))
                  | folder => None
                  end.
Proof.
  assert (H1 : collectSubtree 16 twoFolders "p" 40 = Some (inr exportedP))
    by (vm_compute; reflexivity).
  assert (H2 : deleteNode 16 twoFolders "p" = Some twoFoldersWithoutP)
    by (vm_compute; reflexivity).
  assert (H3 : Map_get "p1" (nodes twoFolders)
               = Some (mkNode "p1" (Some "p") leaf "P1" 0 false 3 3))
    by (vm_compute; reflexivity).
  pose proof (export_covers_delete 16 16 twoFolders "p" 40 exportedP twoFoldersWithoutP
                twoFolders_wf H1 H2 "p1" (mkNode "p1" (Some "p") leaf "P1" 0 false 3 3) H3)
    as R.
  exact R.
Defined.

(** ** Saving from the editor *)

Lemma updateContent_no_tags fuel st u now c :
  currentContent st = Some c -> truthy (selectedNodeId st) = true -> c_tags u = None ->
  updateContent fuel st u now
  = Some (set_selection (selectedNodeId st) (Some (mergeContent c u now))
            (set_db (db_saveContent (mergeContent c u now) (db st)) st),
          [contentChanged (mergeContent c u now)]).
Proof. intros Hc Hs Ht. unfold updateContent. rewrite Hc, Hs, Ht. reflexivity. Qed.

Lemma titleOr_not_empty titleInput node : name node <> "" -> titleOr titleInput node <> "".
Proof.
  intros Hn. unfold titleOr. destruct (truthy_string (trim titleInput)) eqn:E; [|exact Hn].
  apply truthy_string_ne, E.
Qed.

(** X27.  [save()] of the editor, the editor showing the selected node: the
    node gets the trimmed title as its name, or keeps its name when the title
    is blank, and is written only when the name changes; no other node
    changes; the content of the selection gets the icon, the text and the
    fields of the form and keeps its tags and links, in the store and in the
    database.  A node with a name never loses it. *)
Theorem save_spec fuel st i node c titleInput icon markdown fields now1 now2 st' ns :
  Map_get i (nodes st) = Some node -> i <> "" ->
  selectedNodeId st = Some i -> currentContent st = Some c ->
  save fuel st (Some i) titleInput icon markdown fields now1 now2 = Some (st', ns) ->
  let title := titleOr titleInput node in
  let saved := mkContent (nodeId c) icon markdown fields (tags c) (links c) now2 in
  Map_get i (nodes st')
  = Some (if decide (title = name node) then node
          else mkNode (id node) (parentId node) (type node) title (orderIndex node)
                 (active node) (createdAt node) now1) /\
  (forall k, k <> i -> Map_get k (nodes st') = Map_get k (nodes st)) /\
  currentContent st' = Some saved /\
  contentStore (db st') !! nodeId c = Some saved /\
  ns = [contentChanged saved] /\
  (name node <> "" -> title <> "").
Proof.
  intros Hi Hne Hsel Hc H title saved.
  assert (Ht : truthy (Some i) = true) by (apply truthy_Some; eauto).
  unfold save in H. rewrite Ht in H.
  change (default "" (Some i)) with i in H. unfold getNode in H.
  rewrite Hi in H. fold title in H.
  assert (Hmerge : mergeContent c (editedContent icon markdown fields) now2 = saved)
    by reflexivity.
  destruct (decide (title <> name node)) as [Hd|Hd].
  - destruct (updateNode _ _ _ _ _) as [[r st1]|] eqn:E; [|discriminate].
    cbn [fmap option_fmap option_map snd] in H.
    apply (updateNode_fields _ _ _ _ _ _ _ _ Hi) in E
      as (_ & Hn & Hdb & _ & Hs1 & Hc1 & _).
    rewrite (updateContent_no_tags _ _ _ _ c) in H;
      [|rewrite Hc1; exact Hc|rewrite Hs1, Hsel; exact Ht|reflexivity].
    injection H as <- <-. rewrite Hmerge. cbn. rewrite Hn.
    rewrite decide_False by exact Hd.
    split; [rewrite Map_get_set_eq; reflexivity|].
    split; [intros k Hk; apply Map_get_set_ne; exact Hk|].
    split; [reflexivity|]. split; [apply lookup_insert_eq|].
    split; [reflexivity|]. apply titleOr_not_empty.
  - rewrite (updateContent_no_tags _ _ _ _ c) in H; [|exact Hc|rewrite Hsel; exact Ht|reflexivity].
    injection H as <- <-. rewrite Hmerge. cbn.
    rewrite decide_True by (destruct (decide (title = name node)); tauto).
    split; [exact Hi|]. split; [reflexivity|].
    split; [reflexivity|]. split; [apply lookup_insert_eq|].
    split; [reflexivity|]. apply titleOr_not_empty.
Qed.

Lemma save_spec_witness :
  let node := mkNode "p1" (Some "p") leaf "P1" 0 false 3 3 in
  let c := db_getContent "p1" 30 (db twoFolders) in
  let title := titleOr "  Renamed " node in
  let saved := mkContent (nodeId c) "i" "text" [("k", "v")] (tags c) (links c) 32 in
  Map_get "p1" (nodes (fst savedP1))
  = Some (if decide (title = name node) then node
          else mkNode (id node) (parentId node) (type node) title (orderIndex node)
                 (active node) (createdAt node) 31) /\
  (forall k, k <> "p1" -> Map_get k (nodes (fst savedP1)) = Map_get k (nodes selectedP1)) /\
  currentContent (fst savedP1) = Some saved /\
  contentStore (db (fst savedP1)) !! nodeId c = Some saved /\
  snd savedP1 = [contentChanged saved] /\
  (name node <> "" -> title <> "").
Proof.
  assert (H1 : Map_get "p1" (nodes selectedP1)
               = Some (mkNode "p1" (Some "p") leaf "P1" 0 false 3 3))
    by (vm_compute; reflexivity).
  assert (H2 : selectedNodeId selectedP1 = Some "p1") by reflexivity.
  assert (H3 : currentContent selectedP1 = Some (db_getContent "p1" 30 (db twoFolders)))
    by reflexivity.
  assert (H4 : save 16 selectedP1 (Some "p1") "  Renamed " "i" "text" [("k", "v")] 31 32
               = Some (fst savedP1, snd savedP1)) by (vm_compute; reflexivity).
  pose proof (save_spec 16 selectedP1 "p1" (mkNode "p1" (Some "p") leaf "P1" 0 false 3 3)
                (db_getContent "p1" 30 (db twoFolders)) "  Renamed " "i" "text"
                [("k", "v")] 31 32 (fst savedP1) (snd savedP1) H1 ltac:(discriminate)
                H2 H3 H4) as R.
  exact R.
Defined.

(** Saving the form with the title Renamed between blanks: the note is
    renamed to the trimmed title and stamped with the time of the write. *)
Example save_example :
  Map_get "p1" (nodes (fst savedP1))
  = Some (mkNode "p1" (Some "p") leaf "Renamed" 0 false 3 31).
Proof. vm_compute. reflexivity. Qed.

(** ** The recent notes *)

Lemma mapM_fst {A B} (f : A -> option B) l k :
  mapM (fun x => (fun y => (x, y)) <$> f x) l = Some k ->
  fst <$> k = l /\ Forall (fun xy => f (fst xy) = Some (snd xy)) k.
Proof.
  intros H. apply mapM_Some_1 in H.
  induction H as [|x [x' y] l k Hxy _ [IH1 IH2]]; [split; [reflexivity|constructor]|].
  destruct (f x) as [y'|] eqn:E; [|discriminate]. injection Hxy as <- <-.
  split; [rewrite fmap_cons, IH1; reflexivity|]. constructor; [exact E|exact IH2].
Qed.

(** X28.  [showRecentNodes()] shows at most ten nodes, all of them leaves of
    the map, most recently updated first, each with its path; a leaf it
    leaves out was updated no later than every leaf it shows. *)
Theorem showRecentNodes_spec fuel st items :
  showRecentNodes fuel st = Some items ->
  let leaves := filter (fun n => type n = leaf) (Map_values (nodes st)) in
  length items = min 10 (length leaves) /\
  StronglySorted (fun a b => (updatedAt b <= updatedAt a)%Z) (fst <$> items) /\
  Forall (fun x => getNodePath fuel (nodes st) (id (fst x)) = Some (snd x)) items /\
  exists rest,
    (fst <$> items) ++ rest ≡ₚ leaves /\
    (forall x y, x ∈ fst <$> items -> y ∈ rest -> (updatedAt y <= updatedAt x)%Z).
Proof.
  intros H leaves. apply mapM_fst in H as [Hfst Hpaths].
  unfold recentNodes in Hfst. fold leaves in Hfst.
  assert (Hs : StronglySorted (fun a b => (updatedAt b <= updatedAt a)%Z)
                 (sortBy byUpdatedDesc leaves)).
  { eapply StronglySorted_weaken;
      [|apply sortBy_sorted; [apply byUpdatedDesc_total|apply byUpdatedDesc_trans]].
    intros a b Hab. apply Z.leb_le. exact Hab. }
  rewrite <- (take_drop 10 (sortBy byUpdatedDesc leaves)) in Hs.
  split; [|split; [|split]].
  - rewrite <- (length_fmap fst items), Hfst, length_take, length_sortBy. lia.
  - rewrite Hfst. eapply StronglySorted_app_1_l. exact Hs.
  - exact Hpaths.
  - exists (drop 10 (sortBy byUpdatedDesc leaves)). rewrite Hfst. split.
    + rewrite take_drop. apply sortBy_perm.
    + intros x y Hx Hy. exact (StronglySorted_app_1_elem_of _ _ _ x y Hs Hx Hy).
Qed.

Lemma showRecentNodes_spec_witness :
  let items := default [] (showRecentNodes 16 twoFolders) in
  let leaves := filter (fun n => type n = leaf) (Map_values (nodes twoFolders)) in
  length items = min 10 (length leaves) /\
  StronglySorted (fun a b => (updatedAt b <= updatedAt a)%Z) (fst <$> items) /\
  Forall (fun x => getNodePath 16 (nodes twoFolders) (id (fst x)) = Some (snd x)) items /\
  exists rest,
    (fst <$> items) ++ rest ≡ₚ leaves /\
    (forall x y, x ∈ fst <$> items -> y ∈ rest -> (updatedAt y <= updatedAt x)%Z).
Proof.
  apply (showRecentNodes_spec 16 twoFolders (default [] (showRecentNodes 16 twoFolders))).
  vm_compute. reflexivity.
Defined.

(** ** Moving a node to the root *)

Lemma sortRootNodes_already m l :
  (forall r, r ∈ l -> Map_get r m <> None) ->
  StronglySorted
    (fun a b => forall na nb, Map_get a m = Some na -> Map_get b m = Some nb ->
                              (orderIndex na <= orderIndex nb)%Z) l ->
  sortRootNodes m l = Some l.
Proof.
  intros Hknown Hs. unfold sortRootNodes. destruct (length l <? 2)%nat; [reflexivity|].
  destruct (mapM (fun a => Map_get a m) l) as [ns|] eqn:E.
  - pose proof (length_mapM _ _ _ E) as Hlen. apply mapM_Some_1 in E.
    rewrite sortBy_already; [rewrite fst_zip by lia; reflexivity|].
    clear Hlen Hknown. induction E as [|a n l ns Ha E IH]; [constructor|].
    apply StronglySorted_inv in Hs as [Hs Hall]. cbn [zip zip_with].
    constructor; [apply IH, Hs|]. clear IH Hs.
    induction E as [|b nb l ns Hb E IH]; [constructor|].
    apply Forall_cons in Hall as [Hab Hall]. cbn [zip zip_with].
    constructor; [|apply IH, Hall]. cbn [snd]. unfold byOrderIndex.
    apply Z.leb_le. apply Hab; assumption.
  - exfalso. assert (Hsome : is_Some (mapM (fun a => Map_get a m) l)).
    { apply mapM_is_Some. apply Forall_forall. intros r Hr.
      destruct (Map_get r m) eqn:Er; [eauto|]. destruct (Hknown r Hr Er). }
    rewrite E in Hsome. destruct Hsome; discriminate.
Qed.

(** X29.  Move to root from the context menu: a node that has no parent, or
    an unknown id, is left alone.  A node with a parent, on a well-formed
    store whose root list holds the parentless nodes in the order of their
    [orderIndex], none above the number of roots: the call does not throw,
    the node gets that number as [orderIndex] and no parent, and its id is
    put at the end of the root list, which stays in [orderIndex] order. *)
Theorem moveToRoot_appends fuel st i now c :
  wf (nodes st) -> roots_ok st -> roots_sorted st -> roots_within st ->
  moveToRoot fuel st i now = Some c ->
  match Map_get i (nodes st) with
  | None => c = Returned tt st
  | Some node =>
      if truthy (parentId node) then
        exists st', c = Returned tt st' /\
          Map_get i (nodes st') = Some (movedNode node (nodes st) None now) /\
          (forall k, k <> i -> Map_get k (nodes st') = Map_get k (nodes st)) /\
          rootNodes st' = rootNodes st ++ [i] /\
          roots_sorted st'
      else c = Returned tt st
  end.
Proof.
  intros Hwf Hroots Hsorted Hwithin H. unfold moveToRoot, getNode in H.
  destruct (Map_get i (nodes st)) as [node|] eqn:Hi; [|congruence].
  destruct (truthy (parentId node)) eqn:Hp; [|congruence].
  unfold moveNode in H. rewrite Hi, Hp in H.
  assert (Hd : isDescendant fuel (nodes st) None i = Some false)
    by (destruct fuel; reflexivity).
  rewrite Hd in H. fold (movedNode node (nodes st) None now) in H.
  set (upd := movedNode node (nodes st) None now) in *. cbn [truthy] in H.
  set (m' := Map_set i upd (nodes st)) in *.
  assert (Hnot : i ∉ rootNodes st).
  { intros Hin. apply Hroots in Hin as (n & Hn & Hf). congruence. }
  assert (Hold : forall r, r ∈ rootNodes st -> Map_get r m' = Map_get r (nodes st)).
  { intros r Hr. apply Map_get_set_ne. intros ->. contradiction. }
  assert (Hs' : StronglySorted
            (fun a b => forall na nb, Map_get a m' = Some na -> Map_get b m' = Some nb ->
                                      (orderIndex na <= orderIndex nb)%Z)
            (rootNodes st ++ [i])).
  { apply StronglySorted_app_2.
    - intros a b Ha Hb na nb Hna Hnb. apply list_elem_of_singleton in Hb. subst b.
      rewrite Hold in Hna by exact Ha. unfold m' in Hnb. rewrite Map_get_set_eq in Hnb.
      injection Hnb as <-. cbn [orderIndex upd movedNode].
      exact (Hwithin a na Ha Hna).
    - assert (Hall : Forall (fun r => r ∈ rootNodes st) (rootNodes st))
        by (apply Forall_forall; auto).
      pose proof (StronglySorted_with _ _ _ Hsorted Hall) as Hs.
      eapply StronglySorted_weaken; [|exact Hs]. cbn beta.
      intros a b (Ha & Hb & Hab) na nb Hna Hnb.
      rewrite Hold in Hna, Hnb by assumption. apply Hab; assumption.
    - repeat constructor. }
  match type of H with context [sortRootNodes ?a ?b] =>
    change (sortRootNodes a b) with (sortRootNodes m' (rootNodes st ++ [i])) in H end.
  rewrite (sortRootNodes_already m' (rootNodes st ++ [i])) in H; [| |exact Hs'].
  2:{ intros r Hr. apply elem_of_app in Hr as [Hr|Hr].
      - rewrite Hold by exact Hr. apply roots_known; assumption.
      - apply list_elem_of_singleton in Hr. subst r. unfold m'.
        rewrite Map_get_set_eq. discriminate. }
  destruct (rebuildIndex _ _) as [st5|] eqn:E; [|discriminate].
  apply rebuildIndex_Some in E as [idx ->]. injection H as <-.
  eexists. split; [reflexivity|]. cbn.
  split; [apply Map_get_set_eq|].
  split; [intros k Hk; apply Map_get_set_ne; exact Hk|].
  split; [reflexivity|]. exact Hs'.
Qed.

Lemma twoFolders_roots_sorted : roots_sorted twoFolders.
Proof.
  unfold roots_sorted. change (rootNodes twoFolders) with ["p"; "q"].
  repeat constructor. intros na nb Ha Hb. vm_compute in Ha, Hb.
  injection Ha as <-. injection Hb as <-. cbn. lia.
Qed.

Lemma twoFolders_roots_within : roots_within twoFolders.
Proof.
  intros r n Hr Hn. change (rootNodes twoFolders) with ["p"; "q"] in Hr.
  assert (Hlen : length (getChildren (nodes twoFolders) None) = 2)
    by (vm_compute; reflexivity).
  rewrite Hlen. rewrite !elem_of_cons, elem_of_nil in Hr.
  destruct Hr as [->|[->|[]]]; vm_compute in Hn; injection Hn as <-; cbn; lia.
Qed.

Lemma moveToRoot_appends_witness :
  match Map_get "p1" (nodes twoFolders) with
  | None => Returned tt movedToRoot = Returned tt twoFolders
  | Some node =>
      if truthy (parentId node) then
        exists st', Returned tt movedToRoot = Returned tt st' /\
          Map_get "p1" (nodes st') = Some (movedNode node (nodes twoFolders) None 60) /\
          (forall k, k <> "p1" -> Map_get k (nodes st') = Map_get k (nodes twoFolders)) /\
          rootNodes st' = rootNodes twoFolders ++ ["p1"] /\
          roots_sorted st'
      else Returned tt movedToRoot = Returned tt twoFolders
  end.
Proof.
  assert (H : moveToRoot 16 twoFolders "p1" 60 = Some (Returned tt movedToRoot))
    by (vm_compute; reflexivity).
  pose proof (moveToRoot_appends 16 twoFolders "p1" 60 (Returned tt movedToRoot)
                twoFolders_wf twoFolders_roots_ok twoFolders_roots_sorted
                twoFolders_roots_within H) as R.
  exact R.
Defined.

(** P1 moved to the root comes after the folders P and Q. *)
Example moveToRoot_example :
  rootNodes movedToRoot = ["p"; "q"; "p1"] /\
  Map_get "p1" (nodes movedToRoot) = Some (mkNode "p1" None leaf "P1" 2 false 3 60).
Proof. vm_compute. split; reflexivity. Qed.
